(** * Hydration commit service: a model of [commitserver/commit/commit.go]

    The development embeds [Service.Commit] and [makeSecureTempDir] as
    executable state-passing functions over an explicit world (pending
    request gauge, file system, remote repository, trace of the calls made
    to the collaborators), and proves the properties the specification
    states about them. *)

From Stdlib Require Import ZArith NArith Ascii String List Lia.
From stdpp Require Import gmap strings list.

(** ** Errors *)

(** A Go [error]: one made by a collaborator or the operating system, or
    one wrapped with [fmt.Errorf("<ctx>: %w", err)]. *)
Inductive error : Type :=
| errorNew (msg : string)
| errorWrap (ctx : string) (err : error).

(** [err.Error()] *)
Fixpoint Error (e : error) : string :=
  match e with
  | errorNew msg => msg
  | errorWrap ctx err => ctx +:+ ": " +:+ Error err
  end.

(** [errors.Unwrap], down to the innermost error. *)
Fixpoint cause (e : error) : error :=
  match e with
  | errorNew msg => errorNew msg
  | errorWrap _ err => cause err
  end.

#[global] Instance error_eq_dec : EqDecision error.
Proof. solve_decision. Defined.

(** ** Paths: Go's [path.Clean], [path.Join] and the traversal-safe join *)

Module Path.

Definition sep : ascii := "/"%char.

(** The text before the first separator, and the pieces after it:
    [strings.Split(s, "/")] as a head and a tail, so that the result is
    never empty. *)
Fixpoint split2 (s : string) : string * list string :=
  match s with
  | EmptyString => ("", [])
  | String c s' =>
      let (h, t) := split2 s' in
      if decide (c = sep) then ("", h :: t) else (String c h, t)
  end.

Definition split (s : string) : list string :=
  let (h, t) := split2 s in h :: t.

Definition isRooted (s : string) : bool :=
  match s with
  | String c _ => bool_decide (c = sep)
  | EmptyString => false
  end.

(** The element loop of [path.Clean]: [st] is the output written so far,
    last element first.  An empty element and [.] are skipped, [..] backs
    up over the previous element, cannot back up over the root, and is
    kept at the front of a path that is not rooted. *)
Fixpoint cleanStack (rooted : bool) (st cs : list string) : list string :=
  match cs with
  | [] => st
  | c :: cs' =>
      if decide (c = "") then cleanStack rooted st cs'
      else if decide (c = ".") then cleanStack rooted st cs'
      else if decide (c = "..") then
        match st with
        | top :: rest =>
            if decide (top = "..") then cleanStack rooted (".." :: st) cs'
            else cleanStack rooted rest cs'
        | [] =>
            if rooted then cleanStack rooted [] cs'
            else cleanStack rooted [".."] cs'
        end
      else cleanStack rooted (c :: st) cs'
  end.

(** [path.Clean] *)
Definition Clean (s : string) : string :=
  if decide (s = "") then "."
  else
    let out := rev (cleanStack (isRooted s) [] (split s)) in
    if isRooted s then "/" +:+ String.concat "/" out
    else if decide (out = []) then "." else String.concat "/" out.

(** The buffer [path.Join] builds before cleaning it: an element is
    appended, after a separator, once the buffer is not empty or the
    element is not. *)
Fixpoint joinBuf (buf : string) (elems : list string) : string :=
  match elems with
  | [] => buf
  | e :: es =>
      if decide (buf = "") then
        (if decide (e = "") then joinBuf buf es else joinBuf e es)
      else joinBuf (buf +:+ "/" +:+ e) es
  end.

(** [path.Join] *)
Definition Join (elems : list string) : string :=
  if decide (String.concat "" elems = "") then ""
  else Clean (joinBuf "" elems).

(** The part of [SecureJoin] (github.com/cyphar/filepath-securejoin) that
    a file system without symbolic links exercises.  The file system of
    this model has directories and regular files only: [Commit] creates no
    link and hydrates a cleared working tree.  [lstat p] is the error of
    [Lstat] on [p], if it has one that is not a not-exist error; such an
    error ends the join.

    The components [SecureJoin] takes off the front of the unsafe path,
    one per round of its loop, until the path is empty. *)
Fixpoint components (s : string) : list string :=
  match s with
  | EmptyString => []
  | String c s' =>
      if decide (c = sep) then "" :: components s'
      else match components s' with
           | h :: t => String c h :: t
           | [] => [String c ""]
           end
  end.

(** The loop of [SecureJoin]: [buf] is the part of the path walked so
    far.  A component that takes the walk back to the root empties the
    buffer, so [..] never climbs over the root. *)
Fixpoint walk (lstat : string -> option error) (root buf : string)
    (cs : list string) : error + string :=
  match cs with
  | [] => inr buf
  | p :: cs' =>
      let cleanP := Clean ("/" +:+ buf +:+ p) in
      if decide (cleanP = "/") then walk lstat root "" cs'
      else
        let fullP := Clean (root +:+ cleanP) in
        match lstat fullP with
        | Some e => inl e
        | None => walk lstat root (buf +:+ p +:+ "/") cs'
        end
  end.

(** [securejoin.SecureJoin(root, unsafePath)]: the error or the joined
    path. *)
Definition SecureJoin (lstat : string -> option error)
    (root unsafePath : string) : error + string :=
  match walk lstat root "" (components unsafePath) with
  | inl e => inl e
  | inr buf => inr (Clean (root +:+ Clean ("/" +:+ buf)))
  end.

(** [k] is [root] or lies below it. *)
Definition under (root k : string) : Prop :=
  k = root \/ String.prefix (root +:+ "/") k = true.

#[global] Instance under_dec root k : Decision (under root k).
Proof. unfold under. apply _. Defined.

(** The directories [os.MkdirAll] goes through for a rooted path, the
    outermost first and the path itself last. *)
Fixpoint lineageFrom (base : string) (cs : list string) : list string :=
  match cs with
  | [] => []
  | c :: cs' => let d := base +:+ "/" +:+ c in d :: lineageFrom d cs'
  end.

Definition lineage (p : string) : list string :=
  lineageFrom "" (filter (fun c => c <> "") (split p)).

End Path.

(** ** Identifiers: [uuid.UUID] and its [String] method *)

Module uuid.

(** The sixteen bytes of the identifier. *)
Definition UUID : Type := list N.

Definition hexdigit (n : N) : ascii :=
  nth (N.to_nat (n mod 16))
    ["0"; "1"; "2"; "3"; "4"; "5"; "6"; "7";
     "8"; "9"; "a"; "b"; "c"; "d"; "e"; "f"]%char "0"%char.

(** [hex.Encode] *)
Fixpoint encodeHex (bs : list N) : string :=
  match bs with
  | [] => ""
  | b :: bs' => String (hexdigit (b / 16)) (String (hexdigit b) (encodeHex bs'))
  end.

(** [UUID.String]: xxxxxxxx-xxxx-xxxx-xxxx-xxxxxxxxxxxx *)
Definition String (u : UUID) : string :=
  encodeHex (take 4 u) +:+ "-" +:+
  encodeHex (take 2 (drop 4 u)) +:+ "-" +:+
  encodeHex (take 2 (drop 6 u)) +:+ "-" +:+
  encodeHex (take 2 (drop 8 u)) +:+ "-" +:+
  encodeHex (take 6 (drop 10 u)).

End uuid.

(** ** The request and response messages

    The [apiclient] messages are declared outside this file; the fields
    below are the ones [Commit] reads. *)

Module apiclient.

Record Repository : Type := {
  Repo : string;
  Insecure : bool;
  EnableLFS : bool;
  Proxy : string;
}.

Record PathDetails : Type := {
  Path : string;
  Manifests : list string;
  Commands : list string;
}.

Record ManifestsRequest : Type := {
  Repo_ : Repository;
  RepoUrl : string;
  TargetBranch : string;
  SyncBranch : string;
  DrySha : string;
  CommitMessage : string;
  Paths : list PathDetails;
}.

Inductive ManifestsResponse : Type := mkManifestsResponse.

End apiclient.

(** ** Hydrator metadata and the README template *)

Record hydratorMetadataFile : Type := {
  Commands : list string;
  RepoURL : string;
  DrySHA : string;
}.

#[global] Instance hydratorMetadataFile_eq_dec : EqDecision hydratorMetadataFile.
Proof. solve_decision. Defined.

Definition nl : string := String "010"%char "".

(** A parsed [text/template]: literal text, a field of the record, and a
    [range] over the commands whose body is text and the range variable. *)
Inductive BodyNode : Type :=
| BText (s : string)
| BVar.

Inductive TemplateNode : Type :=
| TText (s : string)
| TRepoURL
| TDrySHA
| TRangeCommands (body : list BodyNode).

(** [manifestHydrationReadmeTemplate], parsed.  The trim marker of
    [{{ range $command := .Commands -}}] removes the line break after it, so
    the body of the range is the command and the line break after it; the
    trim marker of [{{ end -}}] finds no white space before the closing
    fence. *)
Definition manifestHydrationReadmeTemplate : list TemplateNode :=
  [ TText (nl +:+ "# Manifest Hydration" +:+ nl +:+ nl +:+
           "To hydrate the manifests in this repository, run the following commands:"
           +:+ nl +:+ nl +:+ "```shell" +:+ nl +:+ nl +:+ "git clone ");
    TRepoURL;
    TText (nl +:+ "# cd into the cloned directory" +:+ nl +:+ "git checkout ");
    TDrySHA;
    TText nl;
    TRangeCommands [BVar; BText nl];
    TText "```" ].

Definition execBody (body : list BodyNode) (v : string) : string :=
  String.concat "" (map (fun b => match b with BText s => s | BVar => v end) body).

Definition execNode (m : hydratorMetadataFile) (n : TemplateNode) : string :=
  match n with
  | TText s => s
  | TRepoURL => RepoURL m
  | TDrySHA => DrySHA m
  | TRangeCommands body => String.concat "" (map (execBody body) (Commands m))
  end.

(** [template.Execute] *)
Definition Execute (t : list TemplateNode) (m : hydratorMetadataFile) : string :=
  String.concat "" (map (execNode m) t).

(** ** The world: gauge, file system, remote, trace *)

Inductive FileContent : Type :=
| MetadataJSON (m : hydratorMetadataFile)
| ReadmeText (s : string)
| ManifestYAML (docs : list string).

Inductive Node : Type :=
| Dir
| File (c : FileContent).

#[global] Instance FileContent_eq_dec : EqDecision FileContent.
Proof. solve_decision. Defined.

#[global] Instance Node_eq_dec : EqDecision Node.
Proof. solve_decision. Defined.

(** The operations of the Version Control Client [Commit] calls. *)
Inductive GitCall : Type :=
| Init
| Fetch (revision : string)
| SetAuthor (name email : string)
| CheckoutOrOrphan (branch : string) (submoduleEnabled : bool)
| CheckoutOrNew (branch base : string) (submoduleEnabled : bool)
| RemoveContents
| CommitAndPush (branch message : string).

#[global] Instance GitCall_eq_dec : EqDecision GitCall.
Proof. solve_decision. Defined.

Inductive Level : Type := DebugLevel | ErrorLevel.

Inductive Event : Type :=
| EvIncPending (repo : string)
| EvDecPending (repo : string)
| EvMkdirAll (p : string)
| EvWriteFile (p : string) (c : FileContent)
| EvRemoveAll (p : string)
| EvNewClient (url root : string) (insecure lfs : bool) (proxy : string)
| EvGetUserInfo
| EvGit (c : GitCall)
| EvLog (lvl : Level) (msg : string) (err : option error) (output : option string).

(** A commit received by the remote: the branch, the message and the
    file system at the time of the push, of which the commit holds the part
    under the workspace root. *)
Record Push : Type := {
  pushBranch : string;
  pushMessage : string;
  pushTree : gmap string Node;
}.

Record World : Type := {
  pending : gmap string Z;
  fs : gmap string Node;
  remote : list Push;
  trace : list Event;
}.

Definition setPending (f : gmap string Z -> gmap string Z) (w : World) : World :=
  {| pending := f (pending w); fs := fs w; remote := remote w; trace := trace w |}.
Definition setFs (f : gmap string Node -> gmap string Node) (w : World) : World :=
  {| pending := pending w; fs := f (fs w); remote := remote w; trace := trace w |}.
Definition setRemote (f : list Push -> list Push) (w : World) : World :=
  {| pending := pending w; fs := fs w; remote := f (remote w); trace := trace w |}.
Definition emit (e : Event) (w : World) : World :=
  {| pending := pending w; fs := fs w; remote := remote w; trace := trace w ++ [e] |}.

(** ** The environment: what the collaborators and the operating system
    answer.  [Commit] is modelled for every environment. *)

(** The calls of the operating system that can fail: the [Mkdir] of one
    directory (inside [os.MkdirAll]), the write of a file, the removal of
    an entry (inside [os.RemoveAll]) and [Lstat]. *)
Inductive FsOp : Type := OpMkdir | OpWriteFile | OpRemoveAll | OpLstat.

Record Env : Type := {
  (** [uuid.NewRandom()] *)
  NewRandom : error + uuid.UUID;
  (** a failure of the operating system at a file operation on a path *)
  fault : FsOp -> string -> option error;
  (** [git.NewClientExt(...)] *)
  NewClientExt : string -> string -> bool -> bool -> string -> option error;
  (** [gitCreds.GetUserInfo(ctx)] *)
  GetUserInfo : string * string * option error;
  (** the output and the error of an operation of the git client *)
  git : GitCall -> string * option error;
}.

(** ** The pending-request gauge *)

Definition gauge (w : World) (repo : string) : Z := default 0%Z (pending w !! repo).

(** Modelled from the spec: [metrics.Server] is declared outside this file;
    the pending-request counter is a gauge labelled by repository which
    [IncPendingCommitRequest] raises by one and [DecPendingCommitRequest]
    lowers by one. *)
Definition IncPendingCommitRequest (repo : string) (w : World) : World :=
  emit (EvIncPending repo)
    (setPending (fun g => <[repo := (default 0 (g !! repo) + 1)%Z]> g) w).

Definition DecPendingCommitRequest (repo : string) (w : World) : World :=
  emit (EvDecPending repo)
    (setPending (fun g => <[repo := (default 0 (g !! repo) - 1)%Z]> g) w).

(** ** The file system *)

(** The file system a walk down the directories [ps] that meets no
    failure leaves: every one of them is a directory. *)
Fixpoint mkdirs (ps : list string) (m : gmap string Node) : option (gmap string Node) :=
  match ps with
  | [] => Some m
  | q :: qs =>
      match m !! q with
      | Some (File _) => None
      | _ => mkdirs qs (<[q := Dir]> m)
      end
  end.

(** The walk of [os.MkdirAll] down the directories on the way to a path,
    the outermost first: a directory that exists is passed, a regular file
    is an error ([ENOTDIR]), a missing directory is made with [Mkdir],
    whose failure ends the walk.  The directories made before a failure
    stay: the result is the error, if any, and the file system left. *)
Fixpoint mkdirsRun (mkdir : string -> option error) (ps : list string)
    (m : gmap string Node) : option error * gmap string Node :=
  match ps with
  | [] => (None, m)
  | q :: qs =>
      match m !! q with
      | Some Dir => mkdirsRun mkdir qs m
      | Some (File _) => (Some (errorNew ("mkdir " +:+ q +:+ ": not a directory")), m)
      | None =>
          match mkdir q with
          | Some e => (Some e, m)
          | None => mkdirsRun mkdir qs (<[q := Dir]> m)
          end
      end
  end.

(** [os.MkdirAll(p, os.ModePerm)] on a rooted path: every directory on the
    way is created unless it exists; a regular file on the way is an
    error, and so is the failure of a [Mkdir].  The error, or the file
    system a call that succeeds leaves. *)
Definition mkdirAll (env : Env) (p : string) (m : gmap string Node)
    : error + gmap string Node :=
  match mkdirsRun (fault env OpMkdir) (Path.lineage p) m with
  | (Some e, _) => inl e
  | (None, m') => inr m'
  end.

(** The file system a call of [os.MkdirAll] that fails leaves: the
    directories made before the failure are there. *)
Definition mkdirAllLeft (env : Env) (p : string) (m : gmap string Node)
    : gmap string Node :=
  (mkdirsRun (fault env OpMkdir) (Path.lineage p) m).2.

Definition os_MkdirAll (env : Env) (p : string) (w : World) : option error * World :=
  let w := emit (EvMkdirAll p) w in
  match mkdirAll env p (fs w) with
  | inl e => (Some e, setFs (mkdirAllLeft env p) w)
  | inr m => (None, setFs (fun _ => m) w)
  end.

(** [os.WriteFile(path.Join(dir, name), data, os.ModePerm)]: the directory
    has to exist, the file is created or truncated, a directory of that
    name is an error. *)
Definition writeFile (env : Env) (dir name : string) (c : FileContent)
    (m : gmap string Node) : error + gmap string Node :=
  let p := Path.Join [dir; name] in
  match fault env OpWriteFile p with
  | Some e => inl e
  | None =>
      match m !! dir with
      | Some Dir =>
          match m !! p with
          | Some Dir => inl (errorNew ("open " +:+ p +:+ ": is a directory"))
          | _ => inr (<[p := File c]> m)
          end
      | _ => inl (errorNew ("open " +:+ p +:+ ": no such file or directory"))
      end
  end.

Definition os_WriteFile (env : Env) (dir name : string) (c : FileContent)
    (w : World) : option error * World :=
  let w := emit (EvWriteFile (Path.Join [dir; name]) c) w in
  match writeFile env dir name c (fs w) with
  | inl e => (Some e, w)
  | inr m => (None, setFs (fun _ => m) w)
  end.

(** [os.RemoveAll(p)]: [p] and everything below it is gone.  The error
    of the call is the failure of the environment at [p], if it has one;
    otherwise the file system the call leaves. *)
Definition removeAll (env : Env) (p : string) (m : gmap string Node)
    : error + gmap string Node :=
  match fault env OpRemoveAll p with
  | Some e => inl e
  | None => inr (filter (fun kv => ~ Path.under p kv.1) m)
  end.

(** The file system a call of [os.RemoveAll] that fails leaves: the call
    removes what it can, and the entries at which the environment has a
    failure of removal stay, of which [p] is one. *)
Definition removeAllLeft (env : Env) (p : string) (m : gmap string Node)
    : gmap string Node :=
  filter (fun kv => ~ Path.under p kv.1 \/ is_Some (fault env OpRemoveAll kv.1)) m.

Definition os_RemoveAll (env : Env) (p : string) (w : World) : option error * World :=
  let w := emit (EvRemoveAll p) w in
  match removeAll env p (fs w) with
  | inl e => (Some e, setFs (removeAllLeft env p) w)
  | inr m => (None, setFs (fun _ => m) w)
  end.

(** ** The Version Control Client *)

(** Modelled from the spec: the git client ([util/git]) is outside this
    file.  It is the capability set of section 6: every operation returns
    an output and an error, and the remote changes at a commit-and-push
    that succeeds, which adds one commit of the working tree to the
    branch. *)
Definition gitCall (env : Env) (c : GitCall) (w : World) : (string * option error) * World :=
  let w := emit (EvGit c) w in
  match c, git env c with
  | CommitAndPush branch message, (out, None) =>
      ((out, None),
       setRemote (fun r => r ++ [{| pushBranch := branch; pushMessage := message;
                                    pushTree := fs w |}]) w)
  | _, res => (res, w)
  end.

Definition git_NewClientExt (env : Env) (url root : string) (insecure lfs : bool)
    (proxy : string) (w : World) : option error * World :=
  (NewClientExt env url root insecure lfs proxy,
   emit (EvNewClient url root insecure lfs proxy) w).

Definition gitCreds_GetUserInfo (env : Env) (w : World)
    : (string * string * option error) * World :=
  (GetUserInfo env, emit EvGetUserInfo w).

(** ** Steps that can fail *)

Definition M (A : Type) : Type := World -> (error + A) * World.

Definition ret {A} (a : A) : M A := fun w => (inr a, w).

Definition fail {A} (e : error) : M A := fun w => (inl e, w).

Definition bind {A B} (m : M A) (k : A -> M B) : M B :=
  fun w =>
    match m w with
    | (inl e, w') => (inl e, w')
    | (inr a, w') => k a w'
    end.

Definition lift {A} (f : World -> A * World) : M A :=
  fun w => let (a, w') := f w in (inr a, w').

Notation "x <- m ;; k" := (bind m (fun x => k))
  (at level 100, m at next level, right associativity).
Notation "m ;;; k" := (bind m (fun _ => k))
  (at level 100, right associativity).

Definition logEntry (lvl : Level) (msg : string) (err : option error)
    (output : option string) : M unit :=
  lift (fun w => (tt, emit (EvLog lvl msg err output) w)).

Definition logDebug (msg : string) : M unit := logEntry DebugLevel msg None None.

(** [logCtx.WithError(err).Error(msg)] *)
Definition logError (msg : string) (err : error) : M unit :=
  logEntry ErrorLevel msg (Some err) None.

(** [logCtx.WithError(err).WithField("output", out).Error(msg)] *)
Definition logErrorOut (msg out : string) (err : error) : M unit :=
  logEntry ErrorLevel msg (Some err) (Some out).

(** [if err != nil { <log>; return ..., fmt.Errorf("<ctx>: %w", err) }] *)
Definition ifErr (err : option error) (onErr : error -> M unit) (ctx : string) : M unit :=
  match err with
  | None => ret tt
  | Some e => onErr e ;;; fail (errorWrap ctx e)
  end.

(** ** The hydrator helper *)

Record hydratorHelper : Type := { dirPath : string }.

Definition newHydratorHelper (dirPath : string) : hydratorHelper :=
  {| dirPath := dirPath |}.

Definition metadataFileName : string := "hydrator.metadata".
Definition readmeFileName : string := "README.md".
Definition manifestFileName : string := "manifest.yaml".

(** Modelled from the spec: the methods of [hydratorHelper] are outside
    this file.  A method takes a directory relative to the workspace root,
    resolves it under the root with the traversal-safe join (the invariant
    of section 3: every path written resolves inside the workspace), and
    writes one file of a fixed name inside it, over any file of that name
    (section 4.4).  The JSON text of the metadata is kept as the record it
    encodes; a manifest file holds the documents of the entry. *)
Definition writeIn (env : Env) (h : hydratorHelper) (dir name : string)
    (c : FileContent) (w : World) : option error * World :=
  match Path.SecureJoin (fault env OpLstat) (dirPath h) dir with
  | inl err => (Some err, w)
  | inr full => os_WriteFile env full name c w
  end.

Definition WriteMetadata (env : Env) (h : hydratorHelper)
    (metadata : hydratorMetadataFile) (dir : string) : World -> option error * World :=
  writeIn env h dir metadataFileName (MetadataJSON metadata).

Definition WriteManifests (env : Env) (h : hydratorHelper)
    (manifests : list string) (dir : string) : World -> option error * World :=
  writeIn env h dir manifestFileName (ManifestYAML manifests).

Definition WriteReadme (env : Env) (h : hydratorHelper)
    (metadata : hydratorMetadataFile) (dir : string) : World -> option error * World :=
  writeIn env h dir readmeFileName
    (ReadmeText (Execute manifestHydrationReadmeTemplate metadata)).

(** ** [makeSecureTempDir] *)

Definition tempRoot : string := "/tmp/_commit-service".

(** The [cleanup] closure [makeSecureTempDir] returns for [dirPath]. *)
Definition cleanup (env : Env) (dirPath : string) (w : World) : option error * World :=
  match os_RemoveAll env dirPath w with
  | (Some err, w') => (Some (errorWrap "failed to remove temp dir" err), w')
  | (None, w') => (None, w')
  end.

Definition makeSecureTempDir (env : Env) : M string :=
  match NewRandom env with
  | inl err => fail (errorWrap "failed to generate uuid" err)
  | inr dirName =>
      let dirPath := Path.Join [tempRoot; uuid.String dirName] in
      err <- lift (os_MkdirAll env dirPath) ;;
      match err with
      | Some e => fail (errorWrap "failed to create temp dir" e)
      | None => ret dirPath
      end
  end.

(** ** [Service.Commit] *)

Section Commit.

Variable env : Env.
Variable r : apiclient.ManifestsRequest.

(** One round of [for _, p := range r.Paths]. *)
Definition hydrate (h : hydratorHelper) (dirPath : string) (p : apiclient.PathDetails) : M unit :=
  let hydratePath := if decide (apiclient.Path p = ".") then "" else apiclient.Path p in
  logDebug ("Writing manifests to " +:+ hydratePath) ;;;
  match Path.SecureJoin (fault env OpLstat) dirPath hydratePath with
  | inl err =>
      logError "failed to construct hydrate path" err ;;;
      fail (errorWrap "failed to construct hydrate path" err)
  | inr fullHydratePath =>
      err <- lift (os_MkdirAll env fullHydratePath) ;;
      ifErr err (logError "failed to create path") "failed to create path" ;;;
      err <- lift (WriteManifests env h (apiclient.Manifests p) hydratePath) ;;
      ifErr err (logError "failed to write manifests") "failed to write manifests" ;;;
      logDebug "Writing hydrator metadata" ;;;
      let hydratorMetadata :=
        {| Commands := apiclient.Commands p; DrySHA := apiclient.DrySha r; RepoURL := apiclient.RepoUrl r |} in
      err <- lift (WriteMetadata env h hydratorMetadata hydratePath) ;;
      ifErr err (logError "failed to write hydrator metadata")
        "failed to write hydrator metadata" ;;;
      logDebug "Writing README" ;;;
      err <- lift (WriteReadme env h hydratorMetadata hydratePath) ;;
      ifErr err (logError "failed to write readme") "failed to write readme"
  end.

Fixpoint forPaths (body : apiclient.PathDetails -> M unit)
    (ps : list apiclient.PathDetails) : M unit :=
  match ps with
  | [] => ret tt
  | p :: ps' => body p ;;; forPaths body ps'
  end.

(** Lines 50 to 107 of [Commit]: the git client is created in the
    workspace [dirPath] and driven up to the cleared working tree. *)
Definition branchSync (dirPath : string) : M unit :=
  let repo := apiclient.Repo_ r in
  err <- lift (git_NewClientExt env (apiclient.RepoUrl r) dirPath
                 (apiclient.Insecure repo) (apiclient.EnableLFS repo)
                 (apiclient.Proxy repo)) ;;
  ifErr err (logError "failed to create git client") "failed to create git client" ;;;
  res <- lift (gitCall env Init) ;;
  let '(_, err) := res in
  ifErr err (logError "failed to initialize git client") "failed to init git client" ;;;
  logDebug ("Cloning repo " +:+ apiclient.RepoUrl r) ;;;
  res <- lift (gitCall env (Fetch "")) ;;
  let '(_, err) := res in
  ifErr err (fun _ => ret tt) "failed to clone repo" ;;;
  res <- lift (gitCreds_GetUserInfo env) ;;
  let '(authorName, authorEmail, err) := res in
  ifErr err (logError "failed to get github app info") "failed to get github app info" ;;;
  res <- lift (gitCall env (SetAuthor authorName authorEmail)) ;;
  let '(out, err) := res in
  ifErr err (logErrorOut "failed to set author" out) "failed to set author" ;;;
  logDebug ("Checking out sync branch " +:+ apiclient.SyncBranch r) ;;;
  res <- lift (gitCall env (CheckoutOrOrphan (apiclient.SyncBranch r) false)) ;;
  let '(out, err) := res in
  ifErr err (logErrorOut "failed to checkout sync branch" out)
    "failed to checkout sync branch" ;;;
  logDebug ("Checking out target branch " +:+ apiclient.TargetBranch r) ;;;
  res <- lift (gitCall env (CheckoutOrNew (apiclient.TargetBranch r)
                              (apiclient.SyncBranch r) false)) ;;
  let '(out, err) := res in
  ifErr err (logErrorOut "failed to checkout target branch" out)
    "failed to checkout target branch" ;;;
  logDebug "Clearing repo contents" ;;;
  res <- lift (gitCall env RemoveContents) ;;
  let '(out, err) := res in
  ifErr err (logErrorOut "failed to clear repo" out) "failed to clear repo".

(** Lines 111 to 180 of [Commit]: the metadata of the root, the loop over
    the paths, the commit and the push. *)
Definition writeAndPush (dirPath : string) : M unit :=
  let h := newHydratorHelper dirPath in
  logDebug "Writing top-level hydrator metadata" ;;;
  err <- lift (WriteMetadata env h
                 {| Commands := []; DrySHA := apiclient.DrySha r;
                    RepoURL := apiclient.RepoUrl r |} "") ;;
  ifErr err (logError "failed to write top-level hydrator metadata")
    "failed to write top-level hydrator metadata" ;;;
  forPaths (hydrate h dirPath) (apiclient.Paths r) ;;;
  logDebug "Committing and pushing changes" ;;;
  res <- lift (gitCall env (CommitAndPush (apiclient.TargetBranch r)
                              (apiclient.CommitMessage r))) ;;
  let '(out, err) := res in
  ifErr err (logErrorOut "failed to commit and push" out) "failed to commit and push" ;;;
  logEntry DebugLevel "pushed manifests to git" None (Some out).

(** The body of [Commit] from line 50 on, in the workspace [dirPath]. *)
Definition commitIn (dirPath : string) : M unit :=
  branchSync dirPath ;;; writeAndPush dirPath.

(** The deferred function of lines 43 to 48: the error of [cleanup] is
    logged and dropped. *)
Definition deferredCleanup (dirPath : string) (w : World) : World :=
  match cleanup env dirPath w with
  | (Some err, w') => emit (EvLog ErrorLevel "failed to clean up temp dir" (Some err) None) w'
  | (None, w') => w'
  end.

(** [Commit] between the two calls on the gauge. *)
Definition commitBody (w : World) : option error * World :=
  match makeSecureTempDir env w with
  | (inl err, w1) =>
      (Some (errorWrap "failed to create temp dir" err),
       emit (EvLog ErrorLevel "failed to create temp dir" (Some err) None) w1)
  | (inr dirPath, w1) =>
      match commitIn dirPath w1 with
      | (inl err, w2) => (Some err, deferredCleanup dirPath w2)
      | (inr _, w2) => (None, deferredCleanup dirPath w2)
      end
  end.

(** [Service.Commit]: the response, the error and the world it leaves. *)
Definition Commit (w : World) : apiclient.ManifestsResponse * option error * World :=
  let w0 := IncPendingCommitRequest (apiclient.Repo (apiclient.Repo_ r)) w in
  let (err, w1) := commitBody w0 in
  (apiclient.mkManifestsResponse, err, DecPendingCommitRequest (apiclient.Repo (apiclient.Repo_ r)) w1).

End Commit.

(** ** Vocabulary of the statements *)

(** A string without a separator; a path component that [path.Clean]
    keeps as it is; the rooted path made of the given components. *)
Fixpoint noSlash (s : string) : Prop :=
  match s with
  | EmptyString => True
  | String c s' => c <> Path.sep /\ noSlash s'
  end.

Definition good (c : string) : Prop :=
  c <> "" /\ c <> "." /\ c <> ".." /\ noSlash c.

Fixpoint render (cs : list string) : string :=
  match cs with
  | [] => ""
  | c :: cs' => "/" +:+ c +:+ render cs'
  end.

(** The workspace of a request: [path.Join("/tmp/_commit-service",
    dirName.String())]. *)
Definition workspace (u : uuid.UUID) : string :=
  Path.Join [tempRoot; uuid.String u].

(** The events a step adds to the trace. *)
Definition events (w w' : World) : list Event :=
  drop (length (trace w)) (trace w').

Definition gitCalls (evs : list Event) : list GitCall :=
  omap (fun e => match e with EvGit c => Some c | _ => None end) evs.

Definition fileWrites (evs : list Event) : list (string * FileContent) :=
  omap (fun e => match e with EvWriteFile p c => Some (p, c) | _ => None end) evs.

(** The path a file operation works on. *)
Definition touched (e : Event) : option string :=
  match e with
  | EvMkdirAll p | EvWriteFile p _ | EvRemoveAll p => Some p
  | _ => None
  end.

(** What a round of the hydration loop may add to the trace: log lines,
    and directories and files under the workspace root. *)
Definition loopEvent (root : string) (e : Event) : Prop :=
  match e with
  | EvLog _ _ _ _ => True
  | EvMkdirAll p | EvWriteFile p _ => Path.under root p
  | _ => False
  end.

(** The entry at [k] is as before, or a directory was created there. *)
Definition frame (m m' : gmap string Node) (k : string) : Prop :=
  m' !! k = m !! k \/ (m !! k = None /\ m' !! k = Some Dir).

(** The path of an entry as the loop resolves it. *)
Definition hydratePathOf (p : apiclient.PathDetails) : string :=
  if decide (apiclient.Path p = ".") then "" else apiclient.Path p.

Definition metadataOf (r : apiclient.ManifestsRequest) (p : apiclient.PathDetails)
    : hydratorMetadataFile :=
  {| Commands := apiclient.Commands p; DrySHA := apiclient.DrySha r;
     RepoURL := apiclient.RepoUrl r |}.

Definition rootMetadata (r : apiclient.ManifestsRequest) : hydratorMetadataFile :=
  {| Commands := []; DrySHA := apiclient.DrySha r; RepoURL := apiclient.RepoUrl r |}.

(** The world with more events on its trace. *)
Definition addEvents (evs : list Event) (w : World) : World :=
  {| pending := pending w; fs := fs w; remote := remote w; trace := trace w ++ evs |}.

(** ** The pipeline of the branch synchronizer, as a table

    A step of the linear pipeline of section 4.2: the events it adds to
    the trace when it is reached, its error, the log line of its failure
    and the context its error is wrapped with. *)
Record Step : Type := {
  stepEvents : list Event;
  stepError : option error;
  stepLog : error -> list Event;
  stepContext : string;
}.

(** The steps are run in order; the first error ends the run, wrapped with
    the context of its step. *)
Fixpoint runSteps (steps : list Step) : list Event * option error :=
  match steps with
  | [] => ([], None)
  | s :: rest =>
      match stepError s with
      | Some e => (stepEvents s ++ stepLog s e, Some (errorWrap (stepContext s) e))
      | None => let (evs, res) := runSteps rest in (stepEvents s ++ evs, res)
      end
  end.

Definition syncSteps (env : Env) (r : apiclient.ManifestsRequest) (root : string)
    : list Step :=
  let repo := apiclient.Repo_ r in
  let author := GetUserInfo env in
  let setAuthor := SetAuthor author.1.1 author.1.2 in
  let sync := CheckoutOrOrphan (apiclient.SyncBranch r) false in
  let target := CheckoutOrNew (apiclient.TargetBranch r) (apiclient.SyncBranch r) false in
  let logE msg e := [EvLog ErrorLevel msg (Some e) None] in
  let logO msg c e := [EvLog ErrorLevel msg (Some e) (Some (git env c).1)] in
  let dbg msg := EvLog DebugLevel msg None None in
  [ {| stepEvents := [EvNewClient (apiclient.RepoUrl r) root (apiclient.Insecure repo)
                        (apiclient.EnableLFS repo) (apiclient.Proxy repo)];
       stepError := NewClientExt env (apiclient.RepoUrl r) root (apiclient.Insecure repo)
                      (apiclient.EnableLFS repo) (apiclient.Proxy repo);
       stepLog := logE "failed to create git client";
       stepContext := "failed to create git client" |};
    {| stepEvents := [EvGit Init];
       stepError := (git env Init).2;
       stepLog := logE "failed to initialize git client";
       stepContext := "failed to init git client" |};
    {| stepEvents := [dbg ("Cloning repo " +:+ apiclient.RepoUrl r); EvGit (Fetch "")];
       stepError := (git env (Fetch "")).2;
       stepLog := fun _ => [];
       stepContext := "failed to clone repo" |};
    {| stepEvents := [EvGetUserInfo];
       stepError := author.2;
       stepLog := logE "failed to get github app info";
       stepContext := "failed to get github app info" |};
    {| stepEvents := [EvGit setAuthor];
       stepError := (git env setAuthor).2;
       stepLog := logO "failed to set author" setAuthor;
       stepContext := "failed to set author" |};
    {| stepEvents := [dbg ("Checking out sync branch " +:+ apiclient.SyncBranch r);
                      EvGit sync];
       stepError := (git env sync).2;
       stepLog := logO "failed to checkout sync branch" sync;
       stepContext := "failed to checkout sync branch" |};
    {| stepEvents := [dbg ("Checking out target branch " +:+ apiclient.TargetBranch r);
                      EvGit target];
       stepError := (git env target).2;
       stepLog := logO "failed to checkout target branch" target;
       stepContext := "failed to checkout target branch" |};
    {| stepEvents := [dbg "Clearing repo contents"; EvGit RemoveContents];
       stepError := (git env RemoveContents).2;
       stepLog := logO "failed to clear repo" RemoveContents;
       stepContext := "failed to clear repo" |} ].

(** The calls of the branch synchronizer, in order. *)
Definition syncCalls (env : Env) (r : apiclient.ManifestsRequest) : list GitCall :=
  [ Init; Fetch "";
    SetAuthor (GetUserInfo env).1.1 (GetUserInfo env).1.2;
    CheckoutOrOrphan (apiclient.SyncBranch r) false;
    CheckoutOrNew (apiclient.TargetBranch r) (apiclient.SyncBranch r) false;
    RemoveContents ].

Definition pushCall (r : apiclient.ManifestsRequest) : GitCall :=
  CommitAndPush (apiclient.TargetBranch r) (apiclient.CommitMessage r).

(** What the hydration loop leaves alone: the gauge and the remote; it adds
    loop events to the trace, keeps every directory, and outside the
    workspace root at most creates directories. *)
Definition confined (root : string) (w w' : World) : Prop :=
  pending w' = pending w /\ remote w' = remote w /\
  (exists evs, trace w' = trace w ++ evs /\ Forall (loopEvent root) evs) /\
  (forall k, fs w !! k = Some Dir -> fs w' !! k = Some Dir) /\
  (forall k, ~ Path.under root k -> frame (fs w) (fs w') k).

(** The workspace [Commit] works in: none when no identifier is drawn. *)
Definition workspaceOf (env : Env) : string :=
  match NewRandom env with
  | inr u => workspace u
  | inl _ => ""
  end.

(** What [Commit] may add to the trace between the two calls on the gauge:
    no call on the gauge, and file operations under the workspace root
    only. *)
Definition bodyEvent (root : string) (e : Event) : Prop :=
  match e with
  | EvIncPending _ | EvDecPending _ => False
  | EvMkdirAll p | EvWriteFile p _ | EvRemoveAll p => Path.under root p
  | _ => True
  end.

(** The log line of the deferred function for a failed removal. *)
Definition cleanupLog (e : error) : Event :=
  EvLog ErrorLevel "failed to clean up temp dir"
    (Some (errorWrap "failed to remove temp dir" e)) None.

(** The events of the deferred function. *)
Definition cleanupEvents (env : Env) (root : string) : list Event :=
  match fault env OpRemoveAll root with
  | Some e => [EvRemoveAll root; cleanupLog e]
  | None => [EvRemoveAll root]
  end.

(** ** The exit paths of [Commit] *)

Definition dbg (msg : string) : Event := EvLog DebugLevel msg None None.

Definition errLog (msg : string) (e : error) : Event :=
  EvLog ErrorLevel msg (Some e) None.

Definition errLogOut (msg out : string) (e : error) : Event :=
  EvLog ErrorLevel msg (Some e) (Some out).

(** The metadata file at the workspace root. *)
Definition rootMetadataPath (root : string) : string :=
  Path.Join [root; metadataFileName].

Definition rootWrite (r : apiclient.ManifestsRequest) (root : string) : list Event :=
  [dbg "Writing top-level hydrator metadata";
   EvWriteFile (rootMetadataPath root) (MetadataJSON (rootMetadata r))].

Definition pushOf (r : apiclient.ManifestsRequest) (tree : gmap string Node) : Push :=
  {| pushBranch := apiclient.TargetBranch r;
     pushMessage := apiclient.CommitMessage r;
     pushTree := tree |}.

(** The file system after the deferred removal of the workspace. *)
Definition cleaned (env : Env) (root : string) (m : gmap string Node)
    : gmap string Node :=
  match removeAll env root m with
  | inl _ => removeAllLeft env root m
  | inr m' => m'
  end.

(** A run of the hydration loop from the file system [m]: its result, the
    events it adds and the file system it leaves. *)
Definition LoopRun (env : Env) (r : apiclient.ManifestsRequest) (root : string)
    (ps : list apiclient.PathDetails) (m : gmap string Node) (res : error + unit)
    (levs : list Event) (m' : gmap string Node) : Prop :=
  exists w w',
    fs w = m /\
    forPaths (hydrate env r (newHydratorHelper root) root) ps w = (res, w') /\
    trace w' = trace w ++ levs /\ fs w' = m'.

(** The exit paths of [commitIn] in the workspace [root], from the file
    system [m] and the remote [rm]: the error returned, the events added,
    the file system and the remote left. *)
Inductive InnerRun (env : Env) (r : apiclient.ManifestsRequest) (root : string)
    (m : gmap string Node) (rm : list Push)
    : option error -> list Event -> gmap string Node -> list Push -> Prop :=
| InnerSyncFail e :
    (runSteps (syncSteps env r root)).2 = Some e ->
    InnerRun env r root m rm (Some e) (runSteps (syncSteps env r root)).1 m rm
| InnerRootFail e :
    (runSteps (syncSteps env r root)).2 = None ->
    writeFile env root metadataFileName (MetadataJSON (rootMetadata r)) m = inl e ->
    InnerRun env r root m rm
      (Some (errorWrap "failed to write top-level hydrator metadata" e))
      ((runSteps (syncSteps env r root)).1 ++ rootWrite r root ++
       [errLog "failed to write top-level hydrator metadata" e])
      m rm
| InnerLoopFail m1 e levs m2 :
    (runSteps (syncSteps env r root)).2 = None ->
    writeFile env root metadataFileName (MetadataJSON (rootMetadata r)) m = inr m1 ->
    LoopRun env r root (apiclient.Paths r) m1 (inl e) levs m2 ->
    InnerRun env r root m rm (Some e)
      ((runSteps (syncSteps env r root)).1 ++ rootWrite r root ++ levs) m2 rm
| InnerPushFail m1 levs m2 out e :
    (runSteps (syncSteps env r root)).2 = None ->
    writeFile env root metadataFileName (MetadataJSON (rootMetadata r)) m = inr m1 ->
    LoopRun env r root (apiclient.Paths r) m1 (inr tt) levs m2 ->
    git env (pushCall r) = (out, Some e) ->
    InnerRun env r root m rm
      (Some (errorWrap "failed to commit and push" e))
      ((runSteps (syncSteps env r root)).1 ++ rootWrite r root ++ levs ++
       [dbg "Committing and pushing changes"; EvGit (pushCall r);
        errLogOut "failed to commit and push" out e])
      m2 rm
| InnerOk m1 levs m2 out :
    (runSteps (syncSteps env r root)).2 = None ->
    writeFile env root metadataFileName (MetadataJSON (rootMetadata r)) m = inr m1 ->
    LoopRun env r root (apiclient.Paths r) m1 (inr tt) levs m2 ->
    git env (pushCall r) = (out, None) ->
    InnerRun env r root m rm None
      ((runSteps (syncSteps env r root)).1 ++ rootWrite r root ++ levs ++
       [dbg "Committing and pushing changes"; EvGit (pushCall r);
        EvLog DebugLevel "pushed manifests to git" None (Some out)])
      m2 (rm ++ [pushOf r m2]).

(** The exit paths of [Commit] between the two calls on the gauge. *)
Inductive BodyRun (env : Env) (r : apiclient.ManifestsRequest)
    (m : gmap string Node) (rm : list Push)
    : option error -> list Event -> gmap string Node -> list Push -> Prop :=
| RunNoUuid e :
    NewRandom env = inl e ->
    BodyRun env r m rm
      (Some (errorWrap "failed to create temp dir"
               (errorWrap "failed to generate uuid" e)))
      [errLog "failed to create temp dir" (errorWrap "failed to generate uuid" e)]
      m rm
| RunNoDir u e :
    NewRandom env = inr u ->
    mkdirAll env (workspace u) m = inl e ->
    BodyRun env r m rm
      (Some (errorWrap "failed to create temp dir"
               (errorWrap "failed to create temp dir" e)))
      [EvMkdirAll (workspace u);
       errLog "failed to create temp dir" (errorWrap "failed to create temp dir" e)]
      (mkdirAllLeft env (workspace u) m) rm
| RunInDir u m1 err evs m2 rm2 :
    NewRandom env = inr u ->
    mkdirAll env (workspace u) m = inr m1 ->
    InnerRun env r (workspace u) m1 rm err evs m2 rm2 ->
    BodyRun env r m rm err
      ([EvMkdirAll (workspace u)] ++ evs ++ cleanupEvents env (workspace u))
      (cleaned env (workspace u) m2) rm2.

(** The README of an entry. *)
Definition readmeOf (r : apiclient.ManifestsRequest) (p : apiclient.PathDetails)
    : FileContent :=
  ReadmeText (Execute manifestHydrationReadmeTemplate (metadataOf r p)).

(** The events of a round of the loop that succeeds, for the entry [p]
    resolved to the directory [full]. *)
Definition roundEvents (r : apiclient.ManifestsRequest) (p : apiclient.PathDetails)
    (full : string) : list Event :=
  [ dbg ("Writing manifests to " +:+ hydratePathOf p);
    EvMkdirAll full;
    EvWriteFile (Path.Join [full; manifestFileName])
      (ManifestYAML (apiclient.Manifests p));
    dbg "Writing hydrator metadata";
    EvWriteFile (Path.Join [full; metadataFileName]) (MetadataJSON (metadataOf r p));
    dbg "Writing README";
    EvWriteFile (Path.Join [full; readmeFileName]) (readmeOf r p) ].

(** The file system after a round that succeeds. *)
Definition roundFs (r : apiclient.ManifestsRequest) (p : apiclient.PathDetails)
    (full : string) (m : gmap string Node) : gmap string Node :=
  <[Path.Join [full; readmeFileName] := File (readmeOf r p)]>
    (<[Path.Join [full; metadataFileName] := File (MetadataJSON (metadataOf r p))]>
       (<[Path.Join [full; manifestFileName] :=
            File (ManifestYAML (apiclient.Manifests p))]> m)).

(** The directory the loop resolves an entry to ([fullHydratePath]); the
    empty string when the join fails. *)
Definition resolve (env : Env) (root : string) (p : apiclient.PathDetails) : string :=
  match Path.SecureJoin (fault env OpLstat) root (hydratePathOf p) with
  | inr full => full
  | inl _ => ""
  end.

(** The events of a loop that succeeds. *)
Definition loopEvents (env : Env) (r : apiclient.ManifestsRequest) (root : string)
    (ps : list apiclient.PathDetails) : list Event :=
  flat_map (fun p => roundEvents r p (resolve env root p)) ps.

(** The commands the metadata file of the workspace root ends with: those
    of the last entry that resolves to the root, after [acc]. *)
Definition rootCommandsFrom (env : Env) (root : string) (acc : list string)
    (ps : list apiclient.PathDetails) : list string :=
  fold_left
    (fun acc p => if decide (resolve env root p = root) then apiclient.Commands p else acc)
    ps acc.

Definition rootCommands (env : Env) (root : string)
    (ps : list apiclient.PathDetails) : list string :=
  rootCommandsFrom env root [] ps.

Definition metadataWith (r : apiclient.ManifestsRequest) (cmds : list string)
    : hydratorMetadataFile :=
  {| Commands := cmds; DrySHA := apiclient.DrySha r; RepoURL := apiclient.RepoUrl r |}.

(** A string without a dot. *)
Fixpoint noDot (s : string) : Prop :=
  match s with
  | EmptyString => True
  | String c s' => c <> "."%char /\ noDot s'
  end.

(** The components of the workspace root. *)
Definition rootComponents (u : uuid.UUID) : list string :=
  ["tmp"; "_commit-service"; uuid.String u].

(** A directory of the workspace whose root has the components [rc]: the
    root or a clean path below it. *)
Definition inWorkspace (rc : list string) (d : string) : Prop :=
  exists cs, Forall good cs /\ d = render (rc ++ cs).

(** The error of a step, as [Commit] returns it. *)
Definition toErr (res : error + unit) : option error :=
  match res with
  | inl e => Some e
  | inr _ => None
  end.

(** The calls of the branch synchronizer with the context each error is
    wrapped with. *)
Definition syncContexts (env : Env) (r : apiclient.ManifestsRequest)
    : list (GitCall * string) :=
  [ (Init, "failed to init git client");
    (Fetch "", "failed to clone repo");
    (SetAuthor (GetUserInfo env).1.1 (GetUserInfo env).1.2, "failed to set author");
    (CheckoutOrOrphan (apiclient.SyncBranch r) false, "failed to checkout sync branch");
    (CheckoutOrNew (apiclient.TargetBranch r) (apiclient.SyncBranch r) false,
     "failed to checkout target branch");
    (RemoveContents, "failed to clear repo") ].

(** ** Sample requests and environments *)

Definition sampleUuid : uuid.UUID :=
  [18; 52; 86; 120; 154; 188; 222; 240; 1; 35; 69; 103; 137; 171; 205; 239]%N.

(** The workspace of the sample identifier. *)
Definition sampleRoot : string :=
  "/tmp/_commit-service/12345678-9abc-def0-0123-456789abcdef".

(** An environment in which nothing fails. *)
Definition okEnv : Env :=
  {| NewRandom := inr sampleUuid;
     fault := fun _ _ => None;
     NewClientExt := fun _ _ _ _ _ => None;
     GetUserInfo := ("bot", "bot@example.com", None);
     git := fun _ => ("", None) |}.

(** [env] with a failure of the given git operation. *)
Definition withGitError (c : GitCall) (e : error) (env : Env) : Env :=
  {| NewRandom := NewRandom env;
     fault := fault env;
     NewClientExt := NewClientExt env;
     GetUserInfo := GetUserInfo env;
     git := fun c' => if decide (c' = c) then ("rejected", Some e) else git env c' |}.

(** [env] with the given failures of [os.RemoveAll]. *)
Definition withRemoveAllFault (f : string -> option error) (env : Env) : Env :=
  {| NewRandom := NewRandom env;
     fault := fun op p => match op with OpRemoveAll => f p | _ => fault env op p end;
     NewClientExt := NewClientExt env;
     GetUserInfo := GetUserInfo env;
     git := git env |}.

Definition emptyWorld : World :=
  {| pending := ∅; fs := ∅; remote := []; trace := [] |}.

Definition sampleRepo : apiclient.Repository :=
  {| apiclient.Repo := "https://git.example/repo"; apiclient.Insecure := false;
     apiclient.EnableLFS := false; apiclient.Proxy := "" |}.

Definition sampleRequest (paths : list apiclient.PathDetails)
    : apiclient.ManifestsRequest :=
  {| apiclient.Repo_ := sampleRepo;
     apiclient.RepoUrl := "https://git.example/repo";
     apiclient.TargetBranch := "env/prod";
     apiclient.SyncBranch := "main";
     apiclient.DrySha := "abc123";
     apiclient.CommitMessage := "hydrate abc123";
     apiclient.Paths := paths |}.

Definition entry (path : string) (cmds : list string) : apiclient.PathDetails :=
  {| apiclient.Path := path; apiclient.Manifests := ["kind: ConfigMap"];
     apiclient.Commands := cmds |}.

(** Scenario A of the specification: one entry at the root. *)
Definition requestA : apiclient.ManifestsRequest :=
  sampleRequest [entry "." ["kustomize build"]].

(** Scenario B: two entries in two directories. *)
Definition requestB : apiclient.ManifestsRequest :=
  sampleRequest [entry "apps/foo" ["helm template foo"];
                 entry "apps/bar" ["helm template bar"]].

(** An entry whose path climbs out of the workspace. *)
Definition requestTraversal : apiclient.ManifestsRequest :=
  sampleRequest [entry "../../etc" ["kustomize build"]].

Definition requestEmpty : apiclient.ManifestsRequest := sampleRequest [].

(** The branch synchronizer aborts at its first failing step: a call that
    was made and failed is the last call, and its error is returned wrapped
    with the context of its step; so is a failure to resolve the author
    after the fetch; and when no step fails the six calls are made in
    order. *)
Definition syncProps (env : Env) (r : apiclient.ManifestsRequest)
    (err : option error) (calls : list GitCall) : Prop :=
  (forall c ctx e, In (c, ctx) (syncContexts env r) -> In c calls ->
     (git env c).2 = Some e -> err = Some (errorWrap ctx e) /\ last calls = Some c) /\
  (forall e, In (Fetch "") calls -> (git env (Fetch "")).2 = None ->
     (GetUserInfo env).2 = Some e ->
     err = Some (errorWrap "failed to get github app info" e) /\
     last calls = Some (Fetch "")) /\
  (In Init calls -> Forall (fun c => (git env c).2 = None) (syncCalls env r) ->
     (GetUserInfo env).2 = None -> take 6 calls = syncCalls env r).

(** The paths a round of the loop may touch for an entry at the workspace
    root: the root and the three files directly in it. *)
Definition rootPaths (root : string) : list string :=
  [root; Path.Join [root; manifestFileName]; Path.Join [root; metadataFileName];
   Path.Join [root; readmeFileName]].

(** A step in a workspace that exists touches nothing but the root paths
    and changes no directory. *)
Definition rootOnly (root : string) (w w' : World) : Prop :=
  Forall (fun q => fs w !! q = Some Dir) (Path.lineage root) ->
  (exists evs, trace w' = trace w ++ evs /\
               Forall (fun e => forall q, touched e = Some q -> In q (rootPaths root)) evs) /\
  (forall k, fs w' !! k = Some Dir <-> fs w !! k = Some Dir).

(** The entry at [k] in the last commit the remote received. *)
Definition pushed (w : World) (k : string) : option Node :=
  match last (remote w) with
  | Some p => pushTree p !! k
  | None => None
  end.

(** An environment in which the removal of the workspace fails. *)
Definition stuckEnv : Env :=
  withRemoveAllFault (fun _ => Some (errorNew "device or resource busy")) okEnv.

(** An environment in which the fetch fails. *)
Definition offlineEnv : Env :=
  withGitError (Fetch "") (errorNew "could not resolve host") okEnv.

(** An environment in which the remote rejects the push. *)
Definition divergedEnv : Env :=
  withGitError (CommitAndPush "env/prod" "hydrate abc123")
    (errorNew "non-fast-forward") okEnv.

(** ** Clean paths, and the calls the branch synchronizer makes *)

(** [p] is [root] followed by plain components, none of them empty, [.]
    or [..]: [root] itself or a path below it that climbs nowhere. *)
Definition below (root p : string) : Prop :=
  exists cs, Forall good cs /\ p = root +:+ render cs.

(** An event that touches nothing but [root] and clean paths below it. *)
Definition tidyEvent (root : string) (e : Event) : Prop :=
  forall p, touched e = Some p -> below root p.

(** A step that adds such events only. *)
Definition tidy (root : string) (w w' : World) : Prop :=
  exists evs, trace w' = trace w ++ evs /\ Forall (tidyEvent root) evs.

(** The calls made when the given calls are made in order up to the first
    that fails. *)
Fixpoint driven (env : Env) (cs : list GitCall) : list GitCall :=
  match cs with
  | [] => []
  | c :: cs' =>
      c :: match (git env c).2 with
           | None => driven env cs'
           | Some _ => []
           end
  end.

(** The calls the branch synchronizer makes on a client that was created,
    as the environment fixes them: [Init]; after it succeeded the fetch;
    after that succeeded and the author was resolved, [SetAuthor], the two
    checkouts and [RemoveContents], each after the one before succeeded. *)
Definition syncDriven (env : Env) (r : apiclient.ManifestsRequest) : list GitCall :=
  Init ::
  match (git env Init).2 with
  | Some _ => []
  | None =>
      Fetch "" ::
      match (git env (Fetch "")).2, (GetUserInfo env).2 with
      | None, None =>
          driven env
            [ SetAuthor (GetUserInfo env).1.1 (GetUserInfo env).1.2;
              CheckoutOrOrphan (apiclient.SyncBranch r) false;
              CheckoutOrNew (apiclient.TargetBranch r) (apiclient.SyncBranch r) false;
              RemoveContents ]
      | _, _ => []
      end
  end.

(** No step of the branch synchronizer fails. *)
Definition syncOk (env : Env) (r : apiclient.ManifestsRequest) : Prop :=
  Forall (fun c => (git env c).2 = None) (syncCalls env r) /\ (GetUserInfo env).2 = None.

(** The names of the three files of a hydrated directory. *)
Definition roundNames : list string :=
  [manifestFileName; metadataFileName; readmeFileName].

(** Two entries for one directory. *)
Definition requestDup : apiclient.ManifestsRequest :=
  sampleRequest [entry "a" ["first"]; entry "a" ["second"]].

(** An environment in which the workspace itself cannot be made, the
    directories on the way to it can. *)
Definition readOnlyEnv : Env :=
  {| NewRandom := NewRandom okEnv;
     fault := fun op p =>
       match op with
       | OpMkdir =>
           if decide (p = sampleRoot) then Some (errorNew "read-only file system")
           else None
       | _ => None
       end;
     NewClientExt := NewClientExt okEnv;
     GetUserInfo := GetUserInfo okEnv;
     git := git okEnv |}.

(** ** Vocabulary of the further properties *)

(** An identifier as [uuid.NewRandom] returns it: sixteen bytes. *)
Definition wellFormed (u : uuid.UUID) : Prop :=
  length u = 16 /\ Forall (fun b => (b < 256)%N) u.

(** The directories [os.MkdirAll] is called on, in order. *)
Definition mkdirCalls (evs : list Event) : list string :=
  omap (fun e => match e with EvMkdirAll p => Some p | _ => None end) evs.

(** The buffer of the walk of [SecureJoin] after the components [cs]. *)
Definition trail (cs : list string) : string :=
  String.concat "" (map (fun c => c +:+ "/") cs).

(** A step in a workspace that exists keeps the directories on the way to
    the workspace root and leaves the file system outside the root as it
    is. *)
Definition sealed (root : string) (w w' : World) : Prop :=
  Forall (fun q => fs w !! q = Some Dir) (Path.lineage root) ->
  Forall (fun q => fs w' !! q = Some Dir) (Path.lineage root) /\
  (forall k, ~ Path.under root k -> fs w' !! k = fs w !! k).

(** The contexts the rounds of the hydration loop wrap their errors with,
    and those of [Commit] as a whole. *)
Definition hydrateContexts : list string :=
  [ "failed to construct hydrate path"; "failed to create path";
    "failed to write manifests"; "failed to write hydrator metadata";
    "failed to write readme" ].

Definition commitContexts : list string :=
  [ "failed to create temp dir"; "failed to create git client";
    "failed to init git client"; "failed to clone repo";
    "failed to get github app info"; "failed to set author";
    "failed to checkout sync branch"; "failed to checkout target branch";
    "failed to clear repo"; "failed to write top-level hydrator metadata" ] ++
  hydrateContexts ++ [ "failed to commit and push" ].

(** The message of the log line of a failure, from the context its error
    is wrapped with: the same text, but for the initialisation of the
    client. *)
Definition logMessage (ctx : string) : string :=
  if decide (ctx = "failed to init git client") then "failed to initialize git client"
  else ctx.

(** An event that is no error log line, or is the one of the deferred
    function. *)
Definition quiet (e : Event) : Prop :=
  match e with
  | EvLog ErrorLevel msg _ _ => msg = "failed to clean up temp dir"
  | _ => True
  end.

(** [env] with the given failures of the [Mkdir] calls of [os.MkdirAll]. *)
Definition withMkdirAllFault (f : string -> option error) (env : Env) : Env :=
  {| NewRandom := NewRandom env;
     fault := fun op p => match op with OpMkdir => f p | _ => fault env op p end;
     NewClientExt := NewClientExt env;
     GetUserInfo := GetUserInfo env;
     git := git env |}.

(** [env] in which the client cannot be created. *)
Definition withClientError (e : error) (env : Env) : Env :=
  {| NewRandom := NewRandom env;
     fault := fault env;
     NewClientExt := fun _ _ _ _ _ => Some e;
     GetUserInfo := GetUserInfo env;
     git := git env |}.

(** The files a round of the loop writes for an entry, in order. *)
Definition roundWrites (env : Env) (r : apiclient.ManifestsRequest) (root : string)
    (p : apiclient.PathDetails) : list (string * FileContent) :=
  let full := resolve env root p in
  [ (Path.Join [full; manifestFileName], ManifestYAML (apiclient.Manifests p));
    (Path.Join [full; metadataFileName], MetadataJSON (metadataOf r p));
    (Path.Join [full; readmeFileName], readmeOf r p) ].

(** [env] in which no file can be written below the directory [apps] of
    the sample workspace. *)
Definition withWriteFault (env : Env) : Env :=
  {| NewRandom := NewRandom env;
     fault := fun op p =>
       match op with
       | OpWriteFile =>
           if String.prefix (sampleRoot +:+ "/apps") p
           then Some (errorNew "no space left on device") else fault env op p
       | _ => fault env op p
       end;
     NewClientExt := NewClientExt env;
     GetUserInfo := GetUserInfo env;
     git := git env |}.

(** What the trace holds for an error wrapped with [ctx]: the log line of
    the error, but for a failed fetch, which is not logged. *)
Definition logged (ctx : string) (e0 : error) (evs : list Event) : Prop :=
  (ctx <> "failed to clone repo" ->
   exists out, In (EvLog ErrorLevel (logMessage ctx) (Some e0) out) evs) /\
  (ctx = "failed to clone repo" -> Forall quiet evs).

(** The error [Commit] returns against its trace: an error is a wrapped
    error whose context is one of those of [Commit], logged as above; with
    no error the trace holds no error log line but the one of the deferred
    function. *)
Definition outcome (err : option error) (evs : list Event) : Prop :=
  match err with
  | Some e => exists ctx e0, e = errorWrap ctx e0 /\ In ctx commitContexts /\ logged ctx e0 evs
  | None => Forall quiet evs
  end.

(** * Lemmas *)

(** ** Strings and paths *)

Module Str.

Lemma app_cons (x : ascii) (a b : string) : String x a +:+ b = String x (a +:+ b).
Proof. reflexivity. Qed.

Lemma app_nil_l (a : string) : "" +:+ a = a.
Proof. reflexivity. Qed.

Lemma app_assoc (a b c : string) : (a +:+ b) +:+ c = a +:+ (b +:+ c).
Proof.
  induction a as [|x a IH]; [reflexivity|].
  rewrite !app_cons. f_equal. exact IH.
Qed.

Lemma app_nil_r (a : string) : a +:+ "" = a.
Proof.
  induction a as [|x a IH]; [reflexivity|].
  rewrite app_cons. f_equal. exact IH.
Qed.

Lemma prefix_app (a b : string) : String.prefix a (a +:+ b) = true.
Proof.
  induction a as [|x a IH].
  - now destruct b.
  - rewrite app_cons. cbn. destruct (ascii_dec x x); [exact IH | congruence].
Qed.

Ltac norm := rewrite ?app_cons, ?app_nil_l.

End Str.

Module PathLemmas.
Import Path.

Lemma noSlash_app a b : noSlash a -> noSlash b -> noSlash (a +:+ b).
Proof. induction a; Str.norm; cbn; intuition. Qed.

Lemma split2_noSlash c s :
  noSlash c -> split2 (c +:+ s) = (c +:+ (split2 s).1, (split2 s).2).
Proof.
  induction c as [|x c IH]; Str.norm; intros H.
  - now destruct (split2 s).
  - destruct H as [Hx Hc]. cbn [split2]. rewrite (IH Hc).
    destruct (decide (x = sep)); [contradiction | reflexivity].
Qed.

Lemma split2_slash s : split2 ("/" +:+ s) = ("", (split2 s).1 :: (split2 s).2).
Proof. Str.norm. cbn [split2]. now destruct (split2 s). Qed.

Lemma split2_render cs s :
  Forall noSlash cs -> (split2 s).1 = "" ->
  split2 (render cs +:+ s) = ("", cs ++ (split2 s).2).
Proof.
  induction 1 as [|c cs Hc Hcs IH]; intros Hs; cbn [render].
  - Str.norm. destruct (split2 s); cbn in *; now subst.
  - rewrite !Str.app_assoc, split2_slash, (split2_noSlash _ _ Hc), (IH Hs).
    cbn. now rewrite Str.app_nil_r.
Qed.

Lemma split_noSlash s : Forall noSlash (split s).
Proof.
  unfold split. induction s as [|x s IH]; cbn.
  - repeat constructor.
  - destruct (split2 s) as [h t]. inversion IH; subst.
    destruct (decide (x = sep)).
    + repeat constructor; assumption.
    + constructor; [cbn; auto | assumption].
Qed.

Lemma split_concat cs :
  Forall noSlash cs -> cs <> [] -> split (String.concat "/" cs) = cs.
Proof.
  induction 1 as [|c cs Hc Hcs IH]; [congruence | intros _].
  unfold split in *. destruct cs as [|c' cs'].
  - cbn [String.concat]. rewrite <- (Str.app_nil_r c) at 1.
    rewrite (split2_noSlash _ _ Hc). cbn. now rewrite Str.app_nil_r.
  - change (String.concat "/" (c :: c' :: cs'))
      with (c +:+ "/" +:+ String.concat "/" (c' :: cs')).
    rewrite (split2_noSlash _ _ Hc), split2_slash.
    cbn [fst snd]. rewrite Str.app_nil_r.
    specialize (IH ltac:(congruence)).
    destruct (split2 (String.concat "/" (c' :: cs'))). cbn [fst snd]. congruence.
Qed.

Lemma cleanStack_good b cs st rest :
  Forall good cs -> cleanStack b st (cs ++ rest) = cleanStack b (rev cs ++ st) rest.
Proof.
  intros H. revert st. induction H as [|c cs [H1 [H2 [H3 H4]]] Hcs IH]; intros st; [reflexivity|].
  cbn [app cleanStack].
  destruct (decide (c = "")); [contradiction|].
  destruct (decide (c = ".")); [contradiction|].
  destruct (decide (c = "..")); [contradiction|].
  rewrite IH. cbn [rev]. now rewrite <- List.app_assoc.
Qed.

Lemma cleanStack_rooted_good cs st :
  Forall noSlash cs -> Forall good st -> Forall good (cleanStack true st cs).
Proof.
  intros H. revert st. induction H as [|c cs Hc Hcs IH]; intros st Hst; [exact Hst|].
  cbn [cleanStack].
  destruct (decide (c = "")); [auto|].
  destruct (decide (c = ".")); [auto|].
  destruct (decide (c = "..")).
  - destruct st as [|top rest]; [auto|].
    inversion Hst as [|? ? Ht Hr]; subst.
    destruct (decide (top = "..")); [destruct Ht as (_ & _ & ? & _); contradiction|].
    auto.
  - apply IH. constructor; [repeat split; assumption | assumption].
Qed.

Lemma concat_render cs : cs <> [] -> Forall noSlash cs -> "/" +:+ String.concat "/" cs = render cs.
Proof.
  induction cs as [|c cs IH]; [congruence | intros _ H].
  destruct cs as [|c' cs'].
  - cbn. now rewrite Str.app_nil_r.
  - change (String.concat "/" (c :: c' :: cs'))
      with (c +:+ "/" +:+ String.concat "/" (c' :: cs')).
    cbn [render]. inversion H; subst.
    change (render (c' :: cs')) with ("/" +:+ c' +:+ render cs') in IH.
    rewrite <- IH by (congruence || assumption). reflexivity.
Qed.

Lemma render_app a b : render (a ++ b) = render a +:+ render b.
Proof. induction a as [|c a IH]; cbn [render app]; [reflexivity|]. now rewrite IH, !Str.app_assoc. Qed.

Lemma good_noSlash cs : Forall good cs -> Forall noSlash cs.
Proof. intros H. eapply List.Forall_impl; [|exact H]. intros c Hc. apply Hc. Qed.

Lemma render_inj a b : Forall noSlash a -> Forall noSlash b -> render a = render b -> a = b.
Proof.
  intros Ha Hb E.
  pose proof (split2_render a "" Ha eq_refl) as Ea.
  pose proof (split2_render b "" Hb eq_refl) as Eb.
  rewrite Str.app_nil_r in Ea, Eb. rewrite E in Ea. rewrite Ea in Eb.
  cbn in Eb. rewrite !List.app_nil_r in Eb. congruence.
Qed.

Lemma isRooted_render c cs s : isRooted (render (c :: cs) +:+ s) = true.
Proof. reflexivity. Qed.

(** Cleaning a clean rooted path followed by a clean rooted path. *)
Lemma Clean_render_app rc cs :
  rc <> [] -> Forall good rc -> Forall good cs ->
  Clean (render rc +:+ ("/" +:+ String.concat "/" cs)) = render (rc ++ cs).
Proof.
  intros Hne Hrc Hcs. destruct rc as [|c0 rc]; [congruence|].
  unfold Clean. destruct (decide _) as [E|_]; [discriminate E|].
  rewrite isRooted_render. unfold split.
  rewrite split2_render
    by first [ now apply good_noSlash | now rewrite split2_slash ].
  destruct cs as [|c cs'].
  - cbn [String.concat]. change (split2 ("/" +:+ "")) with ("", [""]). cbn [snd].
    cbn [cleanStack]. destruct (decide ("" = "")); [|congruence].
    rewrite cleanStack_good by assumption.
    cbn [cleanStack]. destruct (decide ("" = "")); [|congruence].
    rewrite List.app_nil_r, rev_involutive, List.app_nil_r.
    apply concat_render; [congruence | auto using good_noSlash].
  - rewrite split2_slash. cbn [snd].
    pose proof (split_concat (c :: cs') (good_noSlash _ Hcs) ltac:(congruence)) as E.
    unfold split in E. destruct (split2 (String.concat "/" (c :: cs'))) as [h t].
    cbn [fst snd]. rewrite E.
    cbn [cleanStack]. destruct (decide ("" = "")); [|congruence].
    rewrite <- (List.app_nil_r (c :: cs')), List.app_assoc.
    rewrite cleanStack_good by (apply Forall_app; auto).
    cbn [cleanStack]. rewrite List.app_nil_r, rev_involutive.
    rewrite List.app_nil_r.
    apply concat_render; [destruct rc; discriminate | apply good_noSlash, Forall_app; auto].
Qed.

(** Cleaning a rooted path gives the root or a clean rooted path. *)
Lemma Clean_rooted x :
  exists cs, Forall good cs /\ Clean ("/" +:+ x) = "/" +:+ String.concat "/" cs.
Proof.
  unfold Clean. destruct (decide _) as [E|_]; [discriminate E|].
  change (isRooted ("/" +:+ x)) with true. cbv iota.
  eexists; split; [|reflexivity].
  apply Forall_rev, cleanStack_rooted_good; [apply split_noSlash | constructor].
Qed.

Lemma SecureJoin_render lstat rc u full :
  rc <> [] -> Forall good rc ->
  SecureJoin lstat (render rc) u = inr full ->
  exists cs, Forall good cs /\ full = render (rc ++ cs).
Proof.
  intros Hne Hrc. unfold SecureJoin.
  destruct (walk _ _ _ _) as [e|buf]; [discriminate|]. intros [= <-].
  destruct (Clean_rooted buf) as (cs & Hcs & ->).
  exists cs. split; [assumption|]. now apply Clean_render_app.
Qed.

Lemma SecureJoin_empty lstat rc :
  rc <> [] -> Forall good rc -> SecureJoin lstat (render rc) "" = inr (render rc).
Proof.
  intros Hne Hrc. unfold SecureJoin. cbn [components walk].
  change (Clean ("/" +:+ "")) with ("/" +:+ String.concat "/" []).
  rewrite Clean_render_app by (assumption || constructor).
  now rewrite List.app_nil_r.
Qed.

Lemma render_nonempty c cs : render (c :: cs) <> "".
Proof. discriminate. Qed.

Lemma Join_render rc name :
  rc <> [] -> Forall good rc -> good name ->
  Join [render rc; name] = render (rc ++ [name]).
Proof.
  intros Hne Hrc Hn. destruct rc as [|c0 rc]; [congruence|].
  unfold Join. destruct (decide _) as [E|_]; [discriminate E|].
  cbn [joinBuf]. destruct (decide ("" = "")); [|congruence].
  destruct (decide (render (c0 :: rc) = "")) as [E|_]; [discriminate E|].
  destruct (decide (render (c0 :: rc) = "")) as [E|_]; [discriminate E|].
  change name with (String.concat "/" [name]) at 1.
  apply Clean_render_app; [congruence | assumption | now constructor].
Qed.

Lemma under_render rc cs : under (render rc) (render (rc ++ cs)).
Proof.
  rewrite render_app. destruct cs as [|c cs].
  - left. cbn. apply Str.app_nil_r.
  - right. cbn [render]. rewrite <- (Str.app_assoc (render rc) "/").
    apply Str.prefix_app.
Qed.

End PathLemmas.

Module UuidLemmas.

Lemma hexdigit_plain n : uuid.hexdigit n <> Path.sep /\ uuid.hexdigit n <> "."%char.
Proof.
  unfold uuid.hexdigit. generalize (N.to_nat (n mod 16)). intros k.
  do 17 (destruct k as [|k]; [cbn; split; discriminate|]).
  cbn. split; discriminate.
Qed.

Lemma encodeHex_plain bs : noSlash (uuid.encodeHex bs) /\ noDot (uuid.encodeHex bs).
Proof.
  induction bs as [|b bs [IH1 IH2]]; cbn; [tauto|].
  pose proof (hexdigit_plain (b / 16)). pose proof (hexdigit_plain b). tauto.
Qed.

Lemma noDot_app a b : noDot a -> noDot b -> noDot (a +:+ b).
Proof. induction a; Str.norm; cbn; intuition. Qed.

Lemma app_dash_nonempty a b : a +:+ "-" +:+ b <> "".
Proof. destruct a; discriminate. Qed.

Lemma noDot_good s : s <> "" -> noDot s -> noSlash s -> good s.
Proof.
  intros H1 H2 H3. repeat split; try assumption.
  - intros ->. cbn in H2. tauto.
  - intros ->. cbn in H2. tauto.
Qed.

Lemma String_good u : good (uuid.String u).
Proof.
  unfold uuid.String. apply noDot_good.
  - apply app_dash_nonempty.
  - repeat (apply noDot_app; [apply encodeHex_plain|];
            apply (noDot_app "-"); [cbn; split; [discriminate|exact I]|]).
    apply encodeHex_plain.
  - repeat (apply PathLemmas.noSlash_app; [apply encodeHex_plain|];
            apply (PathLemmas.noSlash_app "-"); [cbn; split; [discriminate|exact I]|]).
    apply encodeHex_plain.
Qed.

End UuidLemmas.

Module WorkspaceLemmas.
Import PathLemmas.

Ltac good_literal :=
  repeat split; try discriminate; cbn; repeat split; discriminate.

Lemma good_tmp : good "tmp". Proof. good_literal. Qed.
Lemma good_service : good "_commit-service". Proof. good_literal. Qed.
Lemma good_metadata : good metadataFileName. Proof. good_literal. Qed.
Lemma good_readme : good readmeFileName. Proof. good_literal. Qed.
Lemma good_manifest : good manifestFileName. Proof. good_literal. Qed.

Lemma rootComponents_good u : Forall good (rootComponents u).
Proof.
  repeat constructor; auto using good_tmp, good_service, UuidLemmas.String_good; apply UuidLemmas.String_good.
Qed.

Lemma workspace_render u : workspace u = render (rootComponents u).
Proof.
  unfold workspace. change tempRoot with (render ["tmp"; "_commit-service"]).
  apply (Join_render ["tmp"; "_commit-service"]); [discriminate | | apply UuidLemmas.String_good].
  repeat constructor; auto using good_tmp, good_service; apply good_service.
Qed.

End WorkspaceLemmas.

(** ** Worlds, the file system and the runs of [Commit] *)

Ltac red_world :=
  cbn [bind ret fail lift ifErr logDebug logError logErrorOut logEntry
       gitCall git_NewClientExt gitCreds_GetUserInfo
       setFs setRemote setPending addEvents trace fs remote pending fst snd
       newHydratorHelper dirPath runSteps syncSteps stepEvents stepError stepLog
       stepContext app] in *.

Module WorldLemmas.

Lemma emit_addEvents e evs w : emit e (addEvents evs w) = addEvents (evs ++ [e]) w.
Proof. unfold emit, addEvents. cbn. now rewrite List.app_assoc. Qed.

Lemma emit_world e w : emit e w = addEvents [e] w.
Proof. reflexivity. Qed.

Lemma addEvents_addEvents a b w : addEvents b (addEvents a w) = addEvents (a ++ b) w.
Proof. unfold addEvents. cbn. now rewrite List.app_assoc. Qed.

Lemma events_addEvents evs w : events w (addEvents evs w) = evs.
Proof. unfold events. cbn. apply drop_app_length. Qed.

Lemma events_app w w' evs : trace w' = trace w ++ evs -> events w w' = evs.
Proof. unfold events. intros ->. apply drop_app_length. Qed.

End WorldLemmas.

Module SyncLemmas.
Import WorldLemmas.

Ltac norm_world := rewrite ?emit_world, ?addEvents_addEvents; cbn [app].

(** The branch synchronizer runs its table. *)
Lemma branchSync_run env r root w :
  branchSync env r root w =
    (match (runSteps (syncSteps env r root)).2 with
     | Some e => inl e
     | None => inr tt
     end,
     addEvents (runSteps (syncSteps env r root)).1 w).
Proof.
  unfold branchSync. red_world.
  destruct (NewClientExt env _ _ _ _ _) as [e|] eqn:E0; red_world; [norm_world; reflexivity|].
  destruct (git env Init) as [o1 [e|]] eqn:E1; red_world; [norm_world; reflexivity|].
  destruct (git env (Fetch "")) as [o2 [e|]] eqn:E2; red_world; [norm_world; reflexivity|].
  destruct (GetUserInfo env) as [[name email] [e|]] eqn:E3; red_world; [norm_world; reflexivity|].
  destruct (git env (SetAuthor name email)) as [o4 [e|]] eqn:E4; red_world; [norm_world; reflexivity|].
  destruct (git env (CheckoutOrOrphan _ _)) as [o5 [e|]] eqn:E5; red_world; [norm_world; reflexivity|].
  destruct (git env (CheckoutOrNew _ _ _)) as [o6 [e|]] eqn:E6; red_world; [norm_world; reflexivity|].
  destruct (git env RemoveContents) as [o7 [e|]] eqn:E7; red_world; norm_world; reflexivity.
Qed.

End SyncLemmas.

Module FsLemmas.

Lemma frame_refl m k : frame m m k.
Proof. now left. Qed.

Lemma frame_trans m1 m2 m3 k : frame m1 m2 k -> frame m2 m3 k -> frame m1 m3 k.
Proof.
  unfold frame. intros [E1|[N1 D1]] [E2|[N2 D2]].
  - left. congruence.
  - right. split; congruence.
  - right. split; congruence.
  - congruence.
Qed.

Lemma frame_dir m m' k : frame m m' k -> m !! k = Some Dir -> m' !! k = Some Dir.
Proof. intros [E|[N _]] H; congruence. Qed.

Lemma frame_file m m' k c : frame m m' k -> m !! k = Some (File c) -> m' !! k = Some (File c).
Proof. intros [E|[N _]] H; congruence. Qed.

Lemma frame_insert_dir (m : gmap string Node) q k :
  (forall c, m !! q <> Some (File c)) -> frame m (<[q:=Dir]> m) k.
Proof.
  intros H. unfold frame. destruct (decide (q = k)) as [->|Hne].
  - rewrite lookup_insert_eq. destruct (m !! k) as [[|c]|] eqn:E.
    + now left.
    + now destruct (H c).
    + now right.
  - left. now rewrite lookup_insert_ne.
Qed.

Lemma mkdirs_frame l : forall (m m' : gmap string Node) k,
  mkdirs l m = Some m' -> frame m m' k.
Proof.
  induction l as [|q l IH]; intros m m' k; cbn [mkdirs].
  - intros [= ->]. apply frame_refl.
  - destruct (m !! q) as [[|c]|] eqn:E; try discriminate; intros H;
      (apply (frame_trans _ (<[q:=Dir]> m)); [apply frame_insert_dir; intros ?; congruence | eapply IH, H]).
Qed.

Lemma mkdirs_dirs l : forall (m m' : gmap string Node),
  mkdirs l m = Some m' -> Forall (fun q => m' !! q = Some Dir) l.
Proof.
  induction l as [|q l IH]; intros m m'; cbn [mkdirs]; [constructor|].
  intros H. assert (mkdirs l (<[q:=Dir]> m) = Some m') as H'
    by (destruct (m !! q) as [[|c]|]; try discriminate; exact H).
  constructor; [|eapply IH, H'].
  eapply frame_dir; [eapply mkdirs_frame, H' | apply lookup_insert_eq].
Qed.

Lemma mkdirs_id l : forall (m : gmap string Node),
  Forall (fun q => m !! q = Some Dir) l -> mkdirs l m = Some m.
Proof.
  induction l as [|q l IH]; intros m H; cbn [mkdirs]; [reflexivity|].
  inversion H as [|? ? Hq Hl]; subst. rewrite Hq.
  rewrite insert_id by exact Hq. now apply IH.
Qed.

(** A walk that succeeds leaves what the walk without failures leaves. *)
Lemma mkdirsRun_ok f l : forall (m m' : gmap string Node),
  mkdirsRun f l m = (None, m') -> mkdirs l m = Some m'.
Proof.
  induction l as [|q l IH]; intros m m' H; cbn [mkdirsRun mkdirs] in *; [congruence|].
  destruct (m !! q) as [[|c]|] eqn:Hq.
  - rewrite insert_id by exact Hq. now apply IH.
  - discriminate H.
  - destruct (f q); [discriminate H | now apply IH].
Qed.

Lemma mkdirsRun_id f l : forall (m : gmap string Node),
  Forall (fun q => m !! q = Some Dir) l -> mkdirsRun f l m = (None, m).
Proof.
  induction l as [|q l IH]; intros m H; cbn [mkdirsRun]; [reflexivity|].
  inversion H as [|? ? Hq Hl]; subst. rewrite Hq. now apply IH.
Qed.

Lemma mkdirsRun_skip f l1 l2 (m : gmap string Node) :
  Forall (fun q => m !! q = Some Dir) l1 -> mkdirsRun f (l1 ++ l2) m = mkdirsRun f l2 m.
Proof.
  induction 1 as [|q l1 Hq _ IH]; [reflexivity|].
  cbn [app mkdirsRun]. now rewrite Hq.
Qed.

(** Whether it fails or not, a walk at most creates directories. *)
Lemma mkdirsRun_frame f l : forall (m : gmap string Node) k,
  frame m (mkdirsRun f l m).2 k.
Proof.
  induction l as [|q l IH]; intros m k; cbn [mkdirsRun]; [apply frame_refl|].
  destruct (m !! q) as [[|c]|] eqn:Hq; [apply IH | apply frame_refl |].
  destruct (f q); [apply frame_refl|].
  apply (frame_trans _ (<[q:=Dir]> m)); [|apply IH].
  apply frame_insert_dir. intros c. rewrite Hq. discriminate.
Qed.

Lemma mkdirsRun_only f l : forall (m : gmap string Node) k,
  ~ In k l -> (mkdirsRun f l m).2 !! k = m !! k.
Proof.
  induction l as [|q l IH]; intros m k Hk; cbn [mkdirsRun]; [reflexivity|].
  assert (Hl : ~ In k l) by (intros N; apply Hk; now right).
  destruct (m !! q) as [[|c]|] eqn:Hq; [now apply IH | reflexivity |].
  destruct (f q); [reflexivity|].
  rewrite IH by exact Hl. apply lookup_insert_ne. intros ->. apply Hk. now left.
Qed.

(** A walk that fails has changed nothing at its last directory or after
    the one it failed at: what it made is among the directories before the
    last. *)
Lemma mkdirsRun_fail f l : forall (m : gmap string Node) e k,
  (mkdirsRun f l m).1 = Some e -> ~ In k (removelast l) -> (mkdirsRun f l m).2 !! k = m !! k.
Proof.
  induction l as [|q l IH]; intros m e k H Hk; [discriminate H|].
  cbn [mkdirsRun] in *.
  assert (HL : forall m0, (mkdirsRun f l m0).1 = Some e ->
                          q <> k /\ ~ In k (removelast l)).
  { intros m0 H0. destruct l as [|q' l']; [discriminate H0|].
    split; [intros ->; apply Hk; now left | intros N; apply Hk; now right]. }
  destruct (m !! q) as [[|c]|] eqn:Hq.
  - apply (IH _ e); [exact H | now apply (HL m)].
  - reflexivity.
  - destruct (f q); [reflexivity|].
    destruct (HL _ H) as [Hne Hl]. rewrite (IH _ e _ H Hl).
    now apply lookup_insert_ne.
Qed.

Lemma mkdirAll_inr env p (m m' : gmap string Node) :
  mkdirAll env p m = inr m' -> mkdirs (Path.lineage p) m = Some m'.
Proof.
  unfold mkdirAll. destruct (mkdirsRun _ _ _) as [[e|] m1] eqn:E; [discriminate|].
  intros [= <-]. eapply mkdirsRun_ok, E.
Qed.

Lemma mkdirAll_inl env p (m : gmap string Node) e :
  mkdirAll env p m = inl e -> (mkdirsRun (fault env OpMkdir) (Path.lineage p) m).1 = Some e.
Proof.
  unfold mkdirAll. destruct (mkdirsRun _ _ _) as [[e'|] m1]; [|discriminate].
  now intros [= <-].
Qed.

(** Where the directories on the way exist, the call makes nothing and
    succeeds. *)
Lemma mkdirAll_id env p (m : gmap string Node) :
  Forall (fun q => m !! q = Some Dir) (Path.lineage p) -> mkdirAll env p m = inr m.
Proof. intros H. unfold mkdirAll. now rewrite mkdirsRun_id. Qed.

Lemma mkdirAllLeft_frame env p (m : gmap string Node) k : frame m (mkdirAllLeft env p m) k.
Proof. apply mkdirsRun_frame. Qed.

(** The file system [os.MkdirAll] leaves, whether it fails or not. *)
Lemma os_MkdirAll_fs env p w : fs (os_MkdirAll env p w).2 = mkdirAllLeft env p (fs w).
Proof.
  unfold os_MkdirAll, mkdirAll, mkdirAllLeft. cbn [emit fs].
  destruct (mkdirsRun _ _ _) as [[e|] m] eqn:E; cbn [snd setFs fs emit];
    [now rewrite E | reflexivity].
Qed.

(** A call that fails has not made its last directory, the path itself. *)
Lemma mkdirAllLeft_fail env p (m : gmap string Node) e k :
  mkdirAll env p m = inl e -> ~ In k (removelast (Path.lineage p)) ->
  mkdirAllLeft env p m !! k = m !! k.
Proof. intros H. apply mkdirAll_inl in H. now apply (mkdirsRun_fail _ _ _ e). Qed.

End FsLemmas.

Module ConfinedLemmas.
Import WorldLemmas FsLemmas PathLemmas.

Lemma confined_refl root w : confined root w w.
Proof.
  repeat split; auto.
  - exists []. split; [now rewrite List.app_nil_r | constructor].
  - intros. apply frame_refl.
Qed.

Lemma confined_trans root a b c : confined root a b -> confined root b c -> confined root a c.
Proof.
  intros (P1 & R1 & (e1 & T1 & F1) & D1 & O1) (P2 & R2 & (e2 & T2 & F2) & D2 & O2).
  repeat split; try congruence; auto.
  - exists (e1 ++ e2). split; [rewrite T2, T1; now rewrite List.app_assoc | now apply Forall_app].
  - intros k Hk. eapply frame_trans; eauto.
Qed.

Lemma confined_emit root e w : loopEvent root e -> confined root w (emit e w).
Proof.
  intros H. repeat split; auto.
  - exists [e]. split; [reflexivity | now constructor].
  - intros. apply frame_refl.
Qed.

Lemma confined_bind root {A B} (m : M A) (k : A -> M B) w :
  confined root w (m w).2 -> (forall a w1, confined root w1 (k a w1).2) ->
  confined root w (bind m k w).2.
Proof.
  intros Hm Hk. unfold bind. destruct (m w) as [[e|a] w1]; [exact Hm|].
  eapply confined_trans; [exact Hm | apply Hk].
Qed.

Lemma confined_lift root {A} (f : World -> A * World) w :
  confined root w (f w).2 -> confined root w (lift f w).2.
Proof. unfold lift. now destruct (f w). Qed.

Lemma confined_log root lvl msg err out w :
  confined root w (logEntry lvl msg err out w).2.
Proof. apply confined_lift. cbn. now apply confined_emit. Qed.

Lemma confined_ifErr root err onErr ctx w :
  (forall e w1, confined root w1 (onErr e w1).2) ->
  confined root w (ifErr err onErr ctx w).2.
Proof.
  intros H. destruct err as [e|]; cbn [ifErr]; [|apply confined_refl].
  apply confined_bind; [apply H | intros; apply confined_refl].
Qed.

Lemma os_MkdirAll_confined env root p w :
  Path.under root p -> confined root w (os_MkdirAll env p w).2.
Proof.
  intros Hp. unfold os_MkdirAll. cbn [fs emit].
  destruct (mkdirAll env p (fs w)) as [e|m] eqn:E; cbn [snd].
  - repeat split; auto.
    + exists [EvMkdirAll p]. split; [reflexivity | now constructor].
    + intros k Hk. cbn. eapply frame_dir; [apply mkdirAllLeft_frame | exact Hk].
    + intros k _. cbn. apply mkdirAllLeft_frame.
  - apply mkdirAll_inr in E. repeat split; auto.
    + exists [EvMkdirAll p]. split; [reflexivity | now constructor].
    + intros k Hk. cbn. eapply frame_dir; [eapply mkdirs_frame, E | exact Hk].
    + intros k _. cbn. eapply mkdirs_frame, E.
Qed.

Lemma os_WriteFile_confined env root dir name c w :
  Path.under root (Path.Join [dir; name]) ->
  confined root w (os_WriteFile env dir name c w).2.
Proof.
  intros Hp. unfold os_WriteFile, writeFile.
  destruct (fault env OpWriteFile _); [now apply confined_emit|].
  cbn [fs emit]. destruct (fs w !! dir) as [[|c']|]; try now apply confined_emit.
  destruct (fs w !! Path.Join [dir; name]) as [[|c']|] eqn:E; try now apply confined_emit.
  all: repeat split; auto;
    [ exists [EvWriteFile (Path.Join [dir; name]) c]; split; [reflexivity | now constructor]
    | intros k Hk; cbn; rewrite lookup_insert_ne; [exact Hk | congruence]
    | intros k Hk; cbn; left; rewrite lookup_insert_ne; [reflexivity | congruence] ].
Qed.

Section Loop.

Variable env : Env.
Variable r : apiclient.ManifestsRequest.
Variable rc : list string.
Hypothesis rc_nonempty : rc <> [].
Hypothesis rc_good : Forall good rc.

Let root := render rc.

Lemma resolved_under dir full :
  Path.SecureJoin (fault env OpLstat) root dir = inr full -> Path.under root full.
Proof.
  intros H. destruct (SecureJoin_render _ _ _ _ rc_nonempty rc_good H) as (cs & _ & ->).
  apply under_render.
Qed.

Lemma file_under dir full name :
  good name ->
  Path.SecureJoin (fault env OpLstat) root dir = inr full ->
  Path.under root (Path.Join [full; name]).
Proof.
  intros Hn H. destruct (SecureJoin_render _ _ _ _ rc_nonempty rc_good H) as (cs & Hcs & ->).
  rewrite Join_render; [| destruct rc; [congruence | discriminate] | now apply Forall_app | exact Hn].
  rewrite <- List.app_assoc. apply under_render.
Qed.

Lemma writeIn_confined dir name c w :
  good name ->
  confined root w (writeIn env (newHydratorHelper root) dir name c w).2.
Proof.
  intros Hn. unfold writeIn. cbn [newHydratorHelper dirPath].
  destruct (Path.SecureJoin _ _ _) as [e|full] eqn:E; [apply confined_refl|].
  apply os_WriteFile_confined. eapply file_under; eauto.
Qed.

Lemma hydrate_confined p w :
  confined root w (hydrate env r (newHydratorHelper root) root p w).2.
Proof.
  unfold hydrate.
  apply confined_bind; [apply confined_log | intros _ w1].
  destruct (Path.SecureJoin _ _ _) as [e|full] eqn:E.
  { apply confined_bind; [apply confined_log | intros; apply confined_refl]. }
  apply confined_bind;
    [apply confined_lift, os_MkdirAll_confined; eapply resolved_under; eauto | intros err1 w2].
  apply confined_bind; [apply confined_ifErr; intros; apply confined_log | intros _ w3].
  apply confined_bind;
    [apply confined_lift, writeIn_confined, WorkspaceLemmas.good_manifest | intros err2 w4].
  apply confined_bind; [apply confined_ifErr; intros; apply confined_log | intros _ w5].
  apply confined_bind; [apply confined_log | intros _ w6].
  apply confined_bind;
    [apply confined_lift, writeIn_confined, WorkspaceLemmas.good_metadata | intros err3 w7].
  apply confined_bind; [apply confined_ifErr; intros; apply confined_log | intros _ w8].
  apply confined_bind; [apply confined_log | intros _ w9].
  apply confined_bind;
    [apply confined_lift, writeIn_confined, WorkspaceLemmas.good_readme | intros err4 w10].
  apply confined_ifErr; intros; apply confined_log.
Qed.

Lemma forPaths_confined ps : forall w,
  confined root w (forPaths (hydrate env r (newHydratorHelper root) root) ps w).2.
Proof.
  induction ps as [|p ps IH]; intros w; cbn [forPaths]; [apply confined_refl|].
  apply confined_bind; [apply hydrate_confined | intros _ w1; apply IH].
Qed.

End Loop.

End ConfinedLemmas.

Module CommitLemmas.
Import WorldLemmas FsLemmas PathLemmas ConfinedLemmas SyncLemmas.

Lemma deferredCleanup_run env root w :
  deferredCleanup env root w =
    setFs (cleaned env root) (addEvents (cleanupEvents env root) w).
Proof.
  unfold deferredCleanup, cleanup, os_RemoveAll, cleaned, removeAll, cleanupEvents, cleanupLog.
  destruct (fault env OpRemoveAll root) as [e|]; destruct w; unfold emit, setFs, addEvents;
    cbn; try rewrite <- List.app_assoc; reflexivity.
Qed.

Lemma commitIn_run env r root w :
  commitIn env r root w =
    match (runSteps (syncSteps env r root)).2 with
    | Some e => (inl e, addEvents (runSteps (syncSteps env r root)).1 w)
    | None => writeAndPush env r root (addEvents (runSteps (syncSteps env r root)).1 w)
    end.
Proof.
  unfold commitIn, bind. rewrite branchSync_run.
  now destruct (runSteps _).2.
Qed.

End CommitLemmas.

Module RunLemmas.
Import WorldLemmas FsLemmas PathLemmas ConfinedLemmas SyncLemmas CommitLemmas WorkspaceLemmas.

Ltac run_m :=
  cbv beta iota zeta delta
    [bind lift ret fail ifErr logDebug logError logErrorOut logEntry].

Ltac proj_world :=
  cbn [trace fs remote pending emit addEvents setFs setRemote setPending fst snd].

Lemma rootWrite_resolves env u :
  Path.SecureJoin (fault env OpLstat) (workspace u) "" = inr (workspace u).
Proof.
  rewrite workspace_render.
  apply SecureJoin_empty; [discriminate | apply rootComponents_good].
Qed.

Lemma commitIn_inner env r u w res w' :
  commitIn env r (workspace u) w = (res, w') ->
  exists evs,
    InnerRun env r (workspace u) (fs w) (remote w) (toErr res) evs (fs w') (remote w') /\
    trace w' = trace w ++ evs /\ pending w' = pending w.
Proof.
  rewrite commitIn_run.
  destruct (runSteps (syncSteps env r (workspace u))).2 as [e|] eqn:ES.
  { intros [= <- <-]. eexists. split; [now apply InnerSyncFail | now proj_world]. }
  unfold writeAndPush, WriteMetadata, writeIn.
  cbn [newHydratorHelper dirPath].
  rewrite rootWrite_resolves. unfold os_WriteFile.
  fold (rootMetadata r). fold (rootMetadataPath (workspace u)).
  run_m. proj_world.
  destruct (writeFile env (workspace u) metadataFileName _ (fs w)) as [e|m1] eqn:EW.
  { intros [= <- <-].
    eexists. split; [now apply InnerRootFail|].
    proj_world. split; [|reflexivity].
    unfold rootWrite, dbg, errLog. rewrite <- !List.app_assoc. reflexivity. }
  match goal with
  | |- context [forPaths ?b ?ps ?w0] =>
      destruct (forPaths b ps w0) as [[e|[]] wl] eqn:EL;
      pose proof (forPaths_confined env r (rootComponents u) ltac:(discriminate)
                    (rootComponents_good u) ps w0) as HC
  end;
    rewrite <- workspace_render, EL in HC;
    destruct HC as (HP & HR & (levs & HT & HF) & HD & HO);
    revert HP HR HT; proj_world; intros HP HR HT.
  { intros [= <- <-]. exists ((runSteps (syncSteps env r (workspace u))).1 ++ rootWrite r (workspace u) ++ levs).
    split; [|split; [|exact HP]].
    - rewrite HR. eapply InnerLoopFail; eauto.
      refine (ex_intro _ _ (ex_intro _ wl (conj _ (conj EL (conj HT eq_refl))))).
      reflexivity.
    - rewrite HT. unfold rootWrite, dbg. rewrite <- !List.app_assoc. reflexivity. }
  unfold gitCall. fold (pushCall r).
  destruct (git env (pushCall r)) as [out [e|]] eqn:EG; unfold pushCall at 1.
  - intros [= <- <-].
    eexists. split; [|split; [|exact HP]].
    + proj_world. rewrite HR. eapply InnerPushFail; eauto.
      refine (ex_intro _ _ (ex_intro _ wl (conj _ (conj EL (conj HT eq_refl))))).
      reflexivity.
    + proj_world. rewrite HT. unfold rootWrite, dbg, errLogOut.
      rewrite <- !List.app_assoc. reflexivity.
  - intros [= <- <-].
    eexists. split; [|split; [|exact HP]].
    + proj_world. rewrite HR. eapply InnerOk; eauto.
      refine (ex_intro _ _ (ex_intro _ wl (conj _ (conj EL (conj HT eq_refl))))).
      reflexivity.
    + proj_world. rewrite HT. unfold rootWrite, dbg.
      rewrite <- !List.app_assoc. reflexivity.
Qed.

Lemma commitBody_run env r w err w' :
  commitBody env r w = (err, w') ->
  exists evs,
    BodyRun env r (fs w) (remote w) err evs (fs w') (remote w') /\
    trace w' = trace w ++ evs /\ pending w' = pending w.
Proof.
  unfold commitBody, makeSecureTempDir.
  destruct (NewRandom env) as [e|u] eqn:EU.
  { run_m. intros [= <- <-]. eexists. split; [apply RunNoUuid; exact EU | split; reflexivity]. }
  fold (workspace u). unfold os_MkdirAll. run_m. proj_world.
  destruct (mkdirAll env (workspace u) (fs w)) as [e|m1] eqn:EM.
  { intros [= <- <-]. eexists. split; [apply RunNoDir; [exact EU | exact EM]|].
    proj_world. rewrite <- List.app_assoc. split; reflexivity. }
  match goal with
  | |- context [commitIn env r (workspace u) ?w0] =>
      destruct (commitIn env r (workspace u) w0) as [res w2] eqn:EC
  end.
  apply commitIn_inner in EC. destruct EC as (evs & HI & HT & HP).
  revert HI HT HP. proj_world. intros HI HT HP.
  rewrite deferredCleanup_run.
  assert ((match res with
           | inl err0 => (Some err0, setFs (cleaned env (workspace u))
                                       (addEvents (cleanupEvents env (workspace u)) w2))
           | inr _ => (None, setFs (cleaned env (workspace u))
                               (addEvents (cleanupEvents env (workspace u)) w2))
           end) = (toErr res, setFs (cleaned env (workspace u))
                                (addEvents (cleanupEvents env (workspace u)) w2))) as ->
    by now destruct res.
  intros [= <- <-]. eexists. split; [eapply RunInDir; eauto|].
  proj_world. split; [|exact HP].
  rewrite HT. rewrite <- !List.app_assoc. reflexivity.
Qed.

Lemma Commit_run env r w :
  let repo := apiclient.Repo (apiclient.Repo_ r) in
  let w' := (Commit env r w).2 in
  exists evs,
    BodyRun env r (fs w) (remote w) (Commit env r w).1.2 evs (fs w') (remote w') /\
    trace w' = trace w ++ [EvIncPending repo] ++ evs ++ [EvDecPending repo] /\
    pending w' =
      <[repo := (gauge w repo + 1 - 1)%Z]> (<[repo := (gauge w repo + 1)%Z]> (pending w)).
Proof.
  intros repo. unfold Commit. fold repo.
  destruct (commitBody env r (IncPendingCommitRequest repo w)) as [err wb] eqn:EB.
  apply commitBody_run in EB. destruct EB as (evs & HB & HT & HP).
  revert HB HT HP. unfold IncPendingCommitRequest, DecPendingCommitRequest.
  proj_world. intros HB HT HP. exists evs. split; [exact HB|]. split.
  - rewrite HT. rewrite <- !List.app_assoc. reflexivity.
  - rewrite HP. unfold gauge. now rewrite lookup_insert_eq.
Qed.

End RunLemmas.

Module LoopLemmas.
Import WorldLemmas FsLemmas PathLemmas ConfinedLemmas WorkspaceLemmas RunLemmas.

Lemma writeFile_ok env dir name c m m' :
  writeFile env dir name c m = inr m' ->
  m' = <[Path.Join [dir; name] := File c]> m /\ m !! dir = Some Dir /\
  m !! Path.Join [dir; name] <> Some Dir.
Proof.
  unfold writeFile. destruct (fault _ _ _); [discriminate|].
  destruct (m !! dir) as [[|?]|]; try discriminate.
  destruct (m !! Path.Join [dir; name]) as [[|?]|] eqn:E; try discriminate;
    intros [= <-]; repeat split; congruence.
Qed.

Lemma mkdirAll_ok env p m m' :
  mkdirAll env p m = inr m' -> mkdirs (Path.lineage p) m = Some m'.
Proof. apply mkdirAll_inr. Qed.

(** A round that succeeds: the directory is resolved and created, and the
    three files are written into it. *)
Lemma hydrate_ok env r root p w w' :
  hydrate env r (newHydratorHelper root) root p w = (inr tt, w') ->
  exists full m,
    Path.SecureJoin (fault env OpLstat) root (hydratePathOf p) = inr full /\
    mkdirAll env full (fs w) = inr m /\
    fs w' = roundFs r p full m /\
    m !! full = Some Dir /\
    trace w' = trace w ++ roundEvents r p full.
Proof.
  unfold hydrate, WriteManifests, WriteMetadata, WriteReadme, writeIn.
  cbn [newHydratorHelper dirPath].
  change (if decide (apiclient.Path p = ".") then "" else apiclient.Path p)
    with (hydratePathOf p).
  cbv zeta. fold (metadataOf r p). fold (readmeOf r p).
  destruct (Path.SecureJoin _ _ _) as [e|full] eqn:ES; [run_m; discriminate|].
  unfold os_MkdirAll, os_WriteFile. run_m. proj_world.
  destruct (mkdirAll env full (fs w)) as [e|m] eqn:EM; [discriminate|]. proj_world.
  destruct (writeFile env full manifestFileName _ m) as [e|m2] eqn:E2; [discriminate|].
  proj_world.
  destruct (writeFile env full metadataFileName _ m2) as [e|m3] eqn:E3; [discriminate|].
  proj_world.
  destruct (writeFile env full readmeFileName _ m3) as [e|m4] eqn:E4; [discriminate|].
  intros [= <-]. proj_world.
  apply writeFile_ok in E2, E3, E4.
  destruct E2 as (-> & Hd & _), E3 as (-> & _ & _), E4 as (-> & _ & _).
  exists full, m. repeat split; try assumption; try reflexivity.
  unfold roundEvents, dbg. rewrite <- !List.app_assoc. reflexivity.
Qed.

Lemma forPaths_cons env r root p ps w w' :
  forPaths (hydrate env r (newHydratorHelper root) root) (p :: ps) w = (inr tt, w') ->
  exists w1,
    hydrate env r (newHydratorHelper root) root p w = (inr tt, w1) /\
    forPaths (hydrate env r (newHydratorHelper root) root) ps w1 = (inr tt, w').
Proof.
  cbn [forPaths]. unfold bind at 1.
  destruct (hydrate _ _ _ _ _ _) as [[e|[]] w1]; [discriminate|].
  intros H. now exists w1.
Qed.

Lemma forPaths_app env r root ps1 : forall ps2 w w',
  forPaths (hydrate env r (newHydratorHelper root) root) (ps1 ++ ps2) w = (inr tt, w') ->
  exists w1,
    forPaths (hydrate env r (newHydratorHelper root) root) ps1 w = (inr tt, w1) /\
    forPaths (hydrate env r (newHydratorHelper root) root) ps2 w1 = (inr tt, w').
Proof.
  induction ps1 as [|p ps1 IH]; intros ps2 w w' H.
  - exists w. split; [reflexivity | exact H].
  - cbn [app] in H. apply forPaths_cons in H. destruct H as (w1 & H1 & H2).
    apply IH in H2. destruct H2 as (w2 & H2 & H3). exists w2. split; [|exact H3].
    cbn [forPaths]. unfold bind at 1. now rewrite H1.
Qed.

Lemma resolve_ok env root p full :
  Path.SecureJoin (fault env OpLstat) root (hydratePathOf p) = inr full ->
  resolve env root p = full.
Proof. unfold resolve. now intros ->. Qed.

(** A loop that succeeds adds the events of its rounds, in order. *)
Lemma forPaths_ok_events env r root ps : forall w w',
  forPaths (hydrate env r (newHydratorHelper root) root) ps w = (inr tt, w') ->
  trace w' = trace w ++ loopEvents env r root ps /\
  Forall (fun p => Path.SecureJoin (fault env OpLstat) root (hydratePathOf p)
                   = inr (resolve env root p)) ps.
Proof.
  induction ps as [|p ps IH]; intros w w' H.
  - cbn in H. injection H as <-. split; [now rewrite List.app_nil_r | constructor].
  - apply forPaths_cons in H. destruct H as (w1 & H1 & H2).
    apply hydrate_ok in H1. destruct H1 as (full & m & HS & _ & _ & _ & HT).
    apply IH in H2. destruct H2 as (HT2 & HF).
    pose proof (resolve_ok _ _ _ _ HS) as HR. split.
    + rewrite HT2, HT. unfold loopEvents. cbn [flat_map]. rewrite HR.
      now rewrite <- List.app_assoc.
    + constructor; [now rewrite HR | exact HF].
Qed.

Section Files.

Variable env : Env.
Variable r : apiclient.ManifestsRequest.
Variable rc : list string.
Hypothesis rc_nonempty : rc <> [].
Hypothesis rc_good : Forall good rc.

Let root := render rc.

Let inWorkspace := inWorkspace rc.

Lemma inWorkspace_root : inWorkspace root.
Proof. exists []. split; [constructor | now rewrite List.app_nil_r]. Qed.

Lemma inWorkspace_resolved dir full :
  Path.SecureJoin (fault env OpLstat) root dir = inr full -> inWorkspace full.
Proof. intros H. exact (SecureJoin_render _ _ _ _ rc_nonempty rc_good H). Qed.

Lemma join_inj d d' n n' :
  inWorkspace d -> inWorkspace d' -> good n -> good n' ->
  Path.Join [d; n] = Path.Join [d'; n'] -> d = d' /\ n = n'.
Proof.
  intros (cs & Hcs & ->) (cs' & Hcs' & ->) Hn Hn' E.
  assert (Hne : forall l, rc ++ l <> []) by (intros l; destruct rc; [congruence | discriminate]).
  rewrite !Join_render in E by (auto; apply Forall_app; auto).
  apply render_inj in E;
    [| apply good_noSlash; repeat (apply Forall_app; split); auto; repeat constructor; assumption ..].
  apply app_inj_tail in E. destruct E as [E ->]. now rewrite E.
Qed.

Lemma names_distinct :
  metadataFileName <> readmeFileName /\ metadataFileName <> manifestFileName /\
  readmeFileName <> manifestFileName.
Proof. repeat split; discriminate. Qed.

Lemma roundFs_metadata p full m :
  inWorkspace full ->
  roundFs r p full m !! Path.Join [full; metadataFileName]
    = Some (File (MetadataJSON (metadataOf r p))).
Proof.
  intros Hf. unfold roundFs. rewrite lookup_insert_ne.
  - apply lookup_insert_eq.
  - intros E. apply join_inj in E; auto using good_readme, good_metadata.
    destruct E as [_ E]. discriminate E.
Qed.

Lemma roundFs_readme p full m :
  roundFs r p full m !! Path.Join [full; readmeFileName] = Some (File (readmeOf r p)).
Proof. unfold roundFs. apply lookup_insert_eq. Qed.

Lemma roundFs_manifest p full m :
  inWorkspace full ->
  roundFs r p full m !! Path.Join [full; manifestFileName]
    = Some (File (ManifestYAML (apiclient.Manifests p))).
Proof.
  intros Hf. unfold roundFs.
  rewrite lookup_insert_ne; [rewrite lookup_insert_ne; [apply lookup_insert_eq|]|].
  - intros E. apply join_inj in E; auto using good_manifest, good_metadata.
    destruct E as [_ E]. discriminate E.
  - intros E. apply join_inj in E; auto using good_manifest, good_readme.
    destruct E as [_ E]. discriminate E.
Qed.

Lemma roundFs_other p full m d n :
  inWorkspace full -> inWorkspace d -> good n -> d <> full ->
  roundFs r p full m !! Path.Join [d; n] = m !! Path.Join [d; n].
Proof.
  intros Hf Hd Hn Hne. unfold roundFs.
  rewrite !lookup_insert_ne; [reflexivity | ..];
    intros E; apply join_inj in E;
    auto using good_manifest, good_readme, good_metadata; destruct E as [E _]; congruence.
Qed.

Let loop := forPaths (hydrate env r (newHydratorHelper root) root).

(** After a round that succeeds, the metadata file of its directory holds
    the record of its entry. *)
Lemma round_metadata p w w' :
  hydrate env r (newHydratorHelper root) root p w = (inr tt, w') ->
  fs w' !! Path.Join [resolve env root p; metadataFileName]
    = Some (File (MetadataJSON (metadataOf r p))).
Proof.
  intros H. apply hydrate_ok in H. destruct H as (full & m & HS & _ & -> & _ & _).
  rewrite (resolve_ok _ _ _ _ HS). apply roundFs_metadata.
  eapply inWorkspace_resolved, HS.
Qed.

(** A round that succeeds keeps the files of the other directories. *)
Lemma round_other p w w' d n c :
  hydrate env r (newHydratorHelper root) root p w = (inr tt, w') ->
  inWorkspace d -> good n -> d <> resolve env root p ->
  fs w !! Path.Join [d; n] = Some (File c) ->
  fs w' !! Path.Join [d; n] = Some (File c).
Proof.
  intros H Hd Hn Hne Hc. apply hydrate_ok in H.
  destruct H as (full & m & HS & HM & -> & _ & _).
  rewrite (resolve_ok _ _ _ _ HS) in Hne.
  rewrite roundFs_other; auto; [| eapply inWorkspace_resolved, HS].
  eapply frame_file; [eapply mkdirs_frame, mkdirAll_ok, HM | exact Hc].
Qed.

Lemma loop_other ps d n c : forall w w',
  loop ps w = (inr tt, w') ->
  inWorkspace d -> good n -> Forall (fun q => resolve env root q <> d) ps ->
  fs w !! Path.Join [d; n] = Some (File c) ->
  fs w' !! Path.Join [d; n] = Some (File c).
Proof.
  induction ps as [|p ps IH]; intros w w' H Hd Hn HF Hc.
  - cbn in H. now injection H as <-.
  - apply forPaths_cons in H. destruct H as (w1 & H1 & H2).
    inversion HF as [|? ? Hp Hps]; subst.
    eapply IH; eauto. eapply round_other; eauto.
Qed.

(** The metadata file of an entry that no later entry overwrites. *)
Lemma loop_metadata_last ps1 p ps2 w w' :
  loop (ps1 ++ p :: ps2) w = (inr tt, w') ->
  Forall (fun q => resolve env root q <> resolve env root p) ps2 ->
  fs w' !! Path.Join [resolve env root p; metadataFileName]
    = Some (File (MetadataJSON (metadataOf r p))).
Proof.
  intros H HF. apply forPaths_app in H. destruct H as (w1 & _ & H).
  apply forPaths_cons in H. destruct H as (w2 & H2 & H3).
  eapply loop_other; eauto using good_metadata.
  - pose proof H2 as H2'. apply hydrate_ok in H2'. destruct H2' as (full & m & HS & _).
    rewrite (resolve_ok _ _ _ _ HS). eapply inWorkspace_resolved, HS.
  - eapply round_metadata, H2.
Qed.

(** The metadata file of the workspace root after a loop that succeeds. *)
Lemma loop_root_metadata ps : forall acc w w',
  loop ps w = (inr tt, w') ->
  fs w !! rootMetadataPath root = Some (File (MetadataJSON (metadataWith r acc))) ->
  fs w' !! rootMetadataPath root
    = Some (File (MetadataJSON (metadataWith r (rootCommandsFrom env root acc ps)))).
Proof.
  induction ps as [|p ps IH]; intros acc w w' H Hc.
  - cbn in H. now injection H as <-.
  - apply forPaths_cons in H. destruct H as (w1 & H1 & H2).
    unfold rootCommandsFrom. cbn [fold_left].
    eapply (IH _ w1 w'); [exact H2|].
    destruct (decide (resolve env root p = root)) as [E|E].
    + unfold rootMetadataPath. rewrite <- E at 1. eapply round_metadata, H1.
    + eapply round_other; eauto using good_metadata, inWorkspace_root.
Qed.

End Files.

End LoopLemmas.

Module TraceLemmas.
Import WorldLemmas FsLemmas PathLemmas ConfinedLemmas WorkspaceLemmas RunLemmas LoopLemmas.

Lemma gitCalls_app a b : gitCalls (a ++ b) = gitCalls a ++ gitCalls b.
Proof. unfold gitCalls. apply omap_app. Qed.

Lemma fileWrites_app a b : fileWrites (a ++ b) = fileWrites a ++ fileWrites b.
Proof. unfold fileWrites. apply omap_app. Qed.

Lemma gitCalls_loop root levs : Forall (loopEvent root) levs -> gitCalls levs = [].
Proof.
  induction 1 as [|e levs He _ IH]; [reflexivity|].
  destruct e; cbn in He |- *; try contradiction; exact IH.
Qed.

Lemma gitCalls_cleanup env root : gitCalls (cleanupEvents env root) = [].
Proof. unfold cleanupEvents. now destruct (fault _ _ _). Qed.

Lemma LoopRun_confined env r u ps m res levs m' :
  LoopRun env r (workspace u) ps m res levs m' ->
  Forall (loopEvent (workspace u)) levs /\
  (forall k, m !! k = Some Dir -> m' !! k = Some Dir) /\
  (forall k, ~ Path.under (workspace u) k -> frame m m' k).
Proof.
  intros (w & w' & <- & HL & HT & <-).
  pose proof (forPaths_confined env r (rootComponents u) ltac:(discriminate)
                (rootComponents_good u) ps w) as HC.
  rewrite <- workspace_render, HL in HC.
  destruct HC as (_ & _ & (levs' & HT' & HF) & HD & HO).
  cbn [snd] in *. rewrite HT in HT'. apply List.app_inv_head in HT'. subst levs'.
  auto.
Qed.

End TraceLemmas.

(** ** More on strings, identifiers, paths and runs *)

Module StrMore.

Lemma prefix_iff (a b : string) : String.prefix a b = true <-> exists c, b = a +:+ c.
Proof.
  revert b. induction a as [|x a IH]; intros b.
  - split; [intros _; exists b; now rewrite Str.app_nil_l | intros _; now destruct b].
  - destruct b as [|y b]; cbn [String.prefix].
    + split; [discriminate | intros [c H]; rewrite Str.app_cons in H; discriminate].
    + destruct (ascii_dec x y) as [->|N].
      * rewrite IH. split; intros [c H]; exists c.
        -- rewrite Str.app_cons. now f_equal.
        -- rewrite Str.app_cons in H. now injection H.
      * split; [discriminate|]. intros [c H]. rewrite Str.app_cons in H.
        injection H as H _. congruence.
Qed.

Lemma length_app (a b : string) :
  String.length (a +:+ b) = String.length a + String.length b.
Proof.
  induction a as [|x a IH]; [now rewrite Str.app_nil_l|].
  rewrite Str.app_cons. cbn [String.length]. now rewrite IH.
Qed.

Lemma app_inv_length (a a' b b' : string) :
  String.length a = String.length a' -> a +:+ b = a' +:+ b' -> a = a' /\ b = b'.
Proof.
  revert a'. induction a as [|x a IH]; intros [|y a'] L H; try discriminate L.
  - rewrite !Str.app_nil_l in H. now split.
  - rewrite !Str.app_cons in H. injection H as -> H. injection L as L.
    destruct (IH _ L H) as [-> ->]. now split.
Qed.

Lemma app_inv_head (a b b' : string) : a +:+ b = a +:+ b' -> b = b'.
Proof. intros H. now destruct (app_inv_length a a b b' eq_refl H). Qed.

End StrMore.

Module UuidMore.
Import StrMore.

Lemma hexdigit_inj n n' :
  (n < 16)%N -> (n' < 16)%N -> uuid.hexdigit n = uuid.hexdigit n' -> n = n'.
Proof.
  intros Hn Hn' H.
  rewrite <- (N2Nat.id n), <- (N2Nat.id n') in H |- *.
  assert (K : N.to_nat n < 16) by lia. assert (K' : N.to_nat n' < 16) by lia.
  revert H K K'. generalize (N.to_nat n) (N.to_nat n'). clear. intros k k'.
  do 16 (destruct k as [|k];
         [do 16 (destruct k' as [|k'];
                 [vm_compute; intros H _ _; first [reflexivity | discriminate H]|]);
          intros _ _ K'; lia|]).
  intros _ K _. lia.
Qed.

Lemma hexdigit_mod n : uuid.hexdigit n = uuid.hexdigit (n mod 16).
Proof. unfold uuid.hexdigit. now rewrite N.Div0.mod_mod. Qed.

Lemma byte_inj b b' :
  (b < 256)%N -> (b' < 256)%N ->
  uuid.hexdigit (b / 16) = uuid.hexdigit (b' / 16) -> uuid.hexdigit b = uuid.hexdigit b' ->
  b = b'.
Proof.
  intros Hb Hb' Hh Hl.
  apply hexdigit_inj in Hh;
    [| apply N.Div0.div_lt_upper_bound; lia | apply N.Div0.div_lt_upper_bound; lia].
  rewrite (hexdigit_mod b), (hexdigit_mod b') in Hl.
  apply hexdigit_inj in Hl; [| apply N.mod_lt; lia | apply N.mod_lt; lia].
  rewrite (N.div_mod b 16), (N.div_mod b' 16) by lia. now rewrite Hh, Hl.
Qed.

Lemma encodeHex_inj bs : forall bs',
  Forall (fun b => (b < 256)%N) bs -> Forall (fun b => (b < 256)%N) bs' ->
  length bs = length bs' -> uuid.encodeHex bs = uuid.encodeHex bs' -> bs = bs'.
Proof.
  induction bs as [|b bs IH]; intros [|b' bs'] F F' L H; try discriminate L; [reflexivity|].
  apply Forall_cons in F as [Hb F]. apply Forall_cons in F' as [Hb' F'].
  cbn [uuid.encodeHex] in H. injection H as Hh Hl H. injection L as L.
  f_equal; [now apply byte_inj | now apply IH].
Qed.

Lemma length_encodeHex bs : String.length (uuid.encodeHex bs) = 2 * length bs.
Proof. induction bs as [|b bs IH]; [reflexivity|]. cbn [uuid.encodeHex String.length length]. lia. Qed.

Lemma length_String u : length u = 16 -> String.length (uuid.String u) = 36.
Proof.
  intros L. unfold uuid.String.
  rewrite !length_app, !length_encodeHex, !length_take, !length_drop, L. reflexivity.
Qed.

Lemma Forall_take_drop (P : N -> Prop) n k u : Forall P u -> Forall P (take n (drop k u)).
Proof. intros F. apply Forall_take, Forall_drop, F. Qed.

Lemma String_inj u u' : wellFormed u -> wellFormed u' -> uuid.String u = uuid.String u' -> u = u'.
Proof.
  intros [L F] [L' F'] H. unfold uuid.String in H.
  assert (D : forall n k, length (take n (drop k u)) = length (take n (drop k u'))).
  { intros n k. now rewrite !length_take, !length_drop, L, L'. }
  assert (S : forall n k x x',
             uuid.encodeHex (take n (drop k u)) +:+ x
             = uuid.encodeHex (take n (drop k u')) +:+ x' ->
             take n (drop k u) = take n (drop k u') /\ x = x').
  { intros n k x x' E. apply app_inv_length in E as [E ->];
      [| now rewrite !length_encodeHex, D].
    split; [|reflexivity].
    apply encodeHex_inj in E; auto using Forall_take_drop. }
  apply (S 4 0) in H as [H0 H]. apply app_inv_head in H.
  apply S in H as [H1 H]. apply app_inv_head in H.
  apply S in H as [H2 H]. apply app_inv_head in H.
  apply S in H as [H3 H]. apply app_inv_head in H.
  rewrite <- (Str.app_nil_r (uuid.encodeHex (take 6 (drop 10 u)))),
          <- (Str.app_nil_r (uuid.encodeHex (take 6 (drop 10 u')))) in H.
  apply S in H as [H4 _].
  rewrite <- (take_drop 4 u), <- (take_drop 4 u').
  rewrite <- (take_drop 2 (drop 4 u)), <- (take_drop 2 (drop 4 u')), !drop_drop.
  rewrite <- (take_drop 2 (drop (4 + 2) u)), <- (take_drop 2 (drop (4 + 2) u')), !drop_drop.
  rewrite <- (take_drop 2 (drop (4 + 2 + 2) u)), <- (take_drop 2 (drop (4 + 2 + 2) u')),
    !drop_drop.
  rewrite <- (take_ge (drop (4 + 2 + 2 + 2) u) 6), <- (take_ge (drop (4 + 2 + 2 + 2) u') 6)
    by (rewrite length_drop; lia).
  cbn [Nat.add]. change (take 4 u) with (take 4 (drop 0 u)).
  change (take 4 u') with (take 4 (drop 0 u')).
  now rewrite H0, H1, H2, H3, H4.
Qed.

End UuidMore.

Module PathMore.
Import Path PathLemmas StrMore.

Lemma components_noSlash c rest :
  noSlash c -> c <> "" -> components (c +:+ "/" +:+ rest) = c :: components rest.
Proof.
  induction c as [|x c IH]; [congruence|]. intros [Hx Hc] _.
  rewrite Str.app_cons. cbn [components].
  destruct (decide (x = sep)); [contradiction|].
  destruct c as [|y c].
  - rewrite Str.app_nil_l. change (components ("/" +:+ rest)) with ("" :: components rest).
    reflexivity.
  - now rewrite IH.
Qed.

Lemma components_single c : noSlash c -> c <> "" -> components c = [c].
Proof.
  induction c as [|x c IH]; [congruence|]. intros [Hx Hc] _.
  cbn [components]. destruct (decide (x = sep)); [contradiction|].
  destruct c as [|y c]; [reflexivity|]. now rewrite IH.
Qed.

Lemma components_concat cs : Forall good cs -> components (String.concat "/" cs) = cs.
Proof.
  induction 1 as [|c cs (Hne & _ & _ & Hc) Hcs IH]; [reflexivity|].
  destruct cs as [|c' cs'].
  - now apply components_single.
  - change (String.concat "/" (c :: c' :: cs'))
      with (c +:+ "/" +:+ String.concat "/" (c' :: cs')).
    rewrite components_noSlash by assumption. now rewrite IH.
Qed.

Lemma concat_empty_cons x xs : String.concat "" (x :: xs) = x +:+ String.concat "" xs.
Proof. destruct xs; [cbn; now rewrite Str.app_nil_r | reflexivity]. Qed.

Lemma trail_cons c cs : trail (c :: cs) = c +:+ "/" +:+ trail cs.
Proof. unfold trail. cbn [map]. now rewrite concat_empty_cons, Str.app_assoc. Qed.

Lemma trail_render cs : "/" +:+ trail cs = render cs +:+ "/".
Proof.
  induction cs as [|c cs IH]; [reflexivity|].
  rewrite trail_cons. cbn [render].
  rewrite !Str.app_assoc. rewrite <- IH. reflexivity.
Qed.

Lemma trail_snoc cs c : trail (cs ++ [c]) = trail cs +:+ c +:+ "/".
Proof.
  induction cs as [|x cs IH]; cbn [app].
  - rewrite trail_cons. reflexivity.
  - rewrite !trail_cons, IH. now rewrite !Str.app_assoc.
Qed.

Lemma Clean_concat cs :
  cs <> [] -> Forall good cs -> Clean ("/" +:+ String.concat "/" cs) = render cs.
Proof.
  intros Hne Hcs. unfold Clean. destruct (decide _) as [E|_]; [discriminate E|].
  change (isRooted ("/" +:+ String.concat "/" cs)) with true. cbv iota.
  unfold split. rewrite split2_slash.
  pose proof (split_concat cs (good_noSlash _ Hcs) Hne) as E.
  unfold split in E. destruct (split2 (String.concat "/" cs)) as [h t].
  cbn [fst snd]. rewrite E.
  cbn [cleanStack]. destruct (decide ("" = "")); [|congruence].
  rewrite <- (List.app_nil_r cs) at 1.
  rewrite cleanStack_good by assumption.
  cbn [cleanStack]. rewrite List.app_nil_r, rev_involutive.
  apply concat_render; auto using good_noSlash.
Qed.

Lemma render_not_root c cs : good c -> render (c :: cs) <> "/".
Proof.
  intros (Hne & _) E. cbn [render] in E. rewrite Str.app_cons, Str.app_nil_l in E.
  injection E as E. destruct c; [congruence | discriminate E].
Qed.

Lemma Clean_step pre p :
  Forall good pre -> good p -> Clean ("/" +:+ trail pre +:+ p) = render (pre ++ [p]).
Proof.
  intros Hpre Hp. destruct pre as [|c pre].
  - change ("/" +:+ trail [] +:+ p) with ("/" +:+ String.concat "/" [p]).
    apply Clean_concat; [discriminate | now constructor].
  - replace ("/" +:+ trail (c :: pre) +:+ p)
      with (render (c :: pre) +:+ ("/" +:+ String.concat "/" [p])).
    + apply Clean_render_app; [discriminate | assumption | now constructor].
    + cbn [String.concat]. rewrite <- (Str.app_assoc _ "/" p), <- trail_render.
      now rewrite !Str.app_assoc.
Qed.

(** The walk over clean components goes through them one by one. *)
Lemma walk_good lstat root cs : forall pre,
  (forall q, lstat q = None) -> Forall good pre -> Forall good cs ->
  walk lstat root (trail pre) cs = inr (trail (pre ++ cs)).
Proof.
  induction cs as [|c cs IH]; intros pre Hl Hpre Hcs.
  - now rewrite List.app_nil_r.
  - apply Forall_cons in Hcs as [Hc Hcs]. cbn [walk].
    rewrite Clean_step by assumption.
    destruct (decide _) as [E|_].
    { exfalso. destruct pre as [|x pre]; cbn [app] in E.
      - now apply render_not_root in E.
      - apply Forall_cons in Hpre as [Hx _]. now apply render_not_root in E. }
    rewrite Hl. rewrite <- trail_snoc.
    rewrite IH; [| assumption | apply Forall_app; split; [assumption | now constructor]
                 | assumption].
    now rewrite <- List.app_assoc.
Qed.

(** A clean relative path is joined to the root as it is. *)
Lemma SecureJoin_good lstat rc cs :
  rc <> [] -> Forall good rc -> Forall good cs -> (forall q, lstat q = None) ->
  SecureJoin lstat (render rc) (String.concat "/" cs) = inr (render (rc ++ cs)).
Proof.
  intros Hne Hrc Hcs Hl. destruct cs as [|c cs']; [rewrite List.app_nil_r; now apply SecureJoin_empty|].
  unfold SecureJoin. rewrite components_concat by assumption.
  change "" with (trail []) at 1. rewrite walk_good by (assumption || constructor).
  cbn [app]. f_equal.
  rewrite trail_render.
  change (render (c :: cs') +:+ "/") with (render (c :: cs') +:+ ("/" +:+ String.concat "/" [])).
  rewrite Clean_render_app by (assumption || discriminate || constructor).
  rewrite List.app_nil_r.
  rewrite <- (concat_render (c :: cs')) by (discriminate || now apply good_noSlash).
  now apply Clean_render_app.
Qed.

(** *** The directories on the way to a path *)

Lemma lineageFrom_app base a b :
  lineageFrom base (a ++ b) = lineageFrom base a ++ lineageFrom (base +:+ render a) b.
Proof.
  revert base. induction a as [|c a IH]; intros base; cbn [app lineageFrom render].
  - now rewrite Str.app_nil_r.
  - rewrite IH. now rewrite !Str.app_assoc.
Qed.

Lemma lineageFrom_below base cs :
  Forall (fun x => exists s, x = base +:+ "/" +:+ s) (lineageFrom base cs).
Proof.
  revert base. induction cs as [|c cs IH]; intros base; cbn [lineageFrom]; constructor.
  - now exists c.
  - eapply List.Forall_impl; [|apply IH]. intros x [s ->].
    exists (c +:+ "/" +:+ s). now rewrite !Str.app_assoc.
Qed.

Lemma filter_nonempty cs : Forall good cs -> filter (fun c => c <> "") cs = cs.
Proof.
  induction 1 as [|c cs (Hne & _) _ IH]; [reflexivity|].
  rewrite filter_cons_True by assumption. now rewrite IH.
Qed.

Lemma lineage_render cs : Forall good cs -> lineage (render cs) = lineageFrom "" cs.
Proof.
  intros H. unfold lineage, split.
  pose proof (split2_render cs "" (good_noSlash _ H) eq_refl) as E.
  rewrite Str.app_nil_r in E. rewrite E. cbn [snd]. rewrite List.app_nil_r.
  rewrite filter_cons_False by (intros N; now apply N).
  now rewrite filter_nonempty.
Qed.

Lemma lineage_app rc cs :
  Forall good rc -> Forall good cs ->
  lineage (render (rc ++ cs)) = lineage (render rc) ++ lineageFrom (render rc) cs.
Proof.
  intros Hrc Hcs. rewrite !lineage_render by (try apply Forall_app; auto).
  now rewrite lineageFrom_app, Str.app_nil_l.
Qed.

Lemma lineageFrom_under root cs : Forall (under root) (lineageFrom root cs).
Proof.
  eapply List.Forall_impl; [|apply lineageFrom_below]. intros x [s ->].
  right. rewrite <- Str.app_assoc. apply Str.prefix_app.
Qed.

End PathMore.

Module SealedLemmas.
Import WorldLemmas FsLemmas PathLemmas ConfinedLemmas WorkspaceLemmas RunLemmas LoopLemmas
  PathMore.

Lemma mkdirs_skip l1 l2 (m : gmap string Node) :
  Forall (fun q => m !! q = Some Dir) l1 -> mkdirs (l1 ++ l2) m = mkdirs l2 m.
Proof.
  induction 1 as [|q l1 Hq _ IH]; [reflexivity|].
  cbn [app mkdirs]. rewrite Hq. now rewrite insert_id.
Qed.

Lemma mkdirs_only l : forall (m m' : gmap string Node) k,
  mkdirs l m = Some m' -> ~ In k l -> m' !! k = m !! k.
Proof.
  induction l as [|q l IH]; intros m m' k H Hk; cbn [mkdirs] in H.
  - now injection H as <-.
  - assert (mkdirs l (<[q:=Dir]> m) = Some m') as H' by (destruct (m !! q) as [[|c]|]; congruence).
    rewrite (IH _ _ k H') by (intros N; apply Hk; now right).
    apply lookup_insert_ne. intros ->. apply Hk. now left.
Qed.

Lemma cleaned_outside env root (m : gmap string Node) k :
  ~ Path.under root k -> cleaned env root m !! k = m !! k.
Proof.
  intros Hk. unfold cleaned, removeAll, removeAllLeft.
  destruct (fault _ _ _); destruct (m !! k) as [x|] eqn:E;
    first [ apply map_lookup_filter_Some; split; [exact E | first [exact Hk | left; exact Hk]]
          | apply map_lookup_filter_None; left; exact E ].
Qed.

Lemma sealed_refl root w : sealed root w w.
Proof. intros H. split; [exact H | reflexivity]. Qed.

Lemma sealed_trans root a b c : sealed root a b -> sealed root b c -> sealed root a c.
Proof.
  intros H1 H2 Ha. destruct (H1 Ha) as [Hb E1]. destruct (H2 Hb) as [Hc E2].
  split; [exact Hc|]. intros k Hk. now rewrite E2, E1.
Qed.

Lemma sealed_bind root {A B} (m : M A) (k : A -> M B) w :
  sealed root w (m w).2 -> (forall a w1, sealed root w1 (k a w1).2) ->
  sealed root w (bind m k w).2.
Proof.
  intros H1 H2. unfold bind. destruct (m w) as [[e|a] w1]; [exact H1|].
  eapply sealed_trans; [exact H1 | apply H2].
Qed.

Lemma sealed_lift root {A} (f : World -> A * World) w :
  sealed root w (f w).2 -> sealed root w (lift f w).2.
Proof. unfold lift. now destruct (f w). Qed.

Lemma sealed_log root lvl msg err out w : sealed root w (logEntry lvl msg err out w).2.
Proof. intros H. split; [exact H | reflexivity]. Qed.

Lemma sealed_ifErr root err onErr ctx w :
  (forall e w1, sealed root w1 (onErr e w1).2) -> sealed root w (ifErr err onErr ctx w).2.
Proof.
  intros H. destruct err as [e|]; [|apply sealed_refl].
  cbn [ifErr]. apply sealed_bind; [apply H | intros; apply sealed_refl].
Qed.

Section Workspace.

Variable env : Env.
Variable r : apiclient.ManifestsRequest.
Variable rc : list string.
Hypothesis rc_nonempty : rc <> [].
Hypothesis rc_good : Forall good rc.

Let root := render rc.

Lemma os_MkdirAll_sealed full w :
  inWorkspace rc full -> sealed root w (os_MkdirAll env full w).2.
Proof.
  intros (cs & Hcs & ->) HD. rewrite os_MkdirAll_fs. unfold mkdirAllLeft. split.
  - eapply List.Forall_impl; [|exact HD]. intros q Hq.
    eapply frame_dir; [apply mkdirsRun_frame | exact Hq].
  - intros k Hk. rewrite lineage_app by assumption.
    rewrite mkdirsRun_skip by exact HD.
    apply mkdirsRun_only. intros Hin.
    pose proof (lineageFrom_under root cs) as HU.
    rewrite List.Forall_forall in HU. apply Hk, HU, Hin.
Qed.

Lemma os_WriteFile_sealed full name c w :
  inWorkspace rc full -> good name -> sealed root w (os_WriteFile env full name c w).2.
Proof.
  intros (cs & Hcs & ->) Hn HD. unfold os_WriteFile. cbn [emit fs].
  destruct (writeFile env _ name c (fs w)) as [e|m] eqn:E; [now split|].
  apply writeFile_ok in E. destruct E as (-> & _ & HP). cbn [snd setFs fs emit].
  assert (HU : Path.under root (Path.Join [render (rc ++ cs); name])).
  { rewrite Join_render
      by first [ assumption | apply Forall_app; auto | destruct rc; [congruence | discriminate] ].
    rewrite <- List.app_assoc. apply under_render. }
  split.
  - eapply List.Forall_impl; [|exact HD]. intros q Hq. cbn beta in *.
    rewrite lookup_insert_ne; [exact Hq|]. intros <-. contradiction.
  - intros k Hk. apply lookup_insert_ne. intros <-. contradiction.
Qed.

Lemma writeIn_sealed dir name c w :
  good name -> sealed root w (writeIn env (newHydratorHelper root) dir name c w).2.
Proof.
  intros Hn. unfold writeIn. cbn [newHydratorHelper dirPath].
  destruct (Path.SecureJoin _ _ _) as [e|full] eqn:E; [apply sealed_refl|].
  apply os_WriteFile_sealed; [|exact Hn].
  eapply inWorkspace_resolved; eauto.
Qed.

Lemma hydrate_sealed p w :
  sealed root w (hydrate env r (newHydratorHelper root) root p w).2.
Proof.
  unfold hydrate.
  apply sealed_bind; [apply sealed_log | intros _ w1].
  destruct (Path.SecureJoin _ _ _) as [e|full] eqn:E.
  { apply sealed_bind; [apply sealed_log | intros; apply sealed_refl]. }
  apply sealed_bind;
    [apply sealed_lift, os_MkdirAll_sealed; eapply inWorkspace_resolved; eauto
    | intros err1 w2].
  apply sealed_bind; [apply sealed_ifErr; intros; apply sealed_log | intros _ w3].
  apply sealed_bind;
    [apply sealed_lift, writeIn_sealed, good_manifest | intros err2 w4].
  apply sealed_bind; [apply sealed_ifErr; intros; apply sealed_log | intros _ w5].
  apply sealed_bind; [apply sealed_log | intros _ w6].
  apply sealed_bind;
    [apply sealed_lift, writeIn_sealed, good_metadata | intros err3 w7].
  apply sealed_bind; [apply sealed_ifErr; intros; apply sealed_log | intros _ w8].
  apply sealed_bind; [apply sealed_log | intros _ w9].
  apply sealed_bind;
    [apply sealed_lift, writeIn_sealed, good_readme | intros err4 w10].
  apply sealed_ifErr; intros; apply sealed_log.
Qed.

Lemma forPaths_sealed ps : forall w,
  sealed root w (forPaths (hydrate env r (newHydratorHelper root) root) ps w).2.
Proof.
  induction ps as [|p ps IH]; intros w; cbn [forPaths]; [apply sealed_refl|].
  apply sealed_bind; [apply hydrate_sealed | intros _ w1; apply IH].
Qed.

End Workspace.

Lemma LoopRun_sealed env r u ps m res levs m' :
  LoopRun env r (workspace u) ps m res levs m' ->
  Forall (fun q => m !! q = Some Dir) (Path.lineage (workspace u)) ->
  Forall (fun q => m' !! q = Some Dir) (Path.lineage (workspace u)) /\
  (forall k, ~ Path.under (workspace u) k -> m' !! k = m !! k).
Proof.
  intros (w & w' & <- & HL & _ & <-).
  pose proof (forPaths_sealed env r (rootComponents u) ltac:(discriminate)
                (rootComponents_good u) ps w) as HS.
  rewrite <- workspace_render, HL in HS. exact HS.
Qed.

Lemma writeFile_sealed env u name c m m' :
  good name -> writeFile env (workspace u) name c m = inr m' ->
  Forall (fun q => m !! q = Some Dir) (Path.lineage (workspace u)) ->
  Forall (fun q => m' !! q = Some Dir) (Path.lineage (workspace u)) /\
  (forall k, ~ Path.under (workspace u) k -> m' !! k = m !! k).
Proof.
  intros Hn E HD.
  pose proof (os_WriteFile_sealed env (rootComponents u) ltac:(discriminate)
                (rootComponents_good u) (workspace u) name c
                {| pending := ∅; fs := m; remote := []; trace := [] |}) as HS.
  rewrite <- workspace_render in HS. unfold os_WriteFile in HS. cbn [emit fs] in HS.
  rewrite E in HS. apply HS; [| exact Hn | exact HD].
  exists []. split; [constructor|]. rewrite List.app_nil_r. apply workspace_render.
Qed.

Lemma InnerRun_sealed env r u m rm err evs m' rm' :
  InnerRun env r (workspace u) m rm err evs m' rm' ->
  Forall (fun q => m !! q = Some Dir) (Path.lineage (workspace u)) ->
  forall k, ~ Path.under (workspace u) k -> m' !! k = m !! k.
Proof.
  intros H HD k Hk.
  destruct H as [e HS | e HS HW | m1 e levs m2 HS HW HL | m1 levs m2 out e HS HW HL HG
                | m1 levs m2 out HS HW HL HG]; try reflexivity;
    destruct (writeFile_sealed _ _ _ _ _ _ good_metadata HW HD) as [HD1 E1];
    destruct (LoopRun_sealed _ _ _ _ _ _ _ _ HL HD1) as [_ E2];
    now rewrite E2, E1.
Qed.

End SealedLemmas.

Module FailLemmas.
Import WorldLemmas FsLemmas PathLemmas ConfinedLemmas WorkspaceLemmas RunLemmas LoopLemmas.

(** A round that fails: the events of the round up to the failing step,
    then the log line of the failure. *)
Lemma hydrate_fail env r root p w e w' :
  hydrate env r (newHydratorHelper root) root p w = (inl e, w') ->
  exists ctx e0 n,
    e = errorWrap ctx e0 /\ In ctx hydrateContexts /\
    trace w' = trace w ++ take n (roundEvents r p (resolve env root p)) ++ [errLog ctx e0].
Proof.
  unfold hydrate, WriteManifests, WriteMetadata, WriteReadme, writeIn, resolve.
  cbn [newHydratorHelper dirPath].
  change (if decide (apiclient.Path p = ".") then "" else apiclient.Path p)
    with (hydratePathOf p).
  cbv zeta. fold (metadataOf r p). fold (readmeOf r p).
  unfold hydrateContexts.
  destruct (Path.SecureJoin _ _ _) as [e1|full] eqn:ES.
  { run_m. intros [= <- <-]. eexists _, e1, 1. split; [reflexivity|].
    split; [cbn [In]; tauto|]. proj_world. now rewrite <- !List.app_assoc. }
  unfold os_MkdirAll, os_WriteFile. run_m. proj_world.
  destruct (mkdirAll env full (fs w)) as [e1|m] eqn:EM.
  { intros [= <- <-]. eexists _, e1, 2. split; [reflexivity|].
    split; [cbn [In]; tauto|]. proj_world. now rewrite <- !List.app_assoc. }
  proj_world.
  destruct (writeFile env full manifestFileName _ m) as [e1|m2] eqn:E2.
  { intros [= <- <-]. eexists _, e1, 3. split; [reflexivity|].
    split; [cbn [In]; tauto|]. proj_world. now rewrite <- !List.app_assoc. }
  proj_world.
  destruct (writeFile env full metadataFileName _ m2) as [e1|m3] eqn:E3.
  { intros [= <- <-]. eexists _, e1, 5. split; [reflexivity|].
    split; [cbn [In]; tauto|]. proj_world. now rewrite <- !List.app_assoc. }
  proj_world.
  destruct (writeFile env full readmeFileName _ m3) as [e1|m4] eqn:E4.
  { intros [= <- <-]. eexists _, e1, 7. split; [reflexivity|].
    split; [cbn [In]; tauto|]. proj_world. now rewrite <- !List.app_assoc. }
  discriminate.
Qed.

(** A loop that fails: the rounds before the failing one succeeded, and
    the entries after it are not reached. *)
Lemma forPaths_fail env r root ps : forall w e w',
  forPaths (hydrate env r (newHydratorHelper root) root) ps w = (inl e, w') ->
  exists ps1 p ps2 ctx e0 n,
    ps = ps1 ++ p :: ps2 /\ e = errorWrap ctx e0 /\ In ctx hydrateContexts /\
    trace w' = trace w ++ loopEvents env r root ps1 ++
               take n (roundEvents r p (resolve env root p)) ++ [errLog ctx e0].
Proof.
  induction ps as [|p ps IH]; intros w e w' H; [discriminate H|].
  cbn [forPaths] in H. unfold bind at 1 in H.
  destruct (hydrate _ _ _ _ _ _) as [[e1|[]] w1] eqn:EH.
  - injection H as <- <-. apply hydrate_fail in EH.
    destruct EH as (ctx & e0 & n & -> & HIn & HT).
    exists [], p, ps, ctx, e0, n. repeat split; assumption.
  - apply hydrate_ok in EH. destruct EH as (full & m & HS & _ & _ & _ & HT).
    apply IH in H. destruct H as (ps1 & q & ps2 & ctx & e0 & n & -> & -> & HIn & HT2).
    exists (p :: ps1), q, ps2, ctx, e0, n. repeat split; try assumption.
    rewrite HT2, HT. unfold loopEvents. cbn [flat_map].
    rewrite (resolve_ok _ _ _ _ HS). now rewrite <- !List.app_assoc.
Qed.

Lemma LoopRun_fail env r root ps m e levs m' :
  LoopRun env r root ps m (inl e) levs m' ->
  exists ps1 p ps2 ctx e0 n,
    ps = ps1 ++ p :: ps2 /\ e = errorWrap ctx e0 /\ In ctx hydrateContexts /\
    levs = loopEvents env r root ps1 ++
           take n (roundEvents r p (resolve env root p)) ++ [errLog ctx e0].
Proof.
  intros (w & w' & _ & HL & HT & _). apply forPaths_fail in HL.
  destruct HL as (ps1 & p & ps2 & ctx & e0 & n & -> & -> & HIn & HT').
  rewrite HT in HT'. apply List.app_inv_head in HT'.
  exists ps1, p, ps2, ctx, e0, n. repeat split; assumption.
Qed.

Lemma LoopRun_ok env r root ps m levs m' :
  LoopRun env r root ps m (inr tt) levs m' -> levs = loopEvents env r root ps.
Proof.
  intros (w & w' & _ & HL & HT & _). apply forPaths_ok_events in HL.
  destruct HL as (HT' & _). rewrite HT in HT'. now apply List.app_inv_head in HT'.
Qed.

Lemma workspace_path u : workspace u = tempRoot +:+ "/" +:+ uuid.String u.
Proof.
  rewrite workspace_render. unfold rootComponents. cbn [render].
  now rewrite Str.app_nil_r.
Qed.

Lemma lineage_workspace u :
  Path.lineage (workspace u) = ["/tmp"; tempRoot; tempRoot +:+ "/" +:+ uuid.String u].
Proof.
  rewrite workspace_render, PathMore.lineage_render by apply rootComponents_good.
  reflexivity.
Qed.

End FailLemmas.

Module TidyLemmas.
Import WorldLemmas FsLemmas PathLemmas ConfinedLemmas WorkspaceLemmas RunLemmas LoopLemmas.

Lemma below_refl root : below root root.
Proof. exists []. split; [constructor | now rewrite Str.app_nil_r]. Qed.

Lemma inWorkspace_below rc d : inWorkspace rc d -> below (render rc) d.
Proof. intros (cs & H & ->). exists cs. split; [exact H | apply render_app]. Qed.

(** A clean path below the root is under it. *)
Lemma below_under root p : below root p -> Path.under root p.
Proof.
  intros (cs & _ & ->). destruct cs as [|c cs]; [left; apply Str.app_nil_r | right].
  cbn [render]. rewrite <- (Str.app_assoc root "/"). apply Str.prefix_app.
Qed.

Lemma tidy_refl root w : tidy root w w.
Proof. exists []. split; [now rewrite List.app_nil_r | constructor]. Qed.

Lemma tidy_trans root a b c : tidy root a b -> tidy root b c -> tidy root a c.
Proof.
  intros (e1 & T1 & F1) (e2 & T2 & F2). exists (e1 ++ e2).
  split; [rewrite T2, T1; now rewrite List.app_assoc | now apply Forall_app].
Qed.

Lemma tidy_bind root {A B} (m : M A) (k : A -> M B) w :
  tidy root w (m w).2 -> (forall a w1, tidy root w1 (k a w1).2) ->
  tidy root w (bind m k w).2.
Proof.
  intros H1 H2. unfold bind. destruct (m w) as [[e|a] w1]; [exact H1|].
  eapply tidy_trans; [exact H1 | apply H2].
Qed.

Lemma tidy_lift root {A} (f : World -> A * World) w :
  tidy root w (f w).2 -> tidy root w (lift f w).2.
Proof. unfold lift. now destruct (f w). Qed.

Lemma tidy_emit root e w : tidyEvent root e -> tidy root w (emit e w).
Proof. intros H. exists [e]. split; [reflexivity | now constructor]. Qed.

Lemma tidy_log root lvl msg err out w : tidy root w (logEntry lvl msg err out w).2.
Proof. apply tidy_lift. cbn. apply tidy_emit. intros p. discriminate. Qed.

Lemma tidy_ifErr root err onErr ctx w :
  (forall e w1, tidy root w1 (onErr e w1).2) -> tidy root w (ifErr err onErr ctx w).2.
Proof.
  intros H. destruct err as [e|]; cbn [ifErr]; [|apply tidy_refl].
  apply tidy_bind; [apply H | intros; apply tidy_refl].
Qed.

Lemma os_MkdirAll_tidy env root p w : below root p -> tidy root w (os_MkdirAll env p w).2.
Proof.
  intros Hp. exists [EvMkdirAll p]. split.
  - unfold os_MkdirAll. now destruct (mkdirAll _ _ _).
  - constructor; [|constructor]. now intros q [= <-].
Qed.

Lemma os_WriteFile_tidy env root dir name c w :
  below root (Path.Join [dir; name]) -> tidy root w (os_WriteFile env dir name c w).2.
Proof.
  intros Hp. exists [EvWriteFile (Path.Join [dir; name]) c]. split.
  - unfold os_WriteFile. now destruct (writeFile _ _ _ _ _).
  - constructor; [|constructor]. now intros q [= <-].
Qed.

Section Workspace.

Variable env : Env.
Variable r : apiclient.ManifestsRequest.
Variable rc : list string.
Hypothesis rc_nonempty : rc <> [].
Hypothesis rc_good : Forall good rc.

Let root := render rc.

Lemma file_below full name :
  inWorkspace rc full -> good name -> below root (Path.Join [full; name]).
Proof.
  intros (cs & Hcs & ->) Hn.
  rewrite Join_render
    by first [ assumption | apply Forall_app; auto | destruct rc; [congruence | discriminate] ].
  rewrite <- List.app_assoc. apply inWorkspace_below.
  exists (cs ++ [name]). split; [|reflexivity].
  apply Forall_app. split; [exact Hcs | now constructor].
Qed.

Lemma writeIn_tidy dir name c w :
  good name -> tidy root w (writeIn env (newHydratorHelper root) dir name c w).2.
Proof.
  intros Hn. unfold writeIn. cbn [newHydratorHelper dirPath].
  destruct (Path.SecureJoin _ _ _) as [e|full] eqn:E; [apply tidy_refl|].
  apply os_WriteFile_tidy, file_below; [|exact Hn].
  eapply inWorkspace_resolved; eauto.
Qed.

Lemma hydrate_tidy p w :
  tidy root w (hydrate env r (newHydratorHelper root) root p w).2.
Proof.
  unfold hydrate.
  apply tidy_bind; [apply tidy_log | intros _ w1].
  destruct (Path.SecureJoin _ _ _) as [e|full] eqn:E.
  { apply tidy_bind; [apply tidy_log | intros; apply tidy_refl]. }
  apply tidy_bind;
    [apply tidy_lift, os_MkdirAll_tidy, inWorkspace_below; eapply inWorkspace_resolved; eauto
    | intros err1 w2].
  apply tidy_bind; [apply tidy_ifErr; intros; apply tidy_log | intros _ w3].
  apply tidy_bind; [apply tidy_lift, writeIn_tidy, good_manifest | intros err2 w4].
  apply tidy_bind; [apply tidy_ifErr; intros; apply tidy_log | intros _ w5].
  apply tidy_bind; [apply tidy_log | intros _ w6].
  apply tidy_bind; [apply tidy_lift, writeIn_tidy, good_metadata | intros err3 w7].
  apply tidy_bind; [apply tidy_ifErr; intros; apply tidy_log | intros _ w8].
  apply tidy_bind; [apply tidy_log | intros _ w9].
  apply tidy_bind; [apply tidy_lift, writeIn_tidy, good_readme | intros err4 w10].
  apply tidy_ifErr; intros; apply tidy_log.
Qed.

Lemma forPaths_tidy ps : forall w,
  tidy root w (forPaths (hydrate env r (newHydratorHelper root) root) ps w).2.
Proof.
  induction ps as [|p ps IH]; intros w; cbn [forPaths]; [apply tidy_refl|].
  apply tidy_bind; [apply hydrate_tidy | intros _ w1; apply IH].
Qed.

End Workspace.

Lemma LoopRun_tidy env r u ps m res levs m' :
  LoopRun env r (workspace u) ps m res levs m' -> Forall (tidyEvent (workspace u)) levs.
Proof.
  intros (w & w' & _ & HL & HT & _).
  pose proof (forPaths_tidy env r (rootComponents u) ltac:(discriminate)
                (rootComponents_good u) ps w) as HS.
  rewrite <- workspace_render, HL in HS. destruct HS as (evs & HT' & HF).
  cbn [snd] in HT'. rewrite HT in HT'. apply List.app_inv_head in HT'. now subst.
Qed.

Lemma rootMetadataPath_below u : below (workspace u) (rootMetadataPath (workspace u)).
Proof.
  unfold rootMetadataPath. rewrite workspace_render.
  apply file_below; [discriminate | apply rootComponents_good | | apply good_metadata].
  exists []. split; [constructor | now rewrite List.app_nil_r].
Qed.

End TidyLemmas.

(** ** The properties of [Commit] *)

Module Tactics.

(** Case analysis on the outcomes of the branch synchronizer. *)
Ltac sync_destruct env r root :=
  unfold syncSteps, syncCalls, syncContexts in *;
  cbn [runSteps stepError stepEvents stepLog stepContext] in *;
  destruct (NewClientExt env (apiclient.RepoUrl r) root
              (apiclient.Insecure (apiclient.Repo_ r))
              (apiclient.EnableLFS (apiclient.Repo_ r))
              (apiclient.Proxy (apiclient.Repo_ r))) as [?e|] eqn:?EC;
  [| destruct (git env Init) as [?o [?e|]] eqn:?EI; cbn [fst snd] in *;
     [| destruct (git env (Fetch "")) as [?o [?e|]] eqn:?EF; cbn [fst snd] in *;
        [| destruct (GetUserInfo env) as [[?name ?email] [?e|]] eqn:?EU; cbn [fst snd] in *;
           [| destruct (git env (SetAuthor _ _)) as [?o [?e|]] eqn:?EA; cbn [fst snd] in *;
              [| destruct (git env (CheckoutOrOrphan _ _)) as [?o [?e|]] eqn:?ES;
                 cbn [fst snd] in *;
                 [| destruct (git env (CheckoutOrNew _ _ _)) as [?o [?e|]] eqn:?ET;
                    cbn [fst snd] in *;
                    [| destruct (git env RemoveContents) as [?o [?e|]] eqn:?ER;
                       cbn [fst snd] in * ]]]]]]];
  cbn [fst snd app] in *.

End Tactics.

Module BodyLemmas.
Import WorldLemmas FsLemmas PathLemmas ConfinedLemmas WorkspaceLemmas RunLemmas LoopLemmas
  TraceLemmas Tactics.

Lemma loopEvent_body root e : loopEvent root e -> bodyEvent root e.
Proof. destruct e; cbn; tauto. Qed.

Lemma under_refl root : Path.under root root.
Proof. now left. Qed.

Lemma rootMetadataPath_under u : Path.under (workspace u) (rootMetadataPath (workspace u)).
Proof.
  unfold rootMetadataPath. rewrite workspace_render.
  rewrite Join_render; [apply under_render | discriminate | apply rootComponents_good
                       | apply good_metadata].
Qed.

Ltac forall_events :=
  repeat (apply List.Forall_cons;
          [cbn; first [exact I | apply under_refl | apply rootMetadataPath_under] |]);
  try apply List.Forall_nil.

Lemma sync_events_body env r root root' :
  Forall (bodyEvent root') (runSteps (syncSteps env r root)).1.
Proof.
  sync_destruct env r root; forall_events.
Qed.

Lemma cleanup_events_body env root : Forall (bodyEvent root) (cleanupEvents env root).
Proof.
  unfold cleanupEvents. destruct (fault _ _ _); forall_events.
Qed.

Lemma InnerRun_events env r u m rm err evs m' rm' :
  InnerRun env r (workspace u) m rm err evs m' rm' ->
  Forall (bodyEvent (workspace u)) evs.
Proof.
  assert (HW : Forall (bodyEvent (workspace u)) (rootWrite r (workspace u)))
    by (unfold rootWrite; forall_events).
  assert (HL : forall levs, Forall (loopEvent (workspace u)) levs ->
                            Forall (bodyEvent (workspace u)) levs)
    by (intros levs H; eapply List.Forall_impl; [apply loopEvent_body | exact H]).
  destruct 1;
    repeat match goal with
           | H : LoopRun _ _ _ _ _ _ _ _ |- _ => apply LoopRun_confined in H; destruct H as (? & _)
           end;
    repeat (apply Forall_app; split); auto using sync_events_body;
    forall_events.
Qed.

Lemma BodyRun_events env r m rm err evs m' rm' :
  BodyRun env r m rm err evs m' rm' -> Forall (bodyEvent (workspaceOf env)) evs.
Proof.
  unfold workspaceOf. destruct 1 as [e HU | u e HU HM | u m1 err evs m2 rm2 HU HM HI];
    rewrite HU.
  - forall_events.
  - forall_events.
  - repeat (apply Forall_app; split).
    + forall_events.
    + eapply InnerRun_events, HI.
    + apply cleanup_events_body.
Qed.

End BodyLemmas.

Module Claims.
Import WorldLemmas FsLemmas PathLemmas ConfinedLemmas WorkspaceLemmas RunLemmas LoopLemmas
  TraceLemmas Tactics BodyLemmas.

Lemma sync_calls env r root :
  exists n, gitCalls (runSteps (syncSteps env r root)).1 = take n (syncCalls env r) /\
            ((runSteps (syncSteps env r root)).2 = None -> n = 6).
Proof.
  sync_destruct env r root;
    first [ exists 0; split; [reflexivity | discriminate]
          | exists 1; split; [reflexivity | discriminate]
          | exists 2; split; [reflexivity | discriminate]
          | exists 3; split; [reflexivity | discriminate]
          | exists 4; split; [reflexivity | discriminate]
          | exists 5; split; [reflexivity | discriminate]
          | exists 6; split; [reflexivity | discriminate]
          | exists 6; split; reflexivity ].
Qed.

Lemma sync_calls_ok env r root :
  (runSteps (syncSteps env r root)).2 = None ->
  gitCalls (runSteps (syncSteps env r root)).1 = syncCalls env r.
Proof.
  intros H. destruct (sync_calls env r root) as (n & -> & Hn).
  now rewrite (Hn H).
Qed.

Lemma syncCalls_no_push env r n b msg : ~ In (CommitAndPush b msg) (take n (syncCalls env r)).
Proof.
  intros H. apply list_elem_of_In, elem_of_take in H. destruct H as (i & H & _).
  unfold syncCalls in H. do 6 (destruct i as [|i]; [discriminate H|]). discriminate H.
Qed.

Lemma gitCalls_rootWrite r root : gitCalls (rootWrite r root) = [].
Proof. reflexivity. Qed.

(** The calls and the remote of an exit path of [commitIn]: a failure
    before the push, a failed push, or a push. *)
Lemma InnerRun_calls env r u m rm err evs m' rm' :
  InnerRun env r (workspace u) m rm err evs m' rm' ->
  (exists n e, gitCalls evs = take n (syncCalls env r) /\ err = Some e /\ rm' = rm) \/
  (exists e, gitCalls evs = syncCalls env r ++ [pushCall r] /\
             err = Some (errorWrap "failed to commit and push" e) /\
             (git env (pushCall r)).2 = Some e /\ rm' = rm) \/
  (gitCalls evs = syncCalls env r ++ [pushCall r] /\ err = None /\
   (git env (pushCall r)).2 = None /\ rm' = rm ++ [pushOf r m']).
Proof.
  destruct 1 as [e HS | e HS HW | m1 e levs m2 HS HW HL | m1 levs m2 out e HS HW HL HG
                | m1 levs m2 out HS HW HL HG];
    try (apply LoopRun_confined in HL; destruct HL as (HL & _);
         apply gitCalls_loop in HL).
  - left. destruct (sync_calls env r (workspace u)) as (n & Hn & _). eauto.
  - left. exists 6, (errorWrap "failed to write top-level hydrator metadata" e).
    rewrite !gitCalls_app, (sync_calls_ok _ _ _ HS). cbn. auto.
  - left. exists 6, e.
    rewrite !gitCalls_app, (sync_calls_ok _ _ _ HS), HL. cbn. auto.
  - right. left. exists e.
    rewrite !gitCalls_app, (sync_calls_ok _ _ _ HS), HL, HG. cbn. auto.
  - right. right.
    rewrite !gitCalls_app, (sync_calls_ok _ _ _ HS), HL, HG. cbn. auto.
Qed.

Lemma BodyRun_calls env r m rm err evs m' rm' :
  BodyRun env r m rm err evs m' rm' ->
  (exists n e, gitCalls evs = take n (syncCalls env r) /\ err = Some e /\ rm' = rm) \/
  (exists e, gitCalls evs = syncCalls env r ++ [pushCall r] /\
             err = Some (errorWrap "failed to commit and push" e) /\
             (git env (pushCall r)).2 = Some e /\ rm' = rm) \/
  (exists tree, gitCalls evs = syncCalls env r ++ [pushCall r] /\ err = None /\
                (git env (pushCall r)).2 = None /\ rm' = rm ++ [pushOf r tree]).
Proof.
  destruct 1 as [e HU | u e HU HM | u m1 err evs m2 rm2 HU HM HI].
  - left. exists 0. eauto.
  - left. exists 0. eauto.
  - rewrite !gitCalls_app, gitCalls_cleanup, List.app_nil_r. cbn [gitCalls omap app].
    apply InnerRun_calls in HI.
    destruct HI as [H | [H | (H1 & H2 & H3 & H4)]]; [now left | now right; left |].
    right. right. eauto.
Qed.

Ltac use_outcomes :=
  repeat match goal with
         | E : git ?env ?c = _, H : context [git ?env ?c] |- _ => rewrite E in H
         | E : GetUserInfo ?env = _, H : context [GetUserInfo ?env] |- _ => rewrite E in H
         end.

Ltac sync_facts :=
  split; [|split];
  [ intros c ctx e' Hin Hc He; cbn in Hin, Hc;
    repeat (destruct Hin as [Hin|Hin]; [injection Hin as <- <-|]); try contradiction;
    use_outcomes; cbn in He; try discriminate He;
    try (injection He as <-); intuition (try discriminate; try reflexivity)
  | intros e' Hc He Hu; cbn in Hc;
    use_outcomes; cbn in He, Hu; try discriminate He; try discriminate Hu;
    try (injection Hu as <-); intuition (try discriminate; try reflexivity)
  | intros Hc Hok Hu; cbn in Hc;
    rewrite !Forall_cons in Hok; destruct Hok as (? & ? & ? & ? & ? & ? & _);
    use_outcomes; cbn in *; try discriminate; try contradiction; try reflexivity ].

Lemma InnerRun_sync env r u m rm err evs m' rm' :
  InnerRun env r (workspace u) m rm err evs m' rm' ->
  syncProps env r err (gitCalls evs).
Proof.
  unfold syncProps.
  destruct 1 as [e HS | e HS HW | m1 e levs m2 HS HW HL | m1 levs m2 out e HS HW HL HG
                | m1 levs m2 out HS HW HL HG];
    try (apply LoopRun_confined in HL; destruct HL as (HL & _);
         apply gitCalls_loop in HL);
    rewrite ?gitCalls_app, ?HL, ?gitCalls_rootWrite; unfold pushCall in *;
    sync_destruct env r (workspace u); try discriminate HS;
    try (injection HS as <-); cbn [gitCalls omap app].
  all: sync_facts.
Qed.

Lemma BodyRun_sync env r m rm err evs m' rm' :
  BodyRun env r m rm err evs m' rm' -> syncProps env r err (gitCalls evs).
Proof.
  destruct 1 as [e HU | u e HU HM | u m1 err evs m2 rm2 HU HM HI].
  - repeat split; cbn; intros; contradiction.
  - repeat split; cbn; intros; contradiction.
  - rewrite !gitCalls_app, gitCalls_cleanup, List.app_nil_r. cbn [gitCalls omap app].
    eapply InnerRun_sync, HI.
Qed.

Lemma BodyRun_prefix env r m rm err evs m' rm' :
  BodyRun env r m rm err evs m' rm' ->
  exists n, gitCalls evs = take n (syncCalls env r ++ [pushCall r]).
Proof.
  intros HB. apply BodyRun_calls in HB.
  destruct HB as [(n & e & -> & _) | [(e & -> & _) | (tree & -> & _)]].
  - exists (n `min` 6). rewrite take_app_le by (cbn; lia).
    now rewrite <- take_take, (take_ge (syncCalls env r) 6) by (cbn; lia).
  - now exists 7.
  - now exists 7.
Qed.

Lemma Commit_gitCalls env r w evs :
  trace (Commit env r w).2 =
    trace w ++ [EvIncPending (apiclient.Repo (apiclient.Repo_ r))] ++ evs ++
    [EvDecPending (apiclient.Repo (apiclient.Repo_ r))] ->
  gitCalls (events w (Commit env r w).2) = gitCalls evs.
Proof.
  intros HT. rewrite (events_app _ _ _ HT), !gitCalls_app. cbn.
  now rewrite List.app_nil_r.
Qed.

Lemma walk_error lstat root cs : forall buf e,
  Path.walk lstat root buf cs = inl e -> exists q, lstat q = Some e.
Proof.
  induction cs as [|c cs IH]; intros buf e; cbn [Path.walk]; [discriminate|].
  destruct (decide _); [apply IH|].
  destruct (lstat _) as [e'|] eqn:E; [intros [= <-]; eauto | apply IH].
Qed.

Lemma SecureJoin_error lstat root path e :
  Path.SecureJoin lstat root path = inl e -> exists q, lstat q = Some e.
Proof.
  unfold Path.SecureJoin. destruct (Path.walk _ _ _ _) as [e'|buf] eqn:E; [|discriminate].
  intros [= <-]. eapply walk_error, E.
Qed.

Lemma SecureJoin_workspace env u path full :
  Path.SecureJoin (fault env OpLstat) (workspace u) path = inr full ->
  inWorkspace (rootComponents u) full.
Proof.
  rewrite workspace_render. intros H.
  eapply SecureJoin_render; [| apply rootComponents_good | exact H]. discriminate.
Qed.

Lemma inWorkspace_under u d : inWorkspace (rootComponents u) d -> Path.under (workspace u) d.
Proof. intros (cs & _ & ->). rewrite workspace_render. apply under_render. Qed.

Lemma frame_insert_under (m : gmap string Node) root p c k :
  Path.under root p -> ~ Path.under root k -> frame m (<[p := File c]> m) k.
Proof. intros Hp Hk. left. apply lookup_insert_ne. congruence. Qed.

Lemma writeFile_frame env u name c m m' k :
  good name ->
  writeFile env (workspace u) name c m = inr m' ->
  ~ Path.under (workspace u) k -> frame m m' k.
Proof.
  intros Hn H Hk. apply writeFile_ok in H. destruct H as (-> & _).
  apply frame_insert_under with (root := workspace u); [|exact Hk].
  rewrite workspace_render.
  rewrite Join_render; [apply under_render | discriminate | apply rootComponents_good | exact Hn].
Qed.

Lemma InnerRun_frame env r u m rm err evs m' rm' k :
  InnerRun env r (workspace u) m rm err evs m' rm' ->
  ~ Path.under (workspace u) k -> frame m m' k.
Proof.
  destruct 1 as [e HS | e HS HW | m1 e levs m2 HS HW HL | m1 levs m2 out e HS HW HL HG
                | m1 levs m2 out HS HW HL HG]; intros Hk;
    try apply frame_refl;
    (eapply frame_trans;
     [ eapply writeFile_frame; eauto using good_metadata
     | apply LoopRun_confined in HL; destruct HL as (_ & _ & HL); now apply HL ]).
Qed.

Lemma cleaned_frame env root m k : ~ Path.under root k -> frame m (cleaned env root m) k.
Proof.
  intros Hk. unfold cleaned, removeAll, removeAllLeft.
  left. destruct (fault _ _ _); destruct (m !! k) as [x|] eqn:E;
    first [ apply map_lookup_filter_Some; split; [exact E | first [exact Hk | left; exact Hk]]
          | apply map_lookup_filter_None; left; exact E ].
Qed.

Lemma BodyRun_frame env r m rm err evs m' rm' k :
  BodyRun env r m rm err evs m' rm' ->
  ~ Path.under (workspaceOf env) k -> frame m m' k.
Proof.
  unfold workspaceOf. destruct 1 as [e HU | u e HU HM | u m1 err evs m2 rm2 HU HM HI];
    rewrite HU; intros Hk.
  - apply frame_refl.
  - apply mkdirAllLeft_frame.
  - eapply frame_trans; [eapply mkdirs_frame, mkdirAll_ok, HM|].
    eapply frame_trans; [eapply InnerRun_frame; eauto | now apply cleaned_frame].
Qed.

Lemma bodyEvent_touched root e p : bodyEvent root e -> touched e = Some p -> Path.under root p.
Proof. destruct e; cbn; try discriminate; intros H [= <-]; exact H. Qed.

(** The exit path of a call that returns no error. *)
Lemma Commit_ok env r w :
  (Commit env r w).1.2 = None ->
  exists u m0 m1 w1 wl out,
    NewRandom env = inr u /\
    mkdirAll env (workspace u) (fs w) = inr m0 /\
    (runSteps (syncSteps env r (workspace u))).2 = None /\
    writeFile env (workspace u) metadataFileName (MetadataJSON (rootMetadata r)) m0
      = inr m1 /\
    fs w1 = m1 /\
    forPaths (hydrate env r (newHydratorHelper (workspace u)) (workspace u))
      (apiclient.Paths r) w1 = (inr tt, wl) /\
    remote (Commit env r w).2 = remote w ++ [pushOf r (fs wl)] /\
    events w (Commit env r w).2 =
      [EvIncPending (apiclient.Repo (apiclient.Repo_ r)); EvMkdirAll (workspace u)] ++
      (runSteps (syncSteps env r (workspace u))).1 ++ rootWrite r (workspace u) ++
      loopEvents env r (workspace u) (apiclient.Paths r) ++
      [dbg "Committing and pushing changes"; EvGit (pushCall r);
       EvLog DebugLevel "pushed manifests to git" None (Some out)] ++
      cleanupEvents env (workspace u) ++
      [EvDecPending (apiclient.Repo (apiclient.Repo_ r))].
Proof.
  intros Herr. destruct (Commit_run env r w) as (evs & HB & HT & _).
  rewrite Herr in HB. apply events_app in HT. rewrite HT.
  inversion HB as [| | u m0 err ievs m2 rm2 HU HM HI]; subst.
  inversion HI as [| | | | m1 levs m2' out HS HW HL HG]; subst.
  destruct HL as (w1 & wl & Hw1 & HL & HTl & Hwl).
  destruct (forPaths_ok_events _ _ _ _ _ _ HL) as (HTl' & _).
  rewrite HTl in HTl'. apply List.app_inv_head in HTl'. subst levs.
  exists u, m0, m1, w1, wl, out. repeat split; try assumption.
  - congruence.
  - cbn [app]. now rewrite <- !List.app_assoc.
Qed.

Lemma In_loopEvents env r root ps p e :
  In p ps -> In e (roundEvents r p (resolve env root p)) -> In e (loopEvents env r root ps).
Proof. intros Hp He. unfold loopEvents. apply in_flat_map. eauto. Qed.

Ltac find_in :=
  match goal with
  | |- In _ (_ ++ _) => apply in_or_app; first [left; find_in | right; find_in]
  | |- In _ (_ :: _) => first [left; reflexivity | right; find_in]
  | |- In _ (loopEvents _ _ _ _) =>
      eapply In_loopEvents; [eassumption | unfold roundEvents; find_in]
  | |- In _ (rootWrite _ _) => unfold rootWrite; find_in
  end.

Lemma loop_root_metadata_ws env r u ps acc w w' :
  forPaths (hydrate env r (newHydratorHelper (workspace u)) (workspace u)) ps w
    = (inr tt, w') ->
  fs w !! rootMetadataPath (workspace u)
    = Some (File (MetadataJSON (metadataWith r acc))) ->
  fs w' !! rootMetadataPath (workspace u)
    = Some (File (MetadataJSON
                    (metadataWith r (rootCommandsFrom env (workspace u) acc ps)))).
Proof.
  rewrite workspace_render.
  apply loop_root_metadata; [discriminate | apply rootComponents_good].
Qed.

Lemma loop_metadata_last_ws env r u ps1 p ps2 w w' :
  forPaths (hydrate env r (newHydratorHelper (workspace u)) (workspace u))
    (ps1 ++ p :: ps2) w = (inr tt, w') ->
  Forall (fun q => resolve env (workspace u) q <> resolve env (workspace u) p) ps2 ->
  fs w' !! Path.Join [resolve env (workspace u) p; metadataFileName]
    = Some (File (MetadataJSON (metadataOf r p))).
Proof.
  rewrite workspace_render.
  apply loop_metadata_last; [discriminate | apply rootComponents_good].
Qed.

Lemma rootCommandsFrom_none env root ps : forall acc,
  Forall (fun p => resolve env root p <> root) ps ->
  rootCommandsFrom env root acc ps = acc.
Proof.
  induction ps as [|p ps IH]; intros acc H; [reflexivity|].
  inversion H as [|? ? Hp Hps]; subst. unfold rootCommandsFrom in *. cbn [fold_left].
  destruct (decide _) as [E|_]; [contradiction | now apply IH].
Qed.

Lemma cleaned_gone env root m k :
  fault env OpRemoveAll root = None -> Path.under root k -> cleaned env root m !! k = None.
Proof.
  intros HF Hk. unfold cleaned, removeAll. rewrite HF.
  apply map_lookup_filter_None. right. intros x _ Hn. now apply Hn.
Qed.

Lemma cleanupEvents_log env root e :
  fault env OpRemoveAll root = Some e -> In (cleanupLog e) (cleanupEvents env root).
Proof. intros H. unfold cleanupEvents. rewrite H. right. now left. Qed.

(** The result of [Commit] does not depend on the failures of
    [os.RemoveAll]. *)
Lemma Commit_result_cleanup env r w f :
  (Commit (withRemoveAllFault f env) r w).1 = (Commit env r w).1.
Proof.
  unfold Commit, commitBody.
  change (makeSecureTempDir (withRemoveAllFault f env)) with (makeSecureTempDir env).
  destruct (makeSecureTempDir env _) as [[e|d] w1]; [reflexivity|].
  change (commitIn (withRemoveAllFault f env) r d w1) with (commitIn env r d w1).
  now destruct (commitIn env r d w1) as [[e|[]] w2].
Qed.

Lemma fileWrites_sync env r root : fileWrites (runSteps (syncSteps env r root)).1 = [].
Proof. sync_destruct env r root; reflexivity. Qed.

Lemma fileWrites_cleanup env root : fileWrites (cleanupEvents env root) = [].
Proof. unfold cleanupEvents. now destruct (fault _ _ _). Qed.

Lemma sync_cleared env r root :
  In RemoveContents (gitCalls (runSteps (syncSteps env r root)).1) ->
  (git env RemoveContents).2 = None ->
  (runSteps (syncSteps env r root)).2 = None.
Proof.
  sync_destruct env r root; cbn; intros Hc He;
    try reflexivity; try discriminate He; intuition discriminate.
Qed.

Lemma LoopRun_nil env r root m res levs m' :
  LoopRun env r root [] m res levs m' -> res = inr tt /\ levs = [] /\ m' = m.
Proof.
  intros (w & w' & <- & HL & HT & <-). cbn in HL. injection HL as <- <-.
  repeat split. rewrite <- (List.app_nil_r (trace w)) in HT at 1.
  now apply List.app_inv_head in HT.
Qed.

Lemma hydratePathOf_root p :
  apiclient.Path p = "." \/ apiclient.Path p = "" -> hydratePathOf p = "".
Proof.
  unfold hydratePathOf. intros [H|H]; rewrite H; [reflexivity|].
  destruct (decide _); reflexivity.
Qed.

Lemma resolve_root env u p :
  apiclient.Path p = "." \/ apiclient.Path p = "" ->
  resolve env (workspace u) p = workspace u.
Proof.
  intros H. unfold resolve. now rewrite (hydratePathOf_root _ H), rootWrite_resolves.
Qed.

Lemma writeFile_dirs env dir name c m m' k :
  writeFile env dir name c m = inr m' -> m' !! k = Some Dir <-> m !! k = Some Dir.
Proof.
  intros H. apply writeFile_ok in H. destruct H as (-> & _ & Hp).
  destruct (decide (Path.Join [dir; name] = k)) as [<-|Hne].
  - rewrite lookup_insert_eq. split; [discriminate | contradiction].
  - now rewrite lookup_insert_ne.
Qed.

Lemma mkdirAll_existing env p m m' :
  Forall (fun q => m !! q = Some Dir) (Path.lineage p) -> mkdirAll env p m = inr m' -> m' = m.
Proof.
  intros HF H. apply mkdirAll_ok in H. rewrite (mkdirs_id _ _ HF) in H. congruence.
Qed.

Lemma inWorkspace_ws_root u : inWorkspace (rootComponents u) (workspace u).
Proof.
  exists []. split; [constructor|]. now rewrite List.app_nil_r, workspace_render.
Qed.

Lemma loopEvents_split env r root ps p :
  In p ps ->
  exists pre post,
    loopEvents env r root ps = pre ++ roundEvents r p (resolve env root p) ++ post.
Proof.
  intros H. apply in_split in H. destruct H as (l1 & l2 & ->).
  unfold loopEvents. rewrite flat_map_app. cbn [flat_map]. eauto.
Qed.

Lemma rootOnly_refl root w : rootOnly root w w.
Proof.
  intros _. split; [|tauto]. exists []. split; [now rewrite List.app_nil_r | constructor].
Qed.

Lemma rootOnly_trans root a b c : rootOnly root a b -> rootOnly root b c -> rootOnly root a c.
Proof.
  intros H1 H2 HD. destruct (H1 HD) as ((e1 & T1 & F1) & D1).
  assert (HD' : Forall (fun q => fs b !! q = Some Dir) (Path.lineage root))
    by (eapply List.Forall_impl; [|exact HD]; intros q Hq; now apply D1).
  destruct (H2 HD') as ((e2 & T2 & F2) & D2). split.
  - exists (e1 ++ e2). split; [rewrite T2, T1; now rewrite List.app_assoc|].
    apply Forall_app; auto.
  - intros k. now rewrite D2, D1.
Qed.

Lemma rootOnly_bind root {A B} (m : M A) (k : A -> M B) w :
  rootOnly root w (m w).2 -> (forall a w1, rootOnly root w1 (k a w1).2) ->
  rootOnly root w (bind m k w).2.
Proof.
  intros Hm Hk. unfold bind. destruct (m w) as [[e|a] w1]; [exact Hm|].
  eapply rootOnly_trans; [exact Hm | apply Hk].
Qed.

Lemma rootOnly_lift root {A} (f : World -> A * World) w :
  rootOnly root w (f w).2 -> rootOnly root w (lift f w).2.
Proof. unfold lift. now destruct (f w). Qed.

Lemma rootOnly_emit root e w :
  (forall q, touched e = Some q -> In q (rootPaths root)) -> rootOnly root w (emit e w).
Proof.
  intros H _. split; [|tauto]. exists [e]. split; [reflexivity | now constructor].
Qed.

Lemma rootOnly_log root lvl msg err out w : rootOnly root w (logEntry lvl msg err out w).2.
Proof. apply rootOnly_lift. cbn. apply rootOnly_emit. discriminate. Qed.

Lemma rootOnly_ifErr root err onErr ctx w :
  (forall e w1, rootOnly root w1 (onErr e w1).2) ->
  rootOnly root w (ifErr err onErr ctx w).2.
Proof.
  intros H. destruct err as [e|]; cbn [ifErr]; [|apply rootOnly_refl].
  apply rootOnly_bind; [apply H | intros; apply rootOnly_refl].
Qed.

Lemma rootOnly_MkdirAll env root w : rootOnly root w (os_MkdirAll env root w).2.
Proof.
  intros HD. unfold os_MkdirAll. proj_world.
  rewrite (mkdirAll_id env _ _ HD). split; [|tauto].
  exists [EvMkdirAll root]. split; [reflexivity|].
  constructor; [|constructor]. intros q [= <-]. now left.
Qed.

Lemma rootOnly_WriteFile env root name c w :
  In (Path.Join [root; name]) (rootPaths root) ->
  rootOnly root w (os_WriteFile env root name c w).2.
Proof.
  intros Hin. unfold os_WriteFile. proj_world.
  destruct (writeFile env root name c (fs w)) as [e|m] eqn:E.
  - apply rootOnly_emit. now intros q [= <-].
  - intros _. split.
    + exists [EvWriteFile (Path.Join [root; name]) c]. split; [reflexivity|].
      constructor; [|constructor]. now intros q [= <-].
    + intros k. proj_world. eapply writeFile_dirs, E.
Qed.

Lemma hydrate_rootOnly env r u p w :
  apiclient.Path p = "." \/ apiclient.Path p = "" ->
  rootOnly (workspace u) w
    (hydrate env r (newHydratorHelper (workspace u)) (workspace u) p w).2.
Proof.
  intros Hp. unfold hydrate, WriteManifests, WriteMetadata, WriteReadme, writeIn.
  cbn [newHydratorHelper dirPath].
  change (if decide (apiclient.Path p = ".") then "" else apiclient.Path p)
    with (hydratePathOf p).
  cbv zeta. rewrite (hydratePathOf_root _ Hp), rootWrite_resolves.
  apply rootOnly_bind; [apply rootOnly_log | intros _ w1].
  apply rootOnly_bind; [apply rootOnly_lift, rootOnly_MkdirAll | intros err1 w2].
  apply rootOnly_bind; [apply rootOnly_ifErr; intros; apply rootOnly_log | intros _ w3].
  apply rootOnly_bind;
    [apply rootOnly_lift, rootOnly_WriteFile; unfold rootPaths; cbn [In]; tauto | intros err2 w4].
  apply rootOnly_bind; [apply rootOnly_ifErr; intros; apply rootOnly_log | intros _ w5].
  apply rootOnly_bind; [apply rootOnly_log | intros _ w6].
  apply rootOnly_bind;
    [apply rootOnly_lift, rootOnly_WriteFile; unfold rootPaths; cbn [In]; tauto | intros err3 w7].
  apply rootOnly_bind; [apply rootOnly_ifErr; intros; apply rootOnly_log | intros _ w8].
  apply rootOnly_bind; [apply rootOnly_log | intros _ w9].
  apply rootOnly_bind;
    [apply rootOnly_lift, rootOnly_WriteFile; unfold rootPaths; cbn [In]; tauto | intros err4 w10].
  apply rootOnly_ifErr; intros; apply rootOnly_log.
Qed.

Lemma round_files env r u p w w' :
  hydrate env r (newHydratorHelper (workspace u)) (workspace u) p w = (inr tt, w') ->
  let dir := resolve env (workspace u) p in
  fs w' !! Path.Join [dir; manifestFileName]
    = Some (File (ManifestYAML (apiclient.Manifests p))) /\
  fs w' !! Path.Join [dir; metadataFileName]
    = Some (File (MetadataJSON (metadataOf r p))) /\
  fs w' !! Path.Join [dir; readmeFileName] = Some (File (readmeOf r p)).
Proof.
  intros H dir. apply hydrate_ok in H. destruct H as (full & m & HS & _ & -> & _ & _).
  subst dir. rewrite (resolve_ok _ _ _ _ HS).
  pose proof (SecureJoin_workspace _ _ _ _ HS) as HW.
  split; [|split].
  - apply roundFs_manifest with (rc := rootComponents u);
      [discriminate | apply rootComponents_good | exact HW].
  - apply roundFs_metadata with (rc := rootComponents u);
      [discriminate | apply rootComponents_good | exact HW].
  - apply roundFs_readme.
Qed.

(** *** Clean paths, the outside of the workspace, the calls that are made *)

Lemma sync_untouched env r root :
  Forall (fun e => touched e = None) (runSteps (syncSteps env r root)).1.
Proof. sync_destruct env r root; repeat constructor. Qed.

Ltac untouched := intros ?p; unfold errLog, errLogOut, dbg, cleanupLog; cbn [touched]; discriminate.

Lemma InnerRun_tidy env r u m rm err evs m' rm' :
  InnerRun env r (workspace u) m rm err evs m' rm' ->
  Forall (tidyEvent (workspace u)) evs.
Proof.
  assert (HS : Forall (tidyEvent (workspace u)) (runSteps (syncSteps env r (workspace u))).1).
  { eapply List.Forall_impl; [|apply sync_untouched]. intros e He p Hp. congruence. }
  assert (HW : Forall (tidyEvent (workspace u)) (rootWrite r (workspace u))).
  { unfold rootWrite. constructor; [untouched|]. constructor; [|constructor].
    intros p [= <-]. apply TidyLemmas.rootMetadataPath_below. }
  destruct 1;
    repeat match goal with
           | H : LoopRun _ _ _ _ _ _ _ _ |- _ => apply TidyLemmas.LoopRun_tidy in H
           end;
    repeat (apply Forall_app; split); try assumption;
    repeat (apply List.Forall_cons; [untouched|]); apply List.Forall_nil.
Qed.

Lemma BodyRun_tidy env r m rm err evs m' rm' :
  BodyRun env r m rm err evs m' rm' -> Forall (tidyEvent (workspaceOf env)) evs.
Proof.
  unfold workspaceOf. destruct 1 as [e HU | u e HU HM | u m1 err evs m2 rm2 HU HM HI];
    rewrite HU.
  - constructor; [untouched | constructor].
  - constructor; [intros p [= <-]; apply TidyLemmas.below_refl|].
    constructor; [untouched | constructor].
  - repeat (apply Forall_app; split).
    + constructor; [intros p [= <-]; apply TidyLemmas.below_refl | constructor].
    + eapply InnerRun_tidy, HI.
    + unfold cleanupEvents. destruct (fault _ _ _);
        (constructor; [intros p [= <-]; apply TidyLemmas.below_refl|]);
        repeat (apply List.Forall_cons; [untouched|]); apply List.Forall_nil.
Qed.

(** What a call of [os.MkdirAll] on the workspace that fails leaves: at
    most the two directories on the way to the workspace are new. *)
Lemma mkdirAllLeft_workspace env u (m : gmap string Node) e k :
  mkdirAll env (workspace u) m = inl e ->
  mkdirAllLeft env (workspace u) m !! k = m !! k \/
  (In k ["/tmp"; tempRoot] /\ m !! k = None /\
   mkdirAllLeft env (workspace u) m !! k = Some Dir).
Proof.
  intros HM. destruct (in_dec string_dec k ["/tmp"; tempRoot]) as [Hin|Hout].
  - destruct (mkdirAllLeft_frame env (workspace u) m k) as [E | [E1 E2]]; [now left|].
    right. split; [exact Hin | now split].
  - left. apply (mkdirAllLeft_fail _ _ _ e); [exact HM|].
    rewrite FailLemmas.lineage_workspace. exact Hout.
Qed.

(** Outside the workspace an exit path of [Commit] changes nothing, but
    for the two directories on the way to the workspace. *)
Lemma BodyRun_outside env r m rm err evs m' rm' k :
  BodyRun env r m rm err evs m' rm' ->
  ~ Path.under (workspaceOf env) k ->
  m' !! k = m !! k \/ (In k ["/tmp"; tempRoot] /\ m !! k = None /\ m' !! k = Some Dir).
Proof.
  unfold workspaceOf.
  destruct 1 as [e HU | u e HU HM | u m0 err evs m2 rm2 HU HM HI]; rewrite HU; intros Hk.
  - now left.
  - now apply (mkdirAllLeft_workspace _ _ _ e).
  - pose proof HM as HM'. apply mkdirAll_ok in HM.
    pose proof (mkdirs_dirs _ _ _ HM) as HD.
    rewrite SealedLemmas.cleaned_outside by exact Hk.
    rewrite (SealedLemmas.InnerRun_sealed _ _ _ _ _ _ _ _ _ HI HD k Hk).
    destruct (in_dec string_dec k (Path.lineage (workspace u))) as [Hin|Hout].
    + destruct (mkdirs_frame _ _ _ k HM) as [E | [E1 E2]]; [now left|]. right.
      split; [|now split].
      rewrite FailLemmas.lineage_workspace in Hin. cbn [In] in Hin.
      destruct Hin as [<- | [<- | [<- | []]]]; [now left | right; now left |].
      exfalso. apply Hk. rewrite FailLemmas.workspace_path. apply under_refl.
    + left. eapply SealedLemmas.mkdirs_only; eauto.
Qed.

Ltac known_outcomes :=
  repeat match goal with
         | E : git ?env ?c = _ |- context [git ?env ?c] => rewrite E
         | E : GetUserInfo ?env = _ |- context [GetUserInfo ?env] => rewrite E
         end.

(** On a client that was created the branch synchronizer makes the calls
    the environment fixes, and it succeeds only when no step fails. *)
Lemma sync_driven env r root :
  NewClientExt env (apiclient.RepoUrl r) root (apiclient.Insecure (apiclient.Repo_ r))
    (apiclient.EnableLFS (apiclient.Repo_ r)) (apiclient.Proxy (apiclient.Repo_ r)) = None ->
  gitCalls (runSteps (syncSteps env r root)).1 = syncDriven env r /\
  ((runSteps (syncSteps env r root)).2 = None -> syncOk env r).
Proof.
  intros HC. unfold syncDriven, syncOk. cbn [driven].
  sync_destruct env r root; try discriminate HC;
    (split; [reflexivity | intros H; try discriminate H]).
  split; [|reflexivity].
  repeat (apply List.Forall_cons; [known_outcomes; reflexivity|]). apply List.Forall_nil.
Qed.

Lemma sync_no_client env r root :
  NewClientExt env (apiclient.RepoUrl r) root (apiclient.Insecure (apiclient.Repo_ r))
    (apiclient.EnableLFS (apiclient.Repo_ r)) (apiclient.Proxy (apiclient.Repo_ r)) <> None ->
  gitCalls (runSteps (syncSteps env r root)).1 = [] /\
  (runSteps (syncSteps env r root)).2 <> None.
Proof.
  intros HC. unfold syncSteps. cbn [runSteps stepError stepEvents stepLog stepContext].
  destruct (NewClientExt _ _ _ _ _ _) as [e|]; [|congruence].
  split; [reflexivity | discriminate].
Qed.

Lemma syncDriven_ok env r : syncOk env r -> syncDriven env r = syncCalls env r.
Proof.
  intros [HF HU]. unfold syncCalls in *. rewrite !Forall_cons in HF.
  destruct HF as (H1 & H2 & H3 & H4 & H5 & H6 & _).
  unfold syncDriven. cbn [driven]. now rewrite H1, H2, HU, H3, H4, H5, H6.
Qed.

Lemma InnerRun_driven env r u m rm err evs m' rm' :
  InnerRun env r (workspace u) m rm err evs m' rm' ->
  NewClientExt env (apiclient.RepoUrl r) (workspace u)
    (apiclient.Insecure (apiclient.Repo_ r)) (apiclient.EnableLFS (apiclient.Repo_ r))
    (apiclient.Proxy (apiclient.Repo_ r)) = None ->
  exists rest,
    gitCalls evs = syncDriven env r ++ rest /\
    (rest = [] \/ rest = [pushCall r]) /\
    (rest = [pushCall r] -> syncOk env r).
Proof.
  intros H HC. destruct (sync_driven env r (workspace u) HC) as (HD & HO).
  destruct H as [e HS | e HS HW | m1 e levs m2 HS HW HL | m1 levs m2 out e HS HW HL HG
                | m1 levs m2 out HS HW HL HG];
    try (apply LoopRun_confined in HL; destruct HL as (HL & _);
         apply gitCalls_loop in HL);
    rewrite ?gitCalls_app, ?gitCalls_rootWrite, ?HL, HD;
    cbn [gitCalls omap list_omap app dbg errLog errLogOut].
  - exists []. split; [now rewrite List.app_nil_r|]. split; [now left | discriminate].
  - exists []. split; [reflexivity|]. split; [now left | discriminate].
  - exists []. split; [reflexivity|]. split; [now left | discriminate].
  - exists [pushCall r]. split; [reflexivity|]. split; [now right | intros _; now apply HO].
  - exists [pushCall r]. split; [reflexivity|]. split; [now right | intros _; now apply HO].
Qed.

(** *** The files of a directory after the loop *)

Lemma loop_files_last_ws env r u ps1 p ps2 w w' :
  forPaths (hydrate env r (newHydratorHelper (workspace u)) (workspace u))
    (ps1 ++ p :: ps2) w = (inr tt, w') ->
  Forall (fun q => resolve env (workspace u) q <> resolve env (workspace u) p) ps2 ->
  fs w' !! Path.Join [resolve env (workspace u) p; manifestFileName]
    = Some (File (ManifestYAML (apiclient.Manifests p))) /\
  fs w' !! Path.Join [resolve env (workspace u) p; metadataFileName]
    = Some (File (MetadataJSON (metadataOf r p))) /\
  fs w' !! Path.Join [resolve env (workspace u) p; readmeFileName]
    = Some (File (readmeOf r p)).
Proof.
  intros H HF. apply forPaths_app in H. destruct H as (w1 & _ & H).
  apply forPaths_cons in H. destruct H as (w2 & H2 & H3).
  destruct (round_files _ _ _ _ _ _ H2) as (F1 & F2 & F3).
  assert (HW : inWorkspace (rootComponents u) (resolve env (workspace u) p)).
  { pose proof H2 as H2'. apply hydrate_ok in H2'. destruct H2' as (full & m & HS & _).
    rewrite (resolve_ok _ _ _ _ HS). eapply SecureJoin_workspace, HS. }
  pose proof (loop_other env r (rootComponents u) ltac:(discriminate)
                (rootComponents_good u) ps2 (resolve env (workspace u) p)) as HO.
  rewrite <- workspace_render in HO.
  repeat split; eapply HO; eauto using good_manifest, good_metadata, good_readme.
Qed.

(** The last entry of a request that resolves to the directory of a given
    entry. *)
Lemma last_resolving env root ps : forall p,
  In p ps ->
  exists ps1 q ps2,
    ps = ps1 ++ q :: ps2 /\ resolve env root q = resolve env root p /\
    Forall (fun x => resolve env root x <> resolve env root q) ps2.
Proof.
  induction ps as [|a ps IH]; intros p Hin; [contradiction|].
  destruct (decide (Exists (fun x => resolve env root x = resolve env root p) ps))
    as [HE|HN].
  - apply List.Exists_exists in HE. destruct HE as (x & Hx & Ex).
    destruct (IH x Hx) as (ps1 & q & ps2 & -> & Eq & HF).
    exists (a :: ps1), q, ps2. split; [reflexivity|]. split; [congruence | exact HF].
  - apply List.Forall_Exists_neg in HN. destruct Hin as [-> | Hin].
    + exists [], p, ps. split; [reflexivity|]. split; [reflexivity | exact HN].
    + exfalso. rewrite List.Forall_forall in HN. now apply (HN p Hin).
Qed.

(** *** A round at the workspace root that cannot fail *)

Lemma writeFile_inr env dir name c (m : gmap string Node) :
  fault env OpWriteFile (Path.Join [dir; name]) = None ->
  m !! dir = Some Dir -> m !! Path.Join [dir; name] <> Some Dir ->
  writeFile env dir name c m = inr (<[Path.Join [dir; name] := File c]> m).
Proof.
  intros HF HD HN. unfold writeFile. cbv zeta. rewrite HF, HD.
  destruct (m !! Path.Join [dir; name]) as [[|c']|]; [congruence | reflexivity | reflexivity].
Qed.

Lemma written_keeps (m : gmap string Node) q c k :
  m !! q <> Some Dir ->
  (m !! k = Some Dir -> <[q := File c]> m !! k = Some Dir) /\
  (m !! k <> Some Dir -> <[q := File c]> m !! k <> Some Dir).
Proof.
  intros Hq. destruct (decide (q = k)) as [->|Hne].
  - rewrite lookup_insert_eq. split; [contradiction | discriminate].
  - rewrite lookup_insert_ne by exact Hne. tauto.
Qed.

Lemma workspace_dir u (m : gmap string Node) :
  Forall (fun q => m !! q = Some Dir) (Path.lineage (workspace u)) ->
  m !! workspace u = Some Dir.
Proof.
  rewrite FailLemmas.lineage_workspace, !Forall_cons. intros (_ & _ & H & _).
  now rewrite FailLemmas.workspace_path.
Qed.

Lemma hydrate_root_runs env r u p w :
  apiclient.Path p = "." \/ apiclient.Path p = "" ->
  Forall (fun q => fs w !! q = Some Dir) (Path.lineage (workspace u)) ->
  (forall name, In name roundNames ->
     fault env OpWriteFile (Path.Join [workspace u; name]) = None /\
     fs w !! Path.Join [workspace u; name] <> Some Dir) ->
  (hydrate env r (newHydratorHelper (workspace u)) (workspace u) p w).1 = inr tt.
Proof.
  intros Hp HD HW.
  destruct (HW manifestFileName) as (F1 & N1); [now left|].
  destruct (HW metadataFileName) as (F2 & N2); [right; now left|].
  destruct (HW readmeFileName) as (F3 & N3); [right; right; now left|].
  pose proof (workspace_dir _ _ HD) as HR.
  unfold hydrate, WriteManifests, WriteMetadata, WriteReadme, writeIn.
  cbn [newHydratorHelper dirPath].
  change (if decide (apiclient.Path p = ".") then "" else apiclient.Path p)
    with (hydratePathOf p).
  cbv zeta. rewrite (hydratePathOf_root _ Hp), rootWrite_resolves.
  unfold os_MkdirAll, os_WriteFile. run_m. proj_world.
  rewrite (mkdirAll_id env _ _ HD). proj_world.
  rewrite (writeFile_inr _ _ _ _ _ F1 HR N1). proj_world.
  destruct (written_keeps (fs w) (Path.Join [workspace u; manifestFileName])
              (ManifestYAML (apiclient.Manifests p)) (workspace u) N1) as (K1 & _).
  destruct (written_keeps (fs w) (Path.Join [workspace u; manifestFileName])
              (ManifestYAML (apiclient.Manifests p))
              (Path.Join [workspace u; metadataFileName]) N1) as (_ & K2).
  destruct (written_keeps (fs w) (Path.Join [workspace u; manifestFileName])
              (ManifestYAML (apiclient.Manifests p))
              (Path.Join [workspace u; readmeFileName]) N1) as (_ & K3).
  rewrite (writeFile_inr _ _ _ _ _ F2 (K1 HR) (K2 N2)). proj_world.
  match goal with
  | |- context [writeFile env (workspace u) readmeFileName ?c (<[?q := File ?c2]> ?m2)] =>
      destruct (written_keeps m2 q c2 (workspace u) (K2 N2)) as (L1 & _);
      destruct (written_keeps m2 q c2 (Path.Join [workspace u; readmeFileName]) (K2 N2))
        as (_ & L3);
      rewrite (writeFile_inr _ _ _ c _ F3 (L1 (K1 HR)) (L3 (K3 N3)))
  end.
  reflexivity.
Qed.

(** C7. For every call of [Commit], the pending-request counter of every
    repository is back at its value before the call, the call on the gauge
    that raises the counter of the repository of the request is the first
    event of the call, the one that lowers it is the last, and there is no
    other call on the gauge in between, whatever the exit path. *)
Theorem C7_pending_counter_restored (env : Env) (r : apiclient.ManifestsRequest)
    (w : World) :
  let repo := apiclient.Repo (apiclient.Repo_ r) in
  let w' := (Commit env r w).2 in
  (forall l, gauge w' l = gauge w l) /\
  exists evs,
    events w w' = [EvIncPending repo] ++ evs ++ [EvDecPending repo] /\
    Forall (bodyEvent (workspaceOf env)) evs.
Proof.
  intros repo w'. destruct (Commit_run env r w) as (evs & HB & HT & HP).
  fold repo in HT, HP. fold w' in HT, HP, HB. split.
  - intros l. unfold gauge at 1. rewrite HP.
    destruct (decide (repo = l)) as [<-|Hne].
    + rewrite lookup_insert_eq. cbn. lia.
    + now rewrite !lookup_insert_ne by exact Hne.
  - exists evs. split; [now apply events_app | eapply BodyRun_events, HB].
Qed.

(** C4. The remote repository changes at the final commit-and-push only:
    among the calls [Commit] makes to the client there is at most one
    commit-and-push, of the target branch with the message of the request,
    and it is the last call; when [Commit] returns an error the remote is
    as it was before the call, and when it returns none the remote has
    received exactly one commit. *)
Theorem C4_remote_changes_only_at_final_push (env : Env)
    (r : apiclient.ManifestsRequest) (w : World) :
  let err := (Commit env r w).1.2 in
  let w' := (Commit env r w).2 in
  let calls := gitCalls (events w w') in
  (exists n, calls = take n (syncCalls env r ++ [pushCall r])) /\
  (forall b msg, In (CommitAndPush b msg) calls ->
     CommitAndPush b msg = pushCall r /\ calls = syncCalls env r ++ [pushCall r]) /\
  (err <> None -> remote w' = remote w) /\
  (err = None -> exists tree, remote w' = remote w ++ [pushOf r tree]).
Proof.
  intros err w' calls. destruct (Commit_run env r w) as (evs & HB & HT & _).
  fold w' in HT, HB. fold err in HB.
  assert (calls = gitCalls evs) as -> by (apply Commit_gitCalls, HT).
  split; [eapply BodyRun_prefix, HB|].
  apply BodyRun_calls in HB.
  destruct HB as [(n & e & -> & -> & ->) | [(e & -> & -> & _ & ->) | (tree & -> & -> & _ & ->)]].
  - split; [|split].
    + intros b msg H. now apply syncCalls_no_push in H.
    + reflexivity.
    + discriminate.
  - split; [|split].
    + intros b msg H. apply in_app_or in H. destruct H as [H|[H|[]]].
      * now apply (syncCalls_no_push env r 6) in H.
      * auto.
    + reflexivity.
    + discriminate.
  - split; [|split].
    + intros b msg H. apply in_app_or in H. destruct H as [H|[H|[]]].
      * now apply (syncCalls_no_push env r 6) in H.
      * auto.
    + congruence.
    + eauto.
Qed.

(** C8. Once the workspace and the client are created, the calls [Commit]
    makes to the client are fixed by the environment: [Init], then while
    each step succeeds the fetch without a revision, the resolution of the
    author, [SetAuthor] with the resolved name and e-mail, the checkout of
    the sync branch or an orphan, the checkout of the target branch or a
    new branch from the sync branch, and the removal of the contents; they
    are followed by nothing or by the commit-and-push, and by the
    commit-and-push only when no step failed.  Without the workspace or the
    client no call is made.  The calls are a prefix of the sequence
    followed by the commit-and-push, each made at most once; a step that
    fails is the last call, and [Commit] returns its error wrapped with the
    context of the step; when no step fails, the whole sequence is made. *)
Theorem C8_branch_sync_sequence (env : Env) (r : apiclient.ManifestsRequest)
    (w : World) :
  let err := (Commit env r w).1.2 in
  let calls := gitCalls (events w (Commit env r w).2) in
  let client root :=
    NewClientExt env (apiclient.RepoUrl r) root (apiclient.Insecure (apiclient.Repo_ r))
      (apiclient.EnableLFS (apiclient.Repo_ r)) (apiclient.Proxy (apiclient.Repo_ r)) in
  (exists n, calls = take n (syncCalls env r ++ [pushCall r])) /\
  syncProps env r err calls /\
  (forall u m,
     NewRandom env = inr u -> mkdirAll env (workspace u) (fs w) = inr m ->
     client (workspace u) = None ->
     exists rest,
       calls = syncDriven env r ++ rest /\
       (rest = [] \/ rest = [pushCall r]) /\
       (rest = [pushCall r] -> syncOk env r)) /\
  (syncOk env r -> syncDriven env r = syncCalls env r) /\
  ((forall u, NewRandom env = inr u ->
      (exists e, mkdirAll env (workspace u) (fs w) = inl e) \/
      client (workspace u) <> None) ->
   calls = []).
Proof.
  intros err calls client. destruct (Commit_run env r w) as (evs & HB & HT & _).
  unfold calls. rewrite (Commit_gitCalls _ _ _ _ HT).
  split; [eapply BodyRun_prefix, HB|]. split; [eapply BodyRun_sync, HB|].
  split; [|split; [apply syncDriven_ok|]].
  - intros u m HU HM HC.
    inversion HB as [e HU' | u' e HU' HM' | u' m0 err' ievs m2 rm2 HU' HM' HI];
      try congruence; subst.
    assert (u' = u) as -> by congruence.
    rewrite !gitCalls_app, gitCalls_cleanup, List.app_nil_r. cbn [gitCalls omap list_omap app].
    eapply InnerRun_driven; eauto.
  - intros HN.
    inversion HB as [e HU' | u' e HU' HM' | u' m0 err' ievs m2 rm2 HU' HM' HI];
      try reflexivity; subst.
    rewrite !gitCalls_app, gitCalls_cleanup, List.app_nil_r. cbn [gitCalls omap list_omap app].
    destruct (HN u' HU') as [(e & He) | HC]; [congruence|].
    destruct (sync_no_client env r (workspace u') HC) as (HG & HS).
    inversion HI; subst; try contradiction. exact HG.
Qed.

(** C1 (amended). The traversal-safe join does not reject a path for its
    traversal segments: it fails only with an error of [Lstat], and the
    path it returns is the workspace root followed by plain components,
    none of them empty, [.] or [..], so that the segments are neutralised.
    Every directory [Commit] makes and every file it writes or removes is
    the workspace root or such a path below it, and outside the workspace
    root the file system is as before the call, but for the two directories
    on the way to the workspace, which are made when they are missing. *)
Theorem C1_traversal_is_neutralised (env : Env) (r : apiclient.ManifestsRequest)
    (w : World) :
  let root := workspaceOf env in
  let w' := (Commit env r w).2 in
  (forall u path,
     match Path.SecureJoin (fault env OpLstat) (workspace u) path with
     | inr full => below (workspace u) full
     | inl e => exists q, fault env OpLstat q = Some e
     end) /\
  Forall (fun e => forall p, touched e = Some p -> below root p) (events w w') /\
  (forall k, ~ Path.under root k ->
     fs w' !! k = fs w !! k \/
     (In k ["/tmp"; tempRoot] /\ fs w !! k = None /\ fs w' !! k = Some Dir)).
Proof.
  intros root w'. destruct (Commit_run env r w) as (evs & HB & HT & _).
  fold w' in HT, HB. split; [|split].
  - intros u path. destruct (Path.SecureJoin _ _ _) as [e|full] eqn:E.
    + eapply SecureJoin_error, E.
    + rewrite workspace_render. eapply TidyLemmas.inWorkspace_below, SecureJoin_workspace, E.
  - rewrite (events_app _ _ _ HT).
    apply Forall_app; split; [|apply Forall_app; split].
    + repeat constructor. discriminate.
    + eapply BodyRun_tidy, HB.
    + repeat constructor. discriminate.
  - intros k Hk. eapply BodyRun_outside; eauto.
Qed.

(** C2 (amended). When [Commit] returns no error, the remote has received
    one commit whose metadata file at the workspace root has the dry SHA and
    the repository URL of the request; its commands are those of the last
    entry that resolves to the workspace root, and the empty list when no
    entry does.  The top-level write itself carries the empty list. *)
Theorem C2_root_metadata (env : Env) (r : apiclient.ManifestsRequest) (w : World) :
  (Commit env r w).1.2 = None ->
  exists u tree,
    NewRandom env = inr u /\
    remote (Commit env r w).2 = remote w ++ [pushOf r tree] /\
    tree !! rootMetadataPath (workspace u)
      = Some (File (MetadataJSON
                      {| Commands := rootCommands env (workspace u) (apiclient.Paths r);
                         RepoURL := apiclient.RepoUrl r;
                         DrySHA := apiclient.DrySha r |})) /\
    (Forall (fun p => resolve env (workspace u) p <> workspace u) (apiclient.Paths r) ->
     rootCommands env (workspace u) (apiclient.Paths r) = []) /\
    In (EvWriteFile (rootMetadataPath (workspace u))
          (MetadataJSON {| Commands := []; RepoURL := apiclient.RepoUrl r;
                           DrySHA := apiclient.DrySha r |}))
       (events w (Commit env r w).2).
Proof.
  intros Herr. destruct (Commit_ok env r w Herr)
    as (u & m0 & m1 & w1 & wl & out & HU & HM & HS & HW & Hw1 & HL & HR & HE).
  exists u, (fs wl). split; [exact HU|]. split; [exact HR|]. split; [|split].
  - eapply (loop_root_metadata_ws env r u _ []); [exact HL|].
    rewrite Hw1. apply writeFile_ok in HW. destruct HW as (-> & _).
    apply lookup_insert_eq.
  - apply rootCommandsFrom_none.
  - rewrite HE. find_in.
Qed.

(** C5 (amended). When [Commit] returns no error, every entry of the
    request was resolved to a directory of the workspace, and the metadata
    file written into that directory for the entry has the commands of the
    entry, in their order, with the repository URL and the dry SHA of the
    request.  A later entry that resolves to the same directory writes the
    file again: the commit the remote received holds, in the directory of
    every entry, the metadata file of the last entry of the request that
    resolves to that directory. *)
Theorem C5_path_metadata (env : Env) (r : apiclient.ManifestsRequest) (w : World) :
  (Commit env r w).1.2 = None ->
  exists u tree,
    NewRandom env = inr u /\
    remote (Commit env r w).2 = remote w ++ [pushOf r tree] /\
    (forall p, In p (apiclient.Paths r) ->
       Path.SecureJoin (fault env OpLstat) (workspace u) (hydratePathOf p)
         = inr (resolve env (workspace u) p) /\
       In (EvWriteFile (Path.Join [resolve env (workspace u) p; metadataFileName])
             (MetadataJSON {| Commands := apiclient.Commands p;
                              RepoURL := apiclient.RepoUrl r;
                              DrySHA := apiclient.DrySha r |}))
          (events w (Commit env r w).2)) /\
    (forall ps1 p ps2,
       apiclient.Paths r = ps1 ++ p :: ps2 ->
       Forall (fun q => resolve env (workspace u) q <> resolve env (workspace u) p) ps2 ->
       tree !! Path.Join [resolve env (workspace u) p; metadataFileName]
         = Some (File (MetadataJSON {| Commands := apiclient.Commands p;
                                       RepoURL := apiclient.RepoUrl r;
                                       DrySHA := apiclient.DrySha r |}))) /\
    (forall p, In p (apiclient.Paths r) ->
       exists ps1 q ps2,
         apiclient.Paths r = ps1 ++ q :: ps2 /\
         resolve env (workspace u) q = resolve env (workspace u) p /\
         Forall (fun x => resolve env (workspace u) x <> resolve env (workspace u) q) ps2 /\
         tree !! Path.Join [resolve env (workspace u) p; metadataFileName]
           = Some (File (MetadataJSON {| Commands := apiclient.Commands q;
                                         RepoURL := apiclient.RepoUrl r;
                                         DrySHA := apiclient.DrySha r |}))).
Proof.
  intros Herr. destruct (Commit_ok env r w Herr)
    as (u & m0 & m1 & w1 & wl & out & HU & HM & HS & HW & Hw1 & HL & HR & HE).
  exists u, (fs wl). split; [exact HU|]. split; [exact HR|]. split; [|split].
  - intros p Hp. destruct (forPaths_ok_events _ _ _ _ _ _ HL) as (_ & HF).
    split; [exact (proj1 (List.Forall_forall _ _) HF p Hp)|].
    rewrite HE. find_in.
  - intros ps1 p ps2 Hps HF. rewrite Hps in HL.
    eapply loop_metadata_last_ws; eauto.
  - intros p Hp. destruct (last_resolving env (workspace u) _ p Hp)
      as (ps1 & q & ps2 & Hps & Eq & HF).
    exists ps1, q, ps2. split; [exact Hps|]. split; [exact Eq|]. split; [exact HF|].
    rewrite <- Eq. rewrite Hps in HL. eapply loop_metadata_last_ws; eauto.
Qed.

(** C9. The README of a hydrated directory is the text of the template:
    a heading, then, between the opening fence of a shell code block and
    the closing fence, a git clone command with the repository URL, a git
    checkout command with the dry SHA, and the commands of the entry, each
    followed by a line break.  When [Commit] returns no error, that text,
    made from the commands of the entry and the repository URL and dry SHA
    of the request, was written to the README of the directory of every
    entry, and the commit the remote received holds, in the directory of
    every entry, the README with that text for the last entry of the
    request that resolves to that directory. *)
Theorem C9_readme_text (env : Env) (r : apiclient.ManifestsRequest) (w : World) :
  (forall m,
     Execute manifestHydrationReadmeTemplate m =
       nl +:+ "# Manifest Hydration" +:+ nl +:+ nl +:+
       "To hydrate the manifests in this repository, run the following commands:" +:+
       nl +:+ nl +:+
       "```shell" +:+ nl +:+ nl +:+
       "git clone " +:+ RepoURL m +:+ nl +:+
       "# cd into the cloned directory" +:+ nl +:+
       "git checkout " +:+ DrySHA m +:+ nl +:+
       String.concat "" (map (fun c => c +:+ nl) (Commands m)) +:+
       "```") /\
  ((Commit env r w).1.2 = None ->
   exists u tree,
     NewRandom env = inr u /\
     remote (Commit env r w).2 = remote w ++ [pushOf r tree] /\
     (forall p, In p (apiclient.Paths r) ->
        In (EvWriteFile (Path.Join [resolve env (workspace u) p; readmeFileName])
              (ReadmeText
                 (Execute manifestHydrationReadmeTemplate
                    {| Commands := apiclient.Commands p;
                       RepoURL := apiclient.RepoUrl r;
                       DrySHA := apiclient.DrySha r |})))
           (events w (Commit env r w).2)) /\
     (forall p, In p (apiclient.Paths r) ->
        exists ps1 q ps2,
          apiclient.Paths r = ps1 ++ q :: ps2 /\
          resolve env (workspace u) q = resolve env (workspace u) p /\
          Forall (fun x => resolve env (workspace u) x <> resolve env (workspace u) q) ps2 /\
          tree !! Path.Join [resolve env (workspace u) p; readmeFileName]
            = Some (File (ReadmeText
                            (Execute manifestHydrationReadmeTemplate
                               {| Commands := apiclient.Commands q;
                                  RepoURL := apiclient.RepoUrl r;
                                  DrySHA := apiclient.DrySha r |}))))).
Proof.
  split.
  - intros m. unfold Execute, manifestHydrationReadmeTemplate.
    cbn [map execNode String.concat]. rewrite !Str.app_assoc. reflexivity.
  - intros Herr. destruct (Commit_ok env r w Herr)
      as (u & m0 & m1 & w1 & wl & out & HU & HM & HS & HW & Hw1 & HL & HR & HE).
    exists u, (fs wl). split; [exact HU|]. split; [exact HR|]. split.
    + intros p Hp. rewrite HE. find_in.
    + intros p Hp. destruct (last_resolving env (workspace u) _ p Hp)
        as (ps1 & q & ps2 & Hps & Eq & HF).
      exists ps1, q, ps2. split; [exact Hps|]. split; [exact Eq|]. split; [exact HF|].
      rewrite <- Eq. rewrite Hps in HL.
      exact (proj2 (proj2 (loop_files_last_ws _ _ _ _ _ _ _ _ HL HF))).
Qed.

(** C3. Once the workspace is created, every exit path of [Commit] ends
    with the removal of the workspace, followed only by the log line of a
    failed removal and the call on the gauge; when the removal does not
    fail, nothing is left at the workspace root or below it; when it fails,
    the failure is logged.  The response and the error [Commit] returns are
    the same whether the removal fails or not.  When the workspace cannot
    be created, nothing is removed, and the file system is as before the
    call, but for the directories on the way to the workspace that were
    made before the failure. *)
Theorem C3_workspace_removed (env : Env) (r : apiclient.ManifestsRequest) (w : World) :
  let w' := (Commit env r w).2 in
  (forall u m1,
     NewRandom env = inr u -> mkdirAll env (workspace u) (fs w) = inr m1 ->
     (exists evs,
        events w w' =
          evs ++ cleanupEvents env (workspace u) ++
          [EvDecPending (apiclient.Repo (apiclient.Repo_ r))]) /\
     (fault env OpRemoveAll (workspace u) = None ->
      forall k, Path.under (workspace u) k -> fs w' !! k = None) /\
     (forall e, fault env OpRemoveAll (workspace u) = Some e ->
                In (cleanupLog e) (events w w'))) /\
  (forall f, (Commit (withRemoveAllFault f env) r w).1 = (Commit env r w).1) /\
  ((forall u, NewRandom env = inr u ->
              exists e, mkdirAll env (workspace u) (fs w) = inl e) ->
   (forall p, ~ In (EvRemoveAll p) (events w w')) /\
   (forall k, fs w' !! k = fs w !! k \/
              (In k ["/tmp"; tempRoot] /\ fs w !! k = None /\ fs w' !! k = Some Dir))).
Proof.
  intros w'. destruct (Commit_run env r w) as (evs & HB & HT & _).
  fold w' in HT, HB. apply events_app in HT. split; [|split].
  - intros u m1 HU HM.
    inversion HB as [e HU' | u' e HU' HM' | u' m0 err ievs m2 rm2 HU' HM' HI];
      try congruence; subst.
    assert (u' = u) as -> by congruence.
    split; [|split].
    + exists ([EvIncPending (apiclient.Repo (apiclient.Repo_ r)); EvMkdirAll (workspace u)]
              ++ ievs).
      rewrite HT. cbn [app]. now rewrite <- !List.app_assoc.
    + intros HF k Hk. now apply cleaned_gone.
    + intros e HF. rewrite HT. apply cleanupEvents_log in HF.
      apply in_or_app. right. apply in_or_app. left.
      apply in_or_app. right. apply in_or_app. now right.
  - intros f. apply Commit_result_cleanup.
  - intros HN. rewrite HT.
    inversion HB as [e HU' | u' e HU' HM' | u' m0 err ievs m2 rm2 HU' HM' HI]; subst.
    + split; [|now left]. intros p. cbn [app In]. unfold errLog. intuition discriminate.
    + split; [|intros k; now apply (mkdirAllLeft_workspace _ _ _ e)].
      intros p. cbn [app In]. unfold errLog. intuition discriminate.
    + destruct (HN u' HU') as (e & He). congruence.
Qed.

(** C10. For a request without paths the loop makes no round: the only
    file [Commit] writes is the metadata file of the workspace root, with
    empty commands.  Once the working tree is cleared that file is written,
    and unless that write fails the commit-and-push is called.  When
    [Commit] returns no error the remote has received one commit, of the
    workspace as it was created plus that file. *)
Theorem C10_empty_paths (env : Env) (r : apiclient.ManifestsRequest) (w : World) :
  apiclient.Paths r = [] ->
  let err := (Commit env r w).1.2 in
  let w' := (Commit env r w).2 in
  let root := workspaceOf env in
  let top := (rootMetadataPath root, MetadataJSON (rootMetadata r)) in
  (fileWrites (events w w') = [] \/ fileWrites (events w w') = [top]) /\
  (In RemoveContents (gitCalls (events w w')) ->
   (git env RemoveContents).2 = None ->
   fileWrites (events w w') = [top] /\
   ((forall e, err <> Some (errorWrap "failed to write top-level hydrator metadata" e)) ->
    In (pushCall r) (gitCalls (events w w')))) /\
  (err = None ->
   exists m0,
     mkdirAll env root (fs w) = inr m0 /\
     remote w' = remote w ++ [pushOf r (<[top.1 := File top.2]> m0)]).
Proof.
  intros Hps err w' root top. destruct (Commit_run env r w) as (evs & HB & HT & _).
  fold w' in HT, HB. fold err in HB. apply events_app in HT. rewrite HT.
  rewrite !fileWrites_app, !gitCalls_app. cbn [fileWrites gitCalls omap list_omap app].
  rewrite !List.app_nil_r. unfold top, root, workspaceOf. clear HT.
  inversion HB as [e HU | u e HU HM | u m0 err' ievs m2 rm2 HU HM HI]; subst; rewrite HU.
  - cbn. repeat split; try tauto; try discriminate.
  - cbn. repeat split; try tauto; try discriminate.
  - rewrite !fileWrites_app, !gitCalls_app, fileWrites_cleanup, gitCalls_cleanup.
    cbn [fileWrites gitCalls omap list_omap app]. rewrite !List.app_nil_r.
    inversion HI as [e HS | e HS HW | m1 e levs m2' HS HW HL | m1 levs m2' out e HS HW HL HG
                    | m1 levs m2' out HS HW HL HG]; subst;
      try (rewrite Hps in HL; apply LoopRun_nil in HL; destruct HL as (HL1 & -> & ->);
           try discriminate HL1);
      rewrite ?fileWrites_app, ?gitCalls_app, ?fileWrites_sync; cbn [app];
      cbn [fileWrites gitCalls rootWrite omap list_omap app dbg errLog errLogOut fst snd].
    + split; [now left|]. split; [|discriminate].
      intros Hc He. rewrite (sync_cleared _ _ _ Hc He) in HS. discriminate.
    + split; [now right|]. split; [|discriminate].
      intros _ _. split; [reflexivity|]. intros Hne. now destruct (Hne e).
    + split; [now right|]. split; [|discriminate].
      intros _ _. split; [reflexivity|]. intros _.
      apply in_or_app. right. now left.
    + split; [now right|]. split.
      * intros _ _. split; [reflexivity|]. intros _.
        apply in_or_app. right. now left.
      * intros _. exists m0. split; [exact HM|].
        apply writeFile_ok in HW. destruct HW as (-> & _). reflexivity.
Qed.

(** C6. An entry whose path is [.] or empty is resolved to the workspace
    root itself.  In a workspace that exists, its round of the loop touches
    nothing but the root and the manifest, metadata and README files
    directly in it, and creates no directory; the round succeeds when the
    three files can be written (no failure of the write, and no directory
    in the place of a file), and when it succeeds the three files are in
    the root with the contents of the entry.  When [Commit] returns no
    error, the events of that round are in its trace, with the workspace
    root as the directory, and the commit the remote received holds the
    three files of the last such entry directly in the root. *)
Theorem C6_root_entry (env : Env) (r : apiclient.ManifestsRequest) (u : uuid.UUID)
    (p : apiclient.PathDetails) (w : World) :
  apiclient.Path p = "." \/ apiclient.Path p = "" ->
  let root := workspace u in
  let res := hydrate env r (newHydratorHelper root) root p w in
  Path.SecureJoin (fault env OpLstat) root (hydratePathOf p) = inr root /\
  (Forall (fun q => fs w !! q = Some Dir) (Path.lineage root) ->
   Forall (fun e => forall q, touched e = Some q -> In q (rootPaths root))
     (events w res.2) /\
   (forall k, fs res.2 !! k = Some Dir <-> fs w !! k = Some Dir)) /\
  (Forall (fun q => fs w !! q = Some Dir) (Path.lineage root) ->
   (forall name, In name roundNames ->
      fault env OpWriteFile (Path.Join [root; name]) = None /\
      fs w !! Path.Join [root; name] <> Some Dir) ->
   res.1 = inr tt) /\
  (res.1 = inr tt ->
   fs res.2 !! Path.Join [root; manifestFileName]
     = Some (File (ManifestYAML (apiclient.Manifests p))) /\
   fs res.2 !! Path.Join [root; metadataFileName]
     = Some (File (MetadataJSON (metadataOf r p))) /\
   fs res.2 !! Path.Join [root; readmeFileName] = Some (File (readmeOf r p))) /\
  ((Commit env r w).1.2 = None -> NewRandom env = inr u -> In p (apiclient.Paths r) ->
   exists pre post,
     events w (Commit env r w).2 = pre ++ roundEvents r p root ++ post) /\
  (forall ps1 ps2,
     (Commit env r w).1.2 = None -> NewRandom env = inr u ->
     apiclient.Paths r = ps1 ++ p :: ps2 ->
     Forall (fun q => resolve env root q <> root) ps2 ->
     exists tree,
       remote (Commit env r w).2 = remote w ++ [pushOf r tree] /\
       tree !! Path.Join [root; manifestFileName]
         = Some (File (ManifestYAML (apiclient.Manifests p))) /\
       tree !! Path.Join [root; metadataFileName]
         = Some (File (MetadataJSON (metadataOf r p))) /\
       tree !! Path.Join [root; readmeFileName] = Some (File (readmeOf r p))).
Proof.
  intros Hp root res. split; [|split; [|split; [|split; [|split]]]].
  - rewrite (hydratePathOf_root _ Hp). apply rootWrite_resolves.
  - intros HD. destruct (hydrate_rootOnly env r u p w Hp HD) as ((evs & HT & HF) & HK).
    fold root in HT, HF, HK. fold res in HT, HK.
    split; [|exact HK]. now rewrite (events_app _ _ _ HT).
  - intros HD HW. now apply hydrate_root_runs.
  - intros Hres. destruct res as [[e|[]] w1] eqn:E; [discriminate|].
    pose proof (round_files env r u p w w1 E) as HF. cbv zeta in HF.
    rewrite (resolve_root _ _ _ Hp) in HF. exact HF.
  - intros Herr HU Hin. destruct (Commit_ok env r w Herr)
      as (u' & m0 & m1 & w1 & wl & out & HU' & HM & _ & HW & Hw1 & HL & HR & HE).
    assert (u' = u) as -> by congruence.
    destruct (loopEvents_split env r root _ p Hin) as (pre & post & Hl).
    unfold root in Hl. rewrite (resolve_root _ _ _ Hp) in Hl. fold root in HE, Hl.
    rewrite HE, Hl.
    match goal with
    | |- exists pre' post', ?a ++ ?b ++ ?c ++ (pre ++ ?rd ++ post) ++ ?t = _ =>
        exists (a ++ b ++ c ++ pre), (post ++ t)
    end.
    rewrite <- !List.app_assoc. reflexivity.
  - intros ps1 ps2 Herr HU Hps HF. destruct (Commit_ok env r w Herr)
      as (u' & m0 & m1 & w1 & wl & out & HU' & HM & _ & HW & Hw1 & HL & HR & HE).
    assert (u' = u) as -> by congruence.
    exists (fs wl). split; [exact HR|].
    rewrite Hps in HL. unfold root in HF.
    assert (HF' : Forall (fun q => resolve env (workspace u) q
                                   <> resolve env (workspace u) p) ps2)
      by (rewrite (resolve_root env u p Hp); exact HF).
    pose proof (loop_files_last_ws _ _ _ _ _ _ _ _ HL HF') as HT.
    rewrite (resolve_root _ _ _ Hp) in HT. exact HT.
Qed.

End Claims.

(** ** Examples *)

Module Examples.
Import Claims.

Lemma sampleRoot_workspace : workspace sampleUuid = sampleRoot.
Proof. vm_compute. reflexivity. Qed.

(** C1, counterexample. *)
Lemma C1_traversal_not_rejected :
  (Commit okEnv requestTraversal emptyWorld).1.2 = None /\
  ~ (exists e, (Commit okEnv requestTraversal emptyWorld).1.2
               = Some (errorWrap "failed to construct hydrate path" e)) /\
  Path.SecureJoin (fault okEnv OpLstat) sampleRoot "../../etc"
    = inr (sampleRoot +:+ "/etc") /\
  map fst (fileWrites (trace (Commit okEnv requestTraversal emptyWorld).2))
    = [ sampleRoot +:+ "/hydrator.metadata";
        sampleRoot +:+ "/etc/manifest.yaml";
        sampleRoot +:+ "/etc/hydrator.metadata";
        sampleRoot +:+ "/etc/README.md" ].
Proof.
  split; [vm_compute; reflexivity|]. split; [|split; vm_compute; reflexivity].
  intros (e & H). vm_compute in H. discriminate H.
Qed.

(** C2, counterexample. *)
Lemma C2_root_commands_overwritten :
  (Commit okEnv requestA emptyWorld).1.2 = None /\
  pushed (Commit okEnv requestA emptyWorld).2 (rootMetadataPath sampleRoot)
    = Some (File (MetadataJSON {| Commands := ["kustomize build"];
                                  RepoURL := "https://git.example/repo";
                                  DrySHA := "abc123" |})) /\
  pushed (Commit okEnv requestA emptyWorld).2 (rootMetadataPath sampleRoot)
    <> Some (File (MetadataJSON {| Commands := [];
                                   RepoURL := "https://git.example/repo";
                                   DrySHA := "abc123" |})).
Proof.
  split; [vm_compute; reflexivity|]. split; [vm_compute; reflexivity|].
  vm_compute. discriminate.
Qed.

Lemma C2_root_metadata_witness :
  (Commit okEnv requestB emptyWorld).1.2 = None /\
  exists tree,
    remote (Commit okEnv requestB emptyWorld).2 = [pushOf requestB tree] /\
    tree !! rootMetadataPath sampleRoot
      = Some (File (MetadataJSON {| Commands := [];
                                    RepoURL := "https://git.example/repo";
                                    DrySHA := "abc123" |})).
Proof.
  split; [vm_compute; reflexivity|].
  destruct (C2_root_metadata okEnv requestB emptyWorld) as (u & tree & HU & HR & HT & HN & _).
  - vm_compute. reflexivity.
  - injection HU as <-. exists tree. split; [exact HR|].
    rewrite sampleRoot_workspace in HT, HN. rewrite HT, HN; [reflexivity|].
    repeat constructor; vm_compute; discriminate.
Defined.

Lemma C3_workspace_removed_witness :
  In (cleanupLog (errorNew "device or resource busy"))
     (events emptyWorld (Commit stuckEnv requestA emptyWorld).2) /\
  (Commit stuckEnv requestA emptyWorld).1 = (Commit okEnv requestA emptyWorld).1.
Proof.
  split.
  - destruct (proj1 (C3_workspace_removed stuckEnv requestA emptyWorld) sampleUuid
                (match mkdirAll stuckEnv sampleRoot ∅ with inr m => m | inl _ => ∅ end)
                eq_refl) as (_ & _ & HC).
    + vm_compute. reflexivity.
    + apply HC. vm_compute. reflexivity.
  - exact (proj1 (proj2 (C3_workspace_removed okEnv requestA emptyWorld))
             (fun _ => Some (errorNew "device or resource busy"))).
Defined.

Lemma C4_remote_untouched_witness :
  (Commit divergedEnv requestB emptyWorld).1.2 <> None /\
  remote (Commit divergedEnv requestB emptyWorld).2 = remote emptyWorld.
Proof.
  split; [vm_compute; discriminate|].
  apply (proj1 (proj2 (proj2 (C4_remote_changes_only_at_final_push
                                divergedEnv requestB emptyWorld)))).
  vm_compute. discriminate.
Defined.

Lemma C5_path_metadata_witness :
  (Commit okEnv requestB emptyWorld).1.2 = None /\
  exists tree,
    remote (Commit okEnv requestB emptyWorld).2 = [pushOf requestB tree] /\
    tree !! (sampleRoot +:+ "/apps/foo/hydrator.metadata")
      = Some (File (MetadataJSON {| Commands := ["helm template foo"];
                                    RepoURL := "https://git.example/repo";
                                    DrySHA := "abc123" |})).
Proof.
  split; [vm_compute; reflexivity|].
  destruct (C5_path_metadata okEnv requestB emptyWorld)
    as (u & tree & HU & HR & _ & HT & _).
  - vm_compute. reflexivity.
  - injection HU as <-. exists tree. split; [exact HR|].
    specialize (HT [] (entry "apps/foo" ["helm template foo"])
                  [entry "apps/bar" ["helm template bar"]] eq_refl).
    assert (HK : Path.Join [resolve okEnv (workspace sampleUuid)
                              (entry "apps/foo" ["helm template foo"]); metadataFileName]
                 = sampleRoot +:+ "/apps/foo/hydrator.metadata")
      by (vm_compute; reflexivity).
    rewrite HK in HT. apply HT.
    repeat constructor. vm_compute. discriminate.
Defined.

(** C5, counterexample: two entries for the directory [a]; the commit
    holds the metadata of the second, and the commands of the first are in
    no file of the commit. *)
Lemma C5_first_entry_overwritten :
  (Commit okEnv requestDup emptyWorld).1.2 = None /\
  In (entry "a" ["first"]) (apiclient.Paths requestDup) /\
  resolve okEnv sampleRoot (entry "a" ["first"]) = sampleRoot +:+ "/a" /\
  pushed (Commit okEnv requestDup emptyWorld).2 (sampleRoot +:+ "/a/hydrator.metadata")
    = Some (File (MetadataJSON {| Commands := ["second"];
                                  RepoURL := "https://git.example/repo";
                                  DrySHA := "abc123" |})) /\
  pushed (Commit okEnv requestDup emptyWorld).2 (sampleRoot +:+ "/a/hydrator.metadata")
    <> Some (File (MetadataJSON {| Commands := ["first"];
                                   RepoURL := "https://git.example/repo";
                                   DrySHA := "abc123" |})).
Proof.
  split; [vm_compute; reflexivity|]. split; [now left|].
  split; [vm_compute; reflexivity|]. split; [vm_compute; reflexivity|].
  vm_compute. discriminate.
Qed.

Lemma C6_root_entry_witness :
  let w0 := (makeSecureTempDir okEnv emptyWorld).2 in
  let res := hydrate okEnv requestA (newHydratorHelper (workspace sampleUuid))
               (workspace sampleUuid) (entry "." ["kustomize build"]) w0 in
  apiclient.Path (entry "." ["kustomize build"]) = "." /\
  res.1 = inr tt /\
  fs res.2 !! Path.Join [workspace sampleUuid; manifestFileName]
    = Some (File (ManifestYAML ["kind: ConfigMap"])) /\
  fs res.2 !! Path.Join [workspace sampleUuid; readmeFileName]
    = Some (File (readmeOf requestA (entry "." ["kustomize build"]))).
Proof.
  intros w0 res. split; [reflexivity|].
  destruct (C6_root_entry okEnv requestA sampleUuid (entry "." ["kustomize build"])
              w0 (or_introl eq_refl)) as (_ & _ & Hrun & Hfiles & _).
  assert (Hres : res.1 = inr tt).
  { apply Hrun.
    - vm_compute. repeat constructor.
    - intros name Hin. split; [reflexivity|].
      destruct Hin as [<- | [<- | [<- | []]]]; vm_compute; discriminate. }
  split; [exact Hres|]. destruct (Hfiles Hres) as (H1 & _ & H3).
  split; [exact H1 | exact H3].
Defined.

Lemma C8_fetch_failure_witness :
  (git offlineEnv (Fetch "")).2 = Some (errorNew "could not resolve host") /\
  gitCalls (events emptyWorld (Commit offlineEnv requestB emptyWorld).2) = [Init; Fetch ""] /\
  (Commit offlineEnv requestB emptyWorld).1.2
    = Some (errorWrap "failed to clone repo" (errorNew "could not resolve host")).
Proof.
  split; [vm_compute; reflexivity|].
  destruct (C8_branch_sync_sequence offlineEnv requestB emptyWorld)
    as (_ & (HP & _) & HD & _).
  destruct (HD sampleUuid
              (match mkdirAll offlineEnv sampleRoot ∅ with inr m => m | inl _ => ∅ end))
    as (rest & HC & [-> | ->] & HO).
  - reflexivity.
  - vm_compute. reflexivity.
  - reflexivity.
  - split; [rewrite HC; vm_compute; reflexivity|].
    apply (HP (Fetch "") "failed to clone repo").
    + right. left. reflexivity.
    + rewrite HC. vm_compute. right. left. reflexivity.
    + vm_compute. reflexivity.
  - exfalso. destruct (HO eq_refl) as (HF & _).
    apply Forall_cons in HF as (_ & HF). apply Forall_cons in HF as (HF & _).
    vm_compute in HF. discriminate HF.
Defined.

Lemma C9_readme_written_witness :
  (Commit okEnv requestA emptyWorld).1.2 = None /\
  exists tree,
    remote (Commit okEnv requestA emptyWorld).2 = [pushOf requestA tree] /\
    tree !! (sampleRoot +:+ "/README.md")
      = Some (File (ReadmeText
                      (Execute manifestHydrationReadmeTemplate
                         {| Commands := ["kustomize build"];
                            RepoURL := "https://git.example/repo";
                            DrySHA := "abc123" |}))).
Proof.
  split; [vm_compute; reflexivity|].
  destruct (proj2 (C9_readme_text okEnv requestA emptyWorld))
    as (u & tree & HU & HR & _ & HT).
  - vm_compute. reflexivity.
  - injection HU as <-. exists tree. split; [exact HR|].
    destruct (HT (entry "." ["kustomize build"]) (or_introl eq_refl))
      as (ps1 & q & ps2 & Hps & _ & _ & Hq).
    assert (HK : Path.Join [resolve okEnv (workspace sampleUuid)
                              (entry "." ["kustomize build"]); readmeFileName]
                 = sampleRoot +:+ "/README.md")
      by (vm_compute; reflexivity).
    rewrite HK in Hq.
    assert (q = entry "." ["kustomize build"]) as ->.
    { destruct ps1 as [|a ps1]; [now injection Hps as <- | ].
      injection Hps as _ Hps. destruct ps1; discriminate Hps. }
    exact Hq.
Defined.

Lemma C10_empty_paths_witness :
  apiclient.Paths requestEmpty = [] /\
  (Commit okEnv requestEmpty emptyWorld).1.2 = None /\
  exists m0,
    mkdirAll okEnv (workspaceOf okEnv) (fs emptyWorld) = inr m0 /\
    remote (Commit okEnv requestEmpty emptyWorld).2
      = remote emptyWorld ++
        [pushOf requestEmpty
           (<[rootMetadataPath (workspaceOf okEnv) :=
                File (MetadataJSON (rootMetadata requestEmpty))]> m0)].
Proof.
  split; [reflexivity|]. split; [vm_compute; reflexivity|].
  apply (proj2 (proj2 (C10_empty_paths okEnv requestEmpty emptyWorld eq_refl))).
  vm_compute. reflexivity.
Defined.

End Examples.

(** ** Further properties of [makeSecureTempDir] and [Commit] *)

Module Properties.
Import WorldLemmas FsLemmas PathLemmas ConfinedLemmas WorkspaceLemmas RunLemmas LoopLemmas
  TraceLemmas Tactics BodyLemmas StrMore UuidMore PathMore SealedLemmas FailLemmas.

Ltac find_ev :=
  match goal with
  | |- In _ (_ ++ _) => apply in_or_app; first [left; find_ev | right; find_ev]
  | |- In _ (_ :: _) => first [left; reflexivity | right; find_ev]
  end.

Lemma under_workspace u k :
  Path.under (workspace u) k -> exists x, k = tempRoot +:+ "/" +:+ uuid.String u +:+ x.
Proof.
  rewrite workspace_path. intros [-> | H].
  - exists "". now rewrite Str.app_nil_r.
  - apply prefix_iff in H as [c ->]. exists ("/" +:+ c). now rewrite !Str.app_assoc.
Qed.

(** X1. When [makeSecureTempDir] returns a path, the path is
    [/tmp/_commit-service/] followed by the text of the identifier drawn,
    unchanged by [path.Join]: it lies below the temp root and is not the
    temp root.  The directory and the temp root exist afterwards, nothing
    that was in the file system is lost, and the only call made is one
    [os.MkdirAll] of that path. *)
Theorem makeSecureTempDir_creates (env : Env) (w : World) (d : string) (w' : World) :
  makeSecureTempDir env w = (inr d, w') ->
  exists u,
    NewRandom env = inr u /\
    d = tempRoot +:+ "/" +:+ uuid.String u /\
    Path.under tempRoot d /\ ~ Path.under d tempRoot /\
    fs w' !! d = Some Dir /\ fs w' !! tempRoot = Some Dir /\
    (forall k, frame (fs w) (fs w') k) /\
    events w w' = [EvMkdirAll d] /\ pending w' = pending w /\ remote w' = remote w.
Proof.
  unfold makeSecureTempDir. destruct (NewRandom env) as [e|u] eqn:EU; [run_m; discriminate|].
  fold (workspace u). unfold os_MkdirAll. run_m. proj_world.
  destruct (mkdirAll env (workspace u) (fs w)) as [e|m] eqn:EM; [discriminate|].
  intros [= <- <-]. exists u. proj_world.
  apply mkdirAll_ok in EM.
  pose proof (mkdirs_dirs _ _ _ EM) as HD. rewrite lineage_workspace in HD.
  rewrite !Forall_cons in HD. destruct HD as (_ & HT & HW & _).
  rewrite workspace_path.
  split; [reflexivity|]. split; [reflexivity|]. split; [|split].
  - right. rewrite <- Str.app_assoc. apply Str.prefix_app.
  - intros [H | H].
    + rewrite <- (Str.app_nil_r tempRoot) in H at 1.
      apply app_inv_head in H. discriminate H.
    + apply prefix_iff in H as [c H]. apply (f_equal String.length) in H.
      rewrite !length_app in H. cbn [String.length] in H. lia.
  - split; [exact HW|]. split; [exact HT|]. split.
    + intros k. eapply mkdirs_frame, EM.
    + split; [|split; reflexivity]. now apply events_app.
Qed.

Lemma makeSecureTempDir_creates_witness :
  exists u, NewRandom okEnv = inr u /\ sampleRoot = tempRoot +:+ "/" +:+ uuid.String u.
Proof.
  destruct (makeSecureTempDir_creates okEnv emptyWorld sampleRoot
              (makeSecureTempDir okEnv emptyWorld).2) as (u & HU & HD & _).
  - vm_compute. reflexivity.
  - exists u. split; [exact HU | exact HD].
Defined.

(** X2. Two identifiers of sixteen bytes that differ give two workspaces
    that differ, and nothing lies under both: the removal of one workspace
    leaves every file and directory of the other as it is. *)
Theorem workspaces_disjoint (u u' : uuid.UUID) :
  wellFormed u -> wellFormed u' -> u <> u' ->
  workspace u <> workspace u' /\
  (forall k, Path.under (workspace u') k -> ~ Path.under (workspace u) k) /\
  (forall env m k, Path.under (workspace u') k -> cleaned env (workspace u) m !! k = m !! k).
Proof.
  intros Hu Hu' Hne.
  assert (K : forall k, Path.under (workspace u') k -> ~ Path.under (workspace u) k).
  { intros k H' H. apply under_workspace in H as [x ->].
    apply under_workspace in H' as [x' H'].
    apply app_inv_head in H'. apply (app_inv_head "/") in H'.
    apply app_inv_length in H' as [H' _];
      [| rewrite !length_String; [reflexivity | apply Hu' | apply Hu]].
    apply Hne. now apply String_inj. }
  split; [|split].
  - intros E. apply (K (workspace u')); [apply under_refl | rewrite <- E; apply under_refl].
  - exact K.
  - intros env m k Hk. apply cleaned_outside. now apply K.
Qed.

Lemma workspaces_disjoint_witness : workspace sampleUuid <> workspace (replicate 16 0%N).
Proof.
  apply (workspaces_disjoint sampleUuid (replicate 16 0%N)).
  - split; [reflexivity|]. repeat constructor.
  - split; [reflexivity|]. repeat constructor.
  - discriminate.
Defined.


(** X3. When [makeSecureTempDir] returns an error, no workspace can be
    used and the gauge and the remote are as before: either no identifier
    was drawn, the error is wrapped with "failed to generate uuid", no call
    was made and the file system is unchanged, or [os.MkdirAll] of the
    workspace failed, which is the only call made, and the error is wrapped
    with "failed to create temp dir"; the file system then differs from
    before at most by the two directories on the way to the workspace,
    which [os.MkdirAll] makes before it fails when they are missing. *)
Theorem makeSecureTempDir_fails (env : Env) (w : World) (err : error) (w' : World) :
  makeSecureTempDir env w = (inl err, w') ->
  pending w' = pending w /\ remote w' = remote w /\
  ((exists e, NewRandom env = inl e /\ err = errorWrap "failed to generate uuid" e /\
              events w w' = [] /\ fs w' = fs w) \/
   (exists u e, NewRandom env = inr u /\ mkdirAll env (workspace u) (fs w) = inl e /\
                err = errorWrap "failed to create temp dir" e /\
                events w w' = [EvMkdirAll (workspace u)] /\
                forall k, fs w' !! k = fs w !! k \/
                          (In k ["/tmp"; tempRoot] /\ fs w !! k = None /\
                           fs w' !! k = Some Dir))).
Proof.
  unfold makeSecureTempDir. destruct (NewRandom env) as [e|u] eqn:EU.
  - run_m. intros [= <- <-]. do 2 (split; [reflexivity|]). left. exists e.
    do 2 (split; [reflexivity|]). split; [|reflexivity].
    apply events_app. now rewrite List.app_nil_r.
  - fold (workspace u). unfold os_MkdirAll. run_m. proj_world.
    destruct (mkdirAll env (workspace u) (fs w)) as [e|m] eqn:EM; [|discriminate].
    intros [= <- <-]. do 2 (split; [reflexivity|]). right. exists u, e.
    split; [reflexivity|]. split; [exact EM|]. split; [reflexivity|].
    split; [now apply events_app|]. proj_world.
    intros k. now apply (Claims.mkdirAllLeft_workspace _ _ _ e).
Qed.

Lemma makeSecureTempDir_fails_witness :
  (makeSecureTempDir readOnlyEnv emptyWorld).1
    = inl (errorWrap "failed to create temp dir" (errorNew "read-only file system")) /\
  fs (makeSecureTempDir readOnlyEnv emptyWorld).2 !! tempRoot = Some Dir /\
  fs (makeSecureTempDir readOnlyEnv emptyWorld).2 !! sampleRoot = None /\
  remote (makeSecureTempDir readOnlyEnv emptyWorld).2 = remote emptyWorld.
Proof.
  split; [vm_compute; reflexivity|]. split; [vm_compute; reflexivity|].
  split; [vm_compute; reflexivity|].
  apply (makeSecureTempDir_fails readOnlyEnv emptyWorld
           (errorWrap "failed to create temp dir" (errorNew "read-only file system"))).
  vm_compute. reflexivity.
Defined.

(** X4. When the workspace cannot be created, [Commit] returns the error
    of [makeSecureTempDir] wrapped once more with "failed to create temp
    dir", so that its text starts with that context followed by the context
    of [makeSecureTempDir]; it logs that error once, creates no client,
    calls no git operation, writes no file and removes nothing. *)
Theorem Commit_without_workspace (env : Env) (r : apiclient.ManifestsRequest) (w : World) :
  (forall u, NewRandom env = inr u -> exists e, mkdirAll env (workspace u) (fs w) = inl e) ->
  let repo := apiclient.Repo (apiclient.Repo_ r) in
  exists ctx e evs,
    (Commit env r w).1.2
      = Some (errorWrap "failed to create temp dir" (errorWrap ctx e)) /\
    Error (errorWrap "failed to create temp dir" (errorWrap ctx e))
      = "failed to create temp dir: " +:+ ctx +:+ ": " +:+ Error e /\
    (ctx = "failed to generate uuid" /\ NewRandom env = inl e /\ evs = [] \/
     ctx = "failed to create temp dir" /\
     exists u, NewRandom env = inr u /\ evs = [EvMkdirAll (workspace u)]) /\
    events w (Commit env r w).2
      = [EvIncPending repo] ++ evs ++
        [errLog "failed to create temp dir" (errorWrap ctx e); EvDecPending repo].
Proof.
  intros HN repo. destruct (Commit_run env r w) as (evs & HB & HT & _).
  apply events_app in HT. rewrite HT.
  inversion HB as [e HU | u e HU HM | u m0 err ievs m2 rm2 HU HM HI]; subst.
  - exists "failed to generate uuid", e, []. repeat split. left. now repeat split.
  - exists "failed to create temp dir", e, [EvMkdirAll (workspace u)]. repeat split.
    right. split; [reflexivity|]. now exists u.
  - destruct (HN u HU) as (e & He). congruence.
Qed.

Lemma Commit_without_workspace_witness :
  exists ctx e,
    (Commit (withMkdirAllFault (fun _ => Some (errorNew "read-only file system")) okEnv)
       requestB emptyWorld).1.2
      = Some (errorWrap "failed to create temp dir" (errorWrap ctx e)).
Proof.
  destruct (Commit_without_workspace
              (withMkdirAllFault (fun _ => Some (errorNew "read-only file system")) okEnv)
              requestB emptyWorld) as (ctx & e & evs & H & _).
  - intros u HU. injection HU as <-. eexists. vm_compute. reflexivity.
  - now exists ctx, e.
Defined.

(** X5. When the client cannot be created in the workspace, [Commit]
    returns that error wrapped with "failed to create git client" and logs
    it; no git operation is called and no file is written; the workspace is
    removed by the deferred function. *)
Theorem Commit_without_client (env : Env) (r : apiclient.ManifestsRequest) (w : World)
    (u : uuid.UUID) (m : gmap string Node) (e : error) :
  NewRandom env = inr u ->
  mkdirAll env (workspace u) (fs w) = inr m ->
  NewClientExt env (apiclient.RepoUrl r) (workspace u)
    (apiclient.Insecure (apiclient.Repo_ r)) (apiclient.EnableLFS (apiclient.Repo_ r))
    (apiclient.Proxy (apiclient.Repo_ r)) = Some e ->
  let repo := apiclient.Repo (apiclient.Repo_ r) in
  let w' := (Commit env r w).2 in
  (Commit env r w).1.2 = Some (errorWrap "failed to create git client" e) /\
  events w w' =
    [EvIncPending repo; EvMkdirAll (workspace u);
     EvNewClient (apiclient.RepoUrl r) (workspace u) (apiclient.Insecure (apiclient.Repo_ r))
       (apiclient.EnableLFS (apiclient.Repo_ r)) (apiclient.Proxy (apiclient.Repo_ r));
     errLog "failed to create git client" e] ++
    cleanupEvents env (workspace u) ++ [EvDecPending repo] /\
  gitCalls (events w w') = [] /\ fileWrites (events w w') = [] /\
  fs w' = cleaned env (workspace u) m /\ remote w' = remote w.
Proof.
  intros HU HM HC repo w'. destruct (Commit_run env r w) as (evs & HB & HT & _).
  fold w' in HB, HT. apply events_app in HT. rewrite HT.
  inversion HB as [e' HU' | u' e' HU' HM' | u' m0 err ievs m2 rm2 HU' HM' HI];
    try congruence; subst.
  assert (u' = u) as -> by congruence. assert (m0 = m) as -> by congruence.
  assert (HS : runSteps (syncSteps env r (workspace u))
               = ([EvNewClient (apiclient.RepoUrl r) (workspace u)
                     (apiclient.Insecure (apiclient.Repo_ r))
                     (apiclient.EnableLFS (apiclient.Repo_ r))
                     (apiclient.Proxy (apiclient.Repo_ r));
                   errLog "failed to create git client" e],
                  Some (errorWrap "failed to create git client" e))).
  { unfold syncSteps. cbn [runSteps stepError stepEvents stepLog stepContext].
    rewrite HC. reflexivity. }
  inversion HI as [e' HS' | e' HS' HW | m1 e' levs m2' HS' HW HL
                  | m1 levs m2' out e' HS' HW HL HG | m1 levs m2' out HS' HW HL HG];
    subst; rewrite HS in *; try discriminate HS'.
  cbn [fst snd] in *. injection HS' as <-.
  rewrite !gitCalls_app, !fileWrites_app, gitCalls_cleanup, Claims.fileWrites_cleanup.
  repeat split; try congruence.
Qed.

Lemma Commit_without_client_witness :
  (Commit (withClientError (errorNew "unsupported protocol") okEnv) requestB emptyWorld).1.2
    = Some (errorWrap "failed to create git client" (errorNew "unsupported protocol")).
Proof.
  apply (Commit_without_client (withClientError (errorNew "unsupported protocol") okEnv)
           requestB emptyWorld sampleUuid
           (match mkdirAll okEnv sampleRoot ∅ with inr m => m | inl _ => ∅ end)
           (errorNew "unsupported protocol") eq_refl).
  - vm_compute. reflexivity.
  - reflexivity.
Defined.

Lemma mkdirCalls_app a b : mkdirCalls (a ++ b) = mkdirCalls a ++ mkdirCalls b.
Proof. apply omap_app. Qed.

Lemma mkdirCalls_sync env r root : mkdirCalls (runSteps (syncSteps env r root)).1 = [].
Proof. sync_destruct env r root; reflexivity. Qed.

Lemma mkdirCalls_cleanup env root : mkdirCalls (cleanupEvents env root) = [].
Proof. unfold cleanupEvents. now destruct (fault _ _ _). Qed.

Lemma mkdirCalls_loop env r root ps :
  mkdirCalls (loopEvents env r root ps) = map (resolve env root) ps.
Proof.
  induction ps as [|p ps IH]; [reflexivity|].
  unfold loopEvents in *. cbn [flat_map map]. rewrite mkdirCalls_app, IH. reflexivity.
Qed.

Lemma fileWrites_loop env r root ps :
  fileWrites (loopEvents env r root ps) = flat_map (roundWrites env r root) ps.
Proof.
  induction ps as [|p ps IH]; [reflexivity|].
  unfold loopEvents in *. cbn [flat_map]. rewrite fileWrites_app, IH. reflexivity.
Qed.

(** X6. When [Commit] returns no error it has called [os.MkdirAll] once
    for the workspace and then once for each entry of the request, in the
    order of the request, with the directory the traversal-safe join
    resolved the path of the entry to; every one of them is the workspace
    root or lies below it. *)
Theorem Commit_mkdir_calls (env : Env) (r : apiclient.ManifestsRequest) (w : World) :
  (Commit env r w).1.2 = None ->
  exists u,
    NewRandom env = inr u /\
    mkdirCalls (events w (Commit env r w).2)
      = workspace u :: map (resolve env (workspace u)) (apiclient.Paths r) /\
    Forall (fun p => Path.SecureJoin (fault env OpLstat) (workspace u) (hydratePathOf p)
                     = inr (resolve env (workspace u) p) /\
                     Path.under (workspace u) (resolve env (workspace u) p))
      (apiclient.Paths r).
Proof.
  intros H. destruct (Claims.Commit_ok env r w H)
    as (u & m0 & m1 & w1 & wl & out & HU & _ & _ & _ & _ & HL & _ & HE).
  exists u. split; [exact HU|]. split.
  - rewrite HE. rewrite !mkdirCalls_app, mkdirCalls_sync, mkdirCalls_loop, mkdirCalls_cleanup.
    cbn [mkdirCalls omap list_omap rootWrite dbg app]. now rewrite !List.app_nil_r.
  - apply forPaths_ok_events in HL. destruct HL as (_ & HF).
    eapply List.Forall_impl; [|exact HF]. intros p Hp. split; [exact Hp|].
    apply Claims.inWorkspace_under. eapply Claims.SecureJoin_workspace, Hp.
Qed.

Lemma Commit_mkdir_calls_witness :
  exists u,
    NewRandom okEnv = inr u /\
    mkdirCalls (events emptyWorld (Commit okEnv requestB emptyWorld).2)
      = workspace u :: map (resolve okEnv (workspace u)) (apiclient.Paths requestB).
Proof.
  destruct (Commit_mkdir_calls okEnv requestB emptyWorld) as (u & HU & HM & _).
  - vm_compute. reflexivity.
  - exists u. split; [exact HU | exact HM].
Defined.

(** X7. When [Commit] returns no error, the files it has written are the
    metadata file of the workspace root, with empty commands, and then for
    each entry of the request, in the order of the request, the manifest
    file, the metadata file and the README of the directory of the entry,
    and no other. *)
Theorem Commit_file_writes (env : Env) (r : apiclient.ManifestsRequest) (w : World) :
  (Commit env r w).1.2 = None ->
  exists u,
    NewRandom env = inr u /\
    fileWrites (events w (Commit env r w).2)
      = (rootMetadataPath (workspace u), MetadataJSON (rootMetadata r)) ::
        flat_map (roundWrites env r (workspace u)) (apiclient.Paths r) /\
    length (fileWrites (events w (Commit env r w).2)) = 1 + 3 * length (apiclient.Paths r).
Proof.
  intros H. destruct (Claims.Commit_ok env r w H)
    as (u & m0 & m1 & w1 & wl & out & HU & _ & _ & _ & _ & HL & _ & HE).
  exists u. split; [exact HU|].
  assert (HW : fileWrites (events w (Commit env r w).2)
               = (rootMetadataPath (workspace u), MetadataJSON (rootMetadata r)) ::
                 flat_map (roundWrites env r (workspace u)) (apiclient.Paths r)).
  { rewrite HE. rewrite !fileWrites_app, Claims.fileWrites_sync, fileWrites_loop,
      Claims.fileWrites_cleanup.
    cbn [fileWrites omap list_omap rootWrite dbg app]. now rewrite !List.app_nil_r. }
  split; [exact HW|]. rewrite HW. cbn [length]. f_equal.
  clear. induction (apiclient.Paths r) as [|p ps IH]; [reflexivity|].
  cbn [flat_map]. rewrite List.length_app, IH. cbn [roundWrites length]. lia.
Qed.

Lemma Commit_file_writes_witness :
  length (fileWrites (events emptyWorld (Commit okEnv requestB emptyWorld).2)) = 7.
Proof.
  destruct (Commit_file_writes okEnv requestB emptyWorld) as (u & _ & _ & HL).
  - vm_compute. reflexivity.
  - exact HL.
Defined.

(** X8. Outside the workspace [Commit] leaves the file system exactly as
    it was, whatever the paths of the request, but for the two directories
    on the way to the workspace, [/tmp] and [/tmp/_commit-service], which it
    creates when they are missing. *)
Theorem Commit_outside_workspace (env : Env) (r : apiclient.ManifestsRequest) (w : World)
    (k : string) :
  ~ Path.under (workspaceOf env) k ->
  let w' := (Commit env r w).2 in
  fs w' !! k = fs w !! k \/
  (In k ["/tmp"; tempRoot] /\ fs w !! k = None /\ fs w' !! k = Some Dir).
Proof.
  intros Hk w'. destruct (Commit_run env r w) as (evs & HB & _ & _). fold w' in HB.
  eapply Claims.BodyRun_outside; eauto.
Qed.

Lemma Commit_outside_workspace_witness :
  fs (Commit okEnv requestTraversal emptyWorld).2 !! "/etc" = None.
Proof.
  destruct (Commit_outside_workspace okEnv requestTraversal emptyWorld "/etc")
    as [H | (H & _)].
  - vm_compute. intros [H | H]; discriminate H.
  - rewrite H. reflexivity.
  - exfalso. cbn [In] in H. destruct H as [H | [H | []]]; discriminate H.
Defined.

Ltac quiet_events :=
  repeat (apply List.Forall_cons; [cbn; first [exact I | reflexivity] |]);
  try apply List.Forall_nil.

Ltac literal_context :=
  eexists _, _; split; [reflexivity|];
  split; [unfold commitContexts, hydrateContexts; cbn [In app]; tauto|];
  split;
  [ intros HN; first [exfalso; apply HN; reflexivity | eexists; find_ev]
  | intros HC; first [discriminate HC | quiet_events] ].

Lemma sync_outcome env r root :
  outcome (runSteps (syncSteps env r root)).2 (runSteps (syncSteps env r root)).1.
Proof.
  sync_destruct env r root; unfold outcome; try literal_context.
  quiet_events.
Qed.

Lemma quiet_loopEvents env r root ps : Forall quiet (loopEvents env r root ps).
Proof.
  unfold loopEvents. induction ps as [|p ps IH]; [constructor|].
  cbn [flat_map]. apply Forall_app. split; [|exact IH].
  unfold roundEvents. quiet_events.
Qed.

Lemma quiet_cleanup env root : Forall quiet (cleanupEvents env root).
Proof. unfold cleanupEvents. destruct (fault _ _ _); quiet_events. Qed.

Lemma logged_weaken ctx e0 pre evs post :
  Forall quiet pre -> Forall quiet post -> logged ctx e0 evs ->
  logged ctx e0 (pre ++ evs ++ post).
Proof.
  intros Hpre Hpost [H1 H2]. split.
  - intros Hc. destruct (H1 Hc) as [out Hin]. exists out.
    apply in_or_app. right. apply in_or_app. now left.
  - intros Hc. repeat (apply Forall_app; split); auto.
Qed.

Lemma outcome_weaken err pre evs post :
  Forall quiet pre -> Forall quiet post -> outcome err evs ->
  outcome err (pre ++ evs ++ post).
Proof.
  intros Hpre Hpost. destruct err as [e|]; cbn [outcome].
  - intros (ctx & e0 & -> & Hin & HL). exists ctx, e0.
    split; [reflexivity|]. split; [exact Hin|]. now apply logged_weaken.
  - intros H. repeat (apply Forall_app; split); auto.
Qed.

Lemma hydrate_context ctx :
  In ctx hydrateContexts ->
  In ctx commitContexts /\ ctx <> "failed to clone repo" /\ logMessage ctx = ctx.
Proof.
  intros H. split; [unfold commitContexts; apply in_or_app; right; apply in_or_app; now left|].
  unfold hydrateContexts in H. cbn [In] in H.
  repeat (destruct H as [<- | H]; [split; [discriminate | reflexivity]|]). contradiction.
Qed.

Lemma InnerRun_outcome env r u m rm err evs m' rm' :
  InnerRun env r (workspace u) m rm err evs m' rm' -> outcome err evs.
Proof.
  pose proof (sync_outcome env r (workspace u)) as HS0.
  assert (HR : Forall quiet (rootWrite r (workspace u))) by (unfold rootWrite; quiet_events).
  destruct 1 as [e HS | e HS HW | m1 e levs m2 HS HW HL | m1 levs m2 out e HS HW HL HG
                | m1 levs m2 out HS HW HL HG]; rewrite HS in HS0; cbn [outcome] in HS0.
  - exact HS0.
  - exists "failed to write top-level hydrator metadata", e. split; [reflexivity|].
    split; [unfold commitContexts, hydrateContexts; cbn [In app]; tauto|]. split.
    + intros _. exists None. find_ev.
    + discriminate.
  - apply LoopRun_fail in HL.
    destruct HL as (ps1 & p & ps2 & ctx & e0 & n & _ & -> & Hin & ->).
    destruct (hydrate_context _ Hin) as (Hc & Hn & Hm).
    exists ctx, e0. split; [reflexivity|]. split; [exact Hc|]. split.
    + intros _. exists None. rewrite Hm. unfold errLog. find_ev.
    + intros E. contradiction.
  - exists "failed to commit and push", e. split; [reflexivity|].
    split; [unfold commitContexts, hydrateContexts; cbn [In app]; tauto|]. split.
    + intros _. exists (Some out). unfold errLogOut. find_ev.
    + discriminate.
  - apply LoopRun_ok in HL. subst levs. cbn [outcome].
    repeat (apply Forall_app; split); auto using quiet_loopEvents. quiet_events.
Qed.

Lemma BodyRun_outcome env r m rm err evs m' rm' :
  BodyRun env r m rm err evs m' rm' -> outcome err evs.
Proof.
  destruct 1 as [e HU | u e HU HM | u m1 err evs m2 rm2 HU HM HI].
  - cbn [outcome]. eexists _, _. split; [reflexivity|].
    split; [unfold commitContexts; cbn [In app]; tauto|]. split.
    + intros _. exists None. find_ev.
    + discriminate.
  - cbn [outcome]. eexists _, _. split; [reflexivity|].
    split; [unfold commitContexts; cbn [In app]; tauto|]. split.
    + intros _. exists None. find_ev.
    + discriminate.
  - apply outcome_weaken; [quiet_events | apply quiet_cleanup |].
    eapply InnerRun_outcome, HI.
Qed.

(** X9. Every error [Commit] returns is an error of a collaborator or of
    the operating system wrapped with one of sixteen contexts, and it is
    logged at error level under that context (under "failed to initialize
    git client" for the context "failed to init git client"), with one
    exception: a failed fetch is returned and not logged.  When [Commit]
    returns no error, and when the fetch fails, the trace holds no error
    log line but the one of a failed removal of the workspace. *)
Theorem Commit_errors_logged (env : Env) (r : apiclient.ManifestsRequest) (w : World) :
  outcome (Commit env r w).1.2 (events w (Commit env r w).2).
Proof.
  destruct (Commit_run env r w) as (evs & HB & HT & _).
  apply events_app in HT. rewrite HT.
  apply outcome_weaken; [quiet_events | quiet_events |].
  eapply BodyRun_outcome, HB.
Qed.

Lemma sync_context env r root ctx e0 :
  (runSteps (syncSteps env r root)).2 = Some (errorWrap ctx e0) -> ~ In ctx hydrateContexts.
Proof.
  sync_destruct env r root; intros H; try discriminate H; injection H as <- <-;
    unfold hydrateContexts; cbn [In]; intuition discriminate.
Qed.

(** X10. The hydration loop stops at the first entry that fails.  When
    the error [Commit] returns carries a context of the loop, the request
    is some entries, the failing entry and the entries after it; the trace
    holds the complete rounds of the entries before, then the round of the
    failing entry up to the step that failed, the log line of the error and
    the removal of the workspace: no entry after the failing one is
    resolved, created or written, and no commit-and-push is called. *)
Theorem Commit_stops_at_failing_entry (env : Env) (r : apiclient.ManifestsRequest)
    (w : World) (ctx : string) (e0 : error) :
  (Commit env r w).1.2 = Some (errorWrap ctx e0) -> In ctx hydrateContexts ->
  exists u ps1 p ps2 n,
    NewRandom env = inr u /\
    apiclient.Paths r = ps1 ++ p :: ps2 /\
    events w (Commit env r w).2 =
      [EvIncPending (apiclient.Repo (apiclient.Repo_ r)); EvMkdirAll (workspace u)] ++
      (runSteps (syncSteps env r (workspace u))).1 ++ rootWrite r (workspace u) ++
      loopEvents env r (workspace u) ps1 ++
      take n (roundEvents r p (resolve env (workspace u) p)) ++
      [errLog ctx e0] ++ cleanupEvents env (workspace u) ++
      [EvDecPending (apiclient.Repo (apiclient.Repo_ r))].
Proof.
  intros Herr Hin. destruct (Commit_run env r w) as (evs & HB & HT & _).
  rewrite Herr in HB. apply events_app in HT. rewrite HT.
  assert (HN : forall c, c <> ctx -> ~ (Some (errorWrap c e0) = Some (errorWrap ctx e0)))
    by (intros c Hc [= E]; contradiction).
  unfold hydrateContexts in Hin. cbn [In] in Hin.
  inversion HB as [e HU E | u e HU HM E | u m0 err ievs m2 rm2 HU HM HI]; subst.
  - exfalso. intuition discriminate.
  - exfalso. intuition discriminate.
  - inversion HI as [e HS | e HS HW E | m1 e levs m2' HS HW HL E
                    | m1 levs m2' out e HS HW HL HG E | ]; subst.
    + exfalso. apply sync_context in HS. apply HS. unfold hydrateContexts. cbn [In]. tauto.
    + exfalso. intuition discriminate.
    + apply LoopRun_fail in HL.
      destruct HL as (ps1 & p & ps2 & ctx' & e0' & n & HP & [= <- <-] & _ & ->).
      exists u, ps1, p, ps2, n. split; [exact HU|]. split; [exact HP|].
      cbn [app]. now rewrite <- !List.app_assoc.
    + exfalso. intuition discriminate.
Qed.

Lemma Commit_stops_at_failing_entry_witness :
  exists u ps1 p ps2,
    NewRandom (withWriteFault okEnv) = inr u /\
    apiclient.Paths requestB = ps1 ++ p :: ps2.
Proof.
  destruct (Commit_stops_at_failing_entry (withWriteFault okEnv) requestB emptyWorld
              "failed to write manifests" (errorNew "no space left on device"))
    as (u & ps1 & p & ps2 & n & HU & HP & _).
  - vm_compute. reflexivity.
  - unfold hydrateContexts. cbn [In]. tauto.
  - exists u, ps1, p, ps2. split; [exact HU | exact HP].
Defined.

Lemma In_fileWrites p c evs : In (EvWriteFile p c) evs -> In (p, c) (fileWrites evs).
Proof.
  induction evs as [|e evs IH]; [contradiction|]. intros [-> | H].
  - now left.
  - unfold fileWrites in *. cbn [omap list_omap]. destruct e; auto. right. auto.
Qed.

Lemma split_after {A} (a b pre post : list A) x :
  a ++ b = pre ++ x :: post -> ~ In x a -> exists pre', pre = a ++ pre'.
Proof.
  revert pre. induction a as [|y a IH]; intros pre H Hx; [now exists pre|].
  destruct pre as [|z pre]; cbn [app] in H; injection H as -> H.
  - exfalso. apply Hx. now left.
  - destruct (IH pre H) as [pre' ->]; [intros N; apply Hx; now right|].
    now exists pre'.
Qed.

Lemma sync_cleared_event env r root :
  (runSteps (syncSteps env r root)).2 = None ->
  In (EvGit RemoveContents) (runSteps (syncSteps env r root)).1 /\
  (git env RemoveContents).2 = None.
Proof.
  sync_destruct env r root; intros H; try discriminate H.
  split; [find_ev | reflexivity].
Qed.

(** X11. No file is written before the working tree is cleared: every
    write of a file in the trace of [Commit] comes after the call of
    [RemoveContents], which succeeded. *)
Theorem Commit_writes_after_clearing (env : Env) (r : apiclient.ManifestsRequest)
    (w : World) (pre post : list Event) (p : string) (c : FileContent) :
  events w (Commit env r w).2 = pre ++ EvWriteFile p c :: post ->
  In (EvGit RemoveContents) pre /\ (git env RemoveContents).2 = None.
Proof.
  intros HE. destruct (Commit_run env r w) as (evs & HB & HT & _).
  apply events_app in HT. rewrite HT in HE.
  assert (HW : In (p, c) (fileWrites ([EvIncPending (apiclient.Repo (apiclient.Repo_ r))] ++
                                      evs ++
                                      [EvDecPending (apiclient.Repo (apiclient.Repo_ r))]))).
  { apply In_fileWrites. rewrite HE. apply in_or_app. right. now left. }
  rewrite !fileWrites_app in HW. cbn [fileWrites omap list_omap app] in HW.
  rewrite List.app_nil_r in HW.
  inversion HB as [e HU | u e HU HM | u m0 err ievs m2 rm2 HU HM HI]; subst;
    try (cbn in HW; contradiction).
  assert (HS : (runSteps (syncSteps env r (workspace u))).2 = None /\
               exists rest, ievs = (runSteps (syncSteps env r (workspace u))).1 ++ rest).
  { inversion HI as [e HS | e HS HW' | m1 e levs m2' HS HW' HL
                    | m1 levs m2' out e HS HW' HL HG | m1 levs m2' out HS HW' HL HG]; subst;
      try (split; [exact HS | eexists; reflexivity]).
    exfalso. rewrite !fileWrites_app, Claims.fileWrites_sync, Claims.fileWrites_cleanup in HW.
    cbn in HW. contradiction. }
  destruct HS as (HS & rest & ->).
  destruct (sync_cleared_event _ _ _ HS) as (HR & HG). split; [|exact HG].
  cbn [app] in HE. rewrite <- !List.app_assoc in HE.
  change (EvIncPending (apiclient.Repo (apiclient.Repo_ r)) :: EvMkdirAll (workspace u) ::
          (runSteps (syncSteps env r (workspace u))).1 ++
          rest ++ cleanupEvents env (workspace u) ++
          [EvDecPending (apiclient.Repo (apiclient.Repo_ r))])
    with (([EvIncPending (apiclient.Repo (apiclient.Repo_ r)); EvMkdirAll (workspace u)] ++
           (runSteps (syncSteps env r (workspace u))).1) ++
          rest ++ cleanupEvents env (workspace u) ++
          [EvDecPending (apiclient.Repo (apiclient.Repo_ r))]) in HE.
  apply split_after in HE.
  - destruct HE as (pre' & ->). apply in_or_app. left. apply in_or_app. now right.
  - intros N. apply In_fileWrites in N.
    rewrite fileWrites_app, Claims.fileWrites_sync in N. cbn in N. contradiction.
Qed.

Lemma Commit_writes_after_clearing_witness :
  (git okEnv RemoveContents).2 = None.
Proof.
  refine (proj2 (Commit_writes_after_clearing okEnv requestEmpty emptyWorld
                   (firstn 15 (events emptyWorld (Commit okEnv requestEmpty emptyWorld).2))
                   (skipn 16 (events emptyWorld (Commit okEnv requestEmpty emptyWorld).2))
                   (rootMetadataPath sampleRoot) (MetadataJSON (rootMetadata requestEmpty))
                   _)).
  vm_compute. reflexivity.
Defined.

Lemma concat_not_dot cs : Forall good cs -> String.concat "/" cs <> ".".
Proof.
  intros H E. destruct cs as [|c cs]; [discriminate E|].
  pose proof (split_concat (c :: cs) (good_noSlash _ H) ltac:(discriminate)) as HS.
  rewrite E in HS. change (Path.split ".") with ["."] in HS. injection HS as <- <-.
  apply Forall_cons in H as [(_ & N & _) _]. now apply N.
Qed.

(** X12. A path made of plain components, none of them empty, [.] or
    [..], is resolved to the workspace root followed by a separator and the
    path as it is, when no [Lstat] fails: the traversal-safe join changes
    nothing in a path that needs no change. *)
Theorem clean_path_resolves (env : Env) (u : uuid.UUID) (p : apiclient.PathDetails)
    (cs : list string) :
  Forall good cs -> cs <> [] -> apiclient.Path p = String.concat "/" cs ->
  (forall q, fault env OpLstat q = None) ->
  Path.SecureJoin (fault env OpLstat) (workspace u) (hydratePathOf p)
    = inr (workspace u +:+ "/" +:+ apiclient.Path p) /\
  resolve env (workspace u) p = workspace u +:+ "/" +:+ apiclient.Path p.
Proof.
  intros Hcs Hne HP HL.
  assert (HH : hydratePathOf p = String.concat "/" cs).
  { unfold hydratePathOf. destruct (decide _) as [E|_]; [|exact HP].
    rewrite HP in E. now apply concat_not_dot in E. }
  assert (HJ : Path.SecureJoin (fault env OpLstat) (workspace u) (hydratePathOf p)
               = inr (workspace u +:+ "/" +:+ apiclient.Path p)).
  { rewrite HH, HP, workspace_render.
    rewrite SecureJoin_good
      by first [ discriminate | apply rootComponents_good | assumption ].
    rewrite render_app. rewrite concat_render by (try apply good_noSlash; assumption).
    reflexivity. }
  split; [exact HJ|]. now apply resolve_ok.
Qed.

Lemma clean_path_resolves_witness :
  resolve okEnv (workspace sampleUuid) (entry "apps/foo" ["helm template foo"])
    = workspace sampleUuid +:+ "/" +:+ "apps/foo".
Proof.
  apply (clean_path_resolves okEnv sampleUuid (entry "apps/foo" ["helm template foo"])
           ["apps"; "foo"]).
  - repeat constructor; good_literal.
  - discriminate.
  - reflexivity.
  - reflexivity.
Defined.

(** X13. A separator, a [.] or a [..] at the front of the unsafe path is
    dropped by the traversal-safe join: the path is taken relative to the
    root, and a climb at the root stays at the root. *)
Theorem SecureJoin_front (lstat : string -> option error) (root p : string) :
  Path.SecureJoin lstat root ("/" +:+ p) = Path.SecureJoin lstat root p /\
  Path.SecureJoin lstat root ("./" +:+ p) = Path.SecureJoin lstat root p /\
  Path.SecureJoin lstat root ("../" +:+ p) = Path.SecureJoin lstat root p.
Proof.
  unfold Path.SecureJoin.
  change (Path.components ("/" +:+ p)) with ("" :: Path.components p).
  change (Path.components ("./" +:+ p)) with ("." :: Path.components p).
  change (Path.components ("../" +:+ p)) with (".." :: Path.components p).
  cbn [Path.walk].
  change (Path.Clean ("/" +:+ "" +:+ "")) with "/".
  change (Path.Clean ("/" +:+ "" +:+ ".")) with "/".
  change (Path.Clean ("/" +:+ "" +:+ "..")) with "/".
  destruct (decide ("/" = "/")); [|congruence]. auto.
Qed.

End Properties.
